(** * ABC-to-MIDI converter: the parser (src/abcParser.js) and the
      generator (src/midiGenerator.js) as Rocq functions.

    JavaScript strings are sequences of UTF-16 code units, so a string is a
    list of code units here and every string operation of the source is
    written over that list.  A Number is a binary64: a finite one is kept
    by its exact value ([Z] for the integers of the source, [Q] for
    durations), the infinities are values of their own, and a number read
    from text is rounded as the conversion to binary64 rounds it. *)

From Stdlib Require Import List Bool Arith ZArith NArith QArith Lia.
From Stdlib Require Import Strings.String Strings.Ascii Numbers.DecimalString.
From Stdlib Require DecimalZ.
Import ListNotations.

Close Scope Q_scope.
Set Implicit Arguments.

(* ------------------------------------------------------------------ *)
(** ** JavaScript strings *)

Module JS.

Definition char := N.
Definition str := list char.

Definition bytes_of (s : string) : list N :=
  map N_of_ascii (list_ascii_of_string s).

(** Literals of this file are UTF-8; [decode] turns them into code units
    (one, two and three byte sequences, which covers the source's text). *)
Fixpoint decode (bs : list N) : str :=
  match bs with
  | [] => []
  | b :: r =>
      if (b <? 128)%N then b :: decode r
      else if (b <? 224)%N then
        match r with
        | c :: r' => ((b - 192) * 64 + (c - 128))%N :: decode r'
        | [] => []
        end
      else
        match r with
        | c :: d :: r' =>
            ((b - 224) * 4096 + (c - 128) * 64 + (d - 128))%N :: decode r'
        | _ => []
        end
  end.

Definition lit (s : string) : str := decode (bytes_of s).
Arguments lit s%_string : simpl never.

Definition ch (a : ascii) : char := N_of_ascii a.

Definition apostrophe : char := 39%N.
Definition lineFeed : char := 10%N.

Definition eqb (a b : str) : bool :=
  if list_eq_dec N.eq_dec a b then true else false.

(** WhiteSpace and LineTerminator code units: what [trim] strips and what
    [\s] matches. *)
Definition isSpace (c : char) : bool :=
  ((9 <=? c) && (c <=? 13) || (c =? 32) || (c =? 160) || (c =? 5760)
   || (8192 <=? c) && (c <=? 8202) || (c =? 8232) || (c =? 8233)
   || (c =? 8239) || (c =? 8287) || (c =? 12288) || (c =? 65279))%N.

Definition isDigit (c : char) : bool := ((48 <=? c) && (c <=? 57))%N.

Fixpoint dropWhile (p : char -> bool) (s : str) : str :=
  match s with
  | [] => []
  | c :: r => if p c then dropWhile p r else s
  end.

Fixpoint takeWhile (p : char -> bool) (s : str) : str :=
  match s with
  | [] => []
  | c :: r => if p c then c :: takeWhile p r else []
  end.

Definition trimStart (s : str) : str := dropWhile isSpace s.
Definition trimEnd (s : str) : str := rev (dropWhile isSpace (rev s)).
Definition trim (s : str) : str := trimEnd (trimStart s).

(** Cut [s] at every unit satisfying [p]; never the empty list. *)
Fixpoint splitOn (p : char -> bool) (s : str) : list str :=
  match s with
  | [] => [[]]
  | c :: r =>
      if p c then [] :: splitOn p r
      else match splitOn p r with
           | l :: ls => (c :: l) :: ls
           | [] => [[c]]
           end
  end.

(** [s.split(sep)] for a one-unit separator. *)
Definition split (sep : char) (s : str) : list str :=
  splitOn (fun c => (c =? sep)%N) s.

(** [parts.join(sep)] *)
Fixpoint join (sep : str) (parts : list str) : str :=
  match parts with
  | [] => []
  | [p] => p
  | p :: ps => p ++ sep ++ join sep ps
  end.

Fixpoint startsWith (s prefix : str) : bool :=
  match prefix, s with
  | [], _ => true
  | _ :: _, [] => false
  | p :: ps, c :: r => (c =? p)%N && startsWith r ps
  end.

(** [s.includes(sub)] *)
Fixpoint includes (s sub : str) : bool :=
  startsWith s sub ||
  match s with
  | [] => false
  | _ :: r => includes r sub
  end.

(** [s.substring(n)] *)
Definition substring (n : nat) (s : str) : str := skipn n s.

(** Number-to-string of an integer. *)
Definition ofZ (z : Z) : str :=
  lit (NilEmpty.string_of_int (Z.to_int z)).

(** *** Numbers *)

(** A Number that is not NaN: a finite value or one of the two
    infinities.  NaN is the [None] of an option where it can arise. *)
Inductive number (A : Type) : Type :=
| Finite (a : A)
| Infinity (negative : bool).
Arguments Finite {A} a.
Arguments Infinity {A} negative.

(** The binary64 nearest to the natural number [n], ties to the even
    significand: the Number an integer literal of that value denotes.  A
    significand has 53 bits, so a number of more bits is cut to a multiple
    of a power of two; what would need the exponent 1024 is Infinity. *)
Definition binary64 (n : N) : number N :=
  let bits := N.size n in
  if (bits <=? 53)%N then Finite n
  else
    let e := (bits - 53)%N in
    let q := (n / 2 ^ e)%N in
    let r := (n mod 2 ^ e)%N in
    let half := (2 ^ (e - 1))%N in
    let q' :=
      if ((half <? r) || ((r =? half) && N.odd q))%N then (q + 1)%N else q in
    let v := (q' * 2 ^ e)%N in
    if (v <? 2 ^ 1024)%N then Finite v else Infinity false.

(** The natural numbers that are binary64 values: a significand of at
    most 53 bits times a power of two, below 2^1024. *)
Definition representable (v : N) : Prop :=
  exists m e : N, v = (m * 2 ^ e)%N /\ (m < 2 ^ 53)%N /\ (v < 2 ^ 1024)%N.

(** How far apart two natural numbers are. *)
Definition distance (a b : N) : N := ((a - b) + (b - a))%N.

(** [d <= 0], [0 <= d] and [0 < d] for a duration. *)
Definition leZero (d : number Q) : bool :=
  match d with
  | Finite q => Qle_bool q 0
  | Infinity negative => negative
  end.

Definition atMostZero (d : number Q) : Prop :=
  match d with
  | Finite q => (q <= 0)%Q
  | Infinity negative => negative = true
  end.

Definition atLeastZero (d : number Q) : Prop :=
  match d with
  | Finite q => (0 <= q)%Q
  | Infinity negative => negative = false
  end.

Definition aboveZero (d : number Q) : Prop :=
  match d with
  | Finite q => (0 < q)%Q
  | Infinity negative => negative = false
  end.

(** Zero is the one falsy value among these numbers. *)
Definition isZero (t : number Z) : bool :=
  match t with
  | Finite z => (z =? 0)%Z
  | Infinity _ => false
  end.

(** Value of a run of decimal digits, most significant first. *)
Definition digitsValue (ds : str) : N :=
  fold_left (fun acc d => (acc * 10 + (d - 48))%N) ds 0%N.

(** [parseFloat(ds)] for a run of decimal digits [ds] that is not empty
    (all the source ever passes): the binary64 nearest to the value of the
    digits. *)
Definition parseFloatDigits (ds : str) : number Q :=
  match binary64 (digitsValue ds) with
  | Finite v => Finite (inject_Z (Z.of_N v))
  | Infinity negative => Infinity negative
  end.

(** A text of several lines, joined by line feeds. *)
Definition text (ls : list string) : str :=
  (fix go (l : list str) : str :=
     match l with
     | [] => []
     | [x] => x
     | x :: r => x ++ lineFeed :: go r
     end) (map lit ls).

Definition hexDigit (c : char) : option N :=
  if isDigit c then Some (c - 48)%N
  else if ((65 <=? c) && (c <=? 70))%N then Some (c - 55)%N
  else if ((97 <=? c) && (c <=? 102))%N then Some (c - 87)%N
  else None.

Fixpoint hexRun (s : str) : list N :=
  match s with
  | [] => []
  | c :: r => match hexDigit c with
              | Some d => d :: hexRun r
              | None => []
              end
  end.

(** The Number of an integer given by its sign and its magnitude. *)
Definition signed (neg : bool) (m : N) : number Z :=
  match binary64 m with
  | Finite v => Finite (if neg then (- Z.of_N v)%Z else Z.of_N v)
  | Infinity _ => Infinity neg
  end.

(** [parseInt(s)] without a radix: the binary64 nearest to the integer the
    digits spell, with the sign in front of them; [None] is NaN. *)
Definition parseInt (s : str) : option (number Z) :=
  let s1 := trimStart s in
  let '(neg, s2) :=
    match s1 with
    | c :: r => if (c =? 45)%N then (true, r)
                else if (c =? 43)%N then (false, r) else (false, s1)
    | [] => (false, s1)
    end in
  let mag :=
    match s2 with
    | z :: x :: r =>
        if ((z =? 48) && ((x =? 120) || (x =? 88)))%N then
          match hexRun r with
          | [] => None
          | ds => Some (fold_left (fun acc d => (acc * 16 + d)%N) ds 0%N)
          end
        else match takeWhile isDigit s2 with
             | [] => None
             | ds => Some (digitsValue ds)
             end
    | _ => match takeWhile isDigit s2 with
           | [] => None
           | ds => Some (digitsValue ds)
           end
    end in
  match mag with
  | None => None
  | Some m => Some (signed neg m)
  end.

End JS.


(* ------------------------------------------------------------------ *)
(** ** src/abcParser.js *)

Module ABCParser.

Import JS.

Record Header := mkHeader {
  title : str;
  key : str;
  meter : str;
  tempo : JS.number Z;
  lineCount : nat;
  (** [number] is set by an [X:] line only; its value may be NaN ([None]) *)
  number : option (option (JS.number Z));
  (** [defaultLength] is set by an [L:] line only *)
  defaultLength : option str
}.

Record Note := mkNote {
  note : str;
  midiNote : Z;
  duration : JS.number Q;
  accidental : str;
  octave : Z
}.

Record Metadata := mkMetadata {
  comments : list str;
  barCount : nat
}.

Record ParsedMusic := mkParsedMusic {
  header : Header;
  body : list Note;
  metadata : Metadata
}.

Record Validation := mkValidation {
  isValid : bool;
  errors : list str
}.

(** The constructor's tables. *)
Definition noteToMidi : list (char * Z) :=
  [ (ch "C", 60); (ch "D", 62); (ch "E", 64); (ch "F", 65); (ch "G", 67);
    (ch "A", 69); (ch "B", 71);
    (ch "c", 72); (ch "d", 74); (ch "e", 76); (ch "f", 77); (ch "g", 79);
    (ch "a", 81); (ch "b", 83) ]%Z.

(** Two more tables of the constructor; no method consults them. *)
Definition accidentals : list (char * Z) :=
  [ (ch "^", 1); (ch "_", -1); (ch "=", 0) ]%Z.

Definition durations : list (str * Q) :=
  [ (lit "1", 4%Q); (lit "2", 2%Q); (lit "4", 1%Q); (lit "8", 0.5%Q);
    (lit "16", 0.25%Q) ].

Fixpoint lookup (c : char) (table : list (char * Z)) : option Z :=
  match table with
  | [] => None
  | (k, v) :: rest => if (c =? k)%N then Some v else lookup c rest
  end.

(** *** parseTempo *)

(** One attempt of [/(\d+)\/(\d+)=(\d+)/] at the head of [s]; the result is
    group 3.  A greedy [\d+] has to stop where the digits stop, so no
    shorter run can succeed. *)
Definition tempoMatchAt (s : str) : option str :=
  match takeWhile isDigit s with
  | [] => None
  | _ :: _ =>
      match dropWhile isDigit s with
      | c1 :: r1 =>
          if (c1 =? ch "/")%N then
            match takeWhile isDigit r1 with
            | [] => None
            | _ :: _ =>
                match dropWhile isDigit r1 with
                | c2 :: r2 =>
                    if (c2 =? ch "=")%N then
                      match takeWhile isDigit r2 with
                      | [] => None
                      | g3 => Some g3
                      end
                    else None
                | [] => None
                end
            end
          else None
      | [] => None
      end
  end.

(** [tempoString.match(...)]: the leftmost position that matches. *)
Fixpoint tempoMatch (s : str) : option str :=
  match tempoMatchAt s with
  | Some g3 => Some g3
  | None => match s with
            | [] => None
            | _ :: r => tempoMatch r
            end
  end.

(** Group 3 is a run of digits that is not empty, for which [parseInt] is
    never NaN ([parseInt_digits]); the inner default is never taken. *)
Definition parseTempo (tempoString : str) : JS.number Z :=
  match tempoMatch tempoString with
  | Some g3 =>
      match parseInt g3 with Some n => n | None => Finite 120%Z end
  | None =>
      match parseInt tempoString with
      | None => Finite 120%Z
      | Some num => num
      end
  end.

(** *** parseHeader *)

Definition initialHeader : Header :=
  {| title := lit "Untitled"; key := lit "C"; meter := lit "4/4";
     tempo := Finite 120%Z; lineCount := 0; number := None;
     defaultLength := None |}.

Definition setNumber (v : option (JS.number Z)) (h : Header) : Header :=
  mkHeader (title h) (key h) (meter h) (tempo h) (lineCount h) (Some v)
           (defaultLength h).
Definition setTitle (v : str) (h : Header) : Header :=
  mkHeader v (key h) (meter h) (tempo h) (lineCount h) (number h)
           (defaultLength h).
Definition setKey (v : str) (h : Header) : Header :=
  mkHeader (title h) v (meter h) (tempo h) (lineCount h) (number h)
           (defaultLength h).
Definition setMeter (v : str) (h : Header) : Header :=
  mkHeader (title h) (key h) v (tempo h) (lineCount h) (number h)
           (defaultLength h).
Definition setTempo (v : JS.number Z) (h : Header) : Header :=
  mkHeader (title h) (key h) (meter h) v (lineCount h) (number h)
           (defaultLength h).
Definition setDefaultLength (v : str) (h : Header) : Header :=
  mkHeader (title h) (key h) (meter h) (tempo h) (lineCount h) (number h)
           (Some v).
Definition setLineCount (v : nat) (h : Header) : Header :=
  mkHeader (title h) (key h) (meter h) (tempo h) v (number h)
           (defaultLength h).

(** The [for] loop of parseHeader from index [i] on; [rest] holds
    [lines[i]], [lines[i+1]], ... *)
Fixpoint parseHeaderFrom (i : nat) (rest : list str) (h : Header) : Header :=
  match rest with
  | [] => h
  | l :: rest' =>
      let line := trim l in
      if startsWith line (lit "X:") then
        parseHeaderFrom (S i) rest' (setNumber (parseInt (substring 2 line)) h)
      else if startsWith line (lit "T:") then
        parseHeaderFrom (S i) rest' (setTitle (substring 2 line) h)
      else if startsWith line (lit "K:") then
        parseHeaderFrom (S i) rest' (setKey (substring 2 line) h)
      else if startsWith line (lit "M:") then
        parseHeaderFrom (S i) rest' (setMeter (substring 2 line) h)
      else if startsWith line (lit "Q:") then
        let tempo := substring 2 line in
        parseHeaderFrom (S i) rest' (setTempo (parseTempo tempo) h)
      else if startsWith line (lit "L:") then
        parseHeaderFrom (S i) rest' (setDefaultLength (substring 2 line) h)
      else if eqb line [] || startsWith line (lit "V:")
              || startsWith line (lit "I:") then
        (* continue *)
        parseHeaderFrom (S i) rest' h
      else
        (* break *)
        setLineCount i h
  end.

Definition parseHeader (lines : list str) : Header :=
  parseHeaderFrom 0 lines initialHeader.

(** *** parseBody *)

(** The four capture groups of [notePattern]: one letter of A-G or a-g, a
    run of the negated class (any unit but comma and apostrophe), a run of
    commas and apostrophes, a run of digits. *)
Record Groups := mkGroups {
  gNote : char;
  gAccidental : str;
  gOctave : str;
  gDuration : str
}.

Definition isNoteLetter (c : char) : bool :=
  ((ch "A" <=? c) && (c <=? ch "G") || (ch "a" <=? c) && (c <=? ch "g"))%N.

(** [[,']] *)
Definition isOctaveMark (c : char) : bool :=
  ((c =? ch ",") || (c =? apostrophe))%N.

(** [[^,']]: a negated class, every unit but the two octave marks. *)
Definition notOctaveMark (c : char) : bool := negb (isOctaveMark c).

(** [notePattern.exec(bodyText)] with [s] the text from [lastIndex] on:
    the groups of the leftmost match and the text after it, or [None].
    Groups 2 to 4 are greedy stars with nothing required after them, so each
    takes its longest run. *)
Fixpoint exec (s : str) : option (Groups * str) :=
  match s with
  | [] => None
  | c :: r =>
      if isNoteLetter c then
        let g2 := takeWhile notOctaveMark r in
        let r2 := dropWhile notOctaveMark r in
        let g3 := takeWhile isOctaveMark r2 in
        let r3 := dropWhile isOctaveMark r2 in
        let g4 := takeWhile isDigit r3 in
        let r4 := dropWhile isDigit r3 in
        Some (mkGroups c g2 g3 g4, r4)
      else exec r
  end.

(** What [exec] guarantees about its groups. *)
Definition wellFormed (m : Groups) : Prop :=
  isNoteLetter (gNote m) = true /\
  forallb notOctaveMark (gAccidental m) = true /\
  forallb isOctaveMark (gOctave m) = true /\
  forallb isDigit (gDuration m) = true.

(** [note.toUpperCase()] for the single letter group 1 holds. *)
Definition toUpperCase (c : char) : str :=
  [if ((ch "a" <=? c) && (c <=? ch "z"))%N then (c - 32)%N else c].

Definition currentOctave : Z := 4.

(** "Procesar accidental" *)
Definition semitoneOffsetOf (accidental : str) : Z :=
  let semitoneOffset := 0%Z in
  let semitoneOffset :=
    if includes accidental [ch "^"] then (semitoneOffset + 1)%Z
    else semitoneOffset in
  let semitoneOffset :=
    if includes accidental [ch "_"] then (semitoneOffset - 1)%Z
    else semitoneOffset in
  let semitoneOffset :=
    if includes accidental [ch "="] then 0%Z else semitoneOffset in
  semitoneOffset.

(** "Procesar octava" *)
Definition octaveOffsetOf (octave : str) : Z :=
  let octaveOffset := 0%Z in
  let octaveOffset :=
    if includes octave [apostrophe]
    then (octaveOffset + (Z.of_nat (List.length (split apostrophe octave)) - 1))%Z
    else octaveOffset in
  let octaveOffset :=
    if includes octave [ch ","]
    then (octaveOffset - (Z.of_nat (List.length (split (ch ",") octave)) - 1))%Z
    else octaveOffset in
  octaveOffset.

(** [this.noteToMidi[note] || 60] *)
Definition baseNoteOf (letter : char) : Z :=
  match lookup letter noteToMidi with
  | Some b => if (b =? 0)%Z then 60%Z else b
  | None => 60%Z
  end.

(** The body of the [while] loop: the note pushed for one match. *)
Definition noteOfMatch (m : Groups) : Note :=
  let semitoneOffset := semitoneOffsetOf (gAccidental m) in
  let octaveOffset := octaveOffsetOf (gOctave m) in
  let baseNote := baseNoteOf (gNote m) in
  let midiNote := (baseNote + semitoneOffset + octaveOffset * 12)%Z in
  let noteDuration :=
    match gDuration m with
    | [] => Finite 1%Q
    | _ :: _ => parseFloatDigits (gDuration m)
    end in
  {| note := toUpperCase (gNote m);
     midiNote := midiNote;
     duration := noteDuration;
     accidental := gAccidental m;
     octave := (currentOctave + octaveOffset)%Z |}.

(** The [while] loop; [fuel] bounds the number of iterations. *)
Fixpoint parseBodyLoop (fuel : nat) (rest : str) (notes : list Note)
  : list Note :=
  match fuel with
  | 0 => notes
  | S fuel' =>
      match exec rest with
      | None => notes
      | Some (m, rest') => parseBodyLoop fuel' rest' (notes ++ [noteOfMatch m])
      end
  end.

(** Every match consumes its letter, so one round per unit of text and one
    more for the failing [exec] are enough (see [scanNotes_step]). *)
Definition scanNotes (bodyText : str) : list Note :=
  parseBodyLoop (S (List.length bodyText)) bodyText [].

Definition parseBody (lines : list str) : list Note :=
  let bodyText := join [ch " "] lines in
  scanNotes bodyText.

(** *** extractMetadata *)

Definition isLineTerminator (c : char) : bool :=
  ((c =? 10) || (c =? 13) || (c =? 8232) || (c =? 8233))%N.

(** [abcString.match(/%.*$/gm) || []]: in every line that has a percent
    sign, the text from the first one to the end of that line. *)
Definition commentMatches (abcString : str) : list str :=
  filter (fun m => negb (eqb m []))
         (map (dropWhile (fun c => negb (c =? ch "%")%N))
              (splitOn isLineTerminator abcString)).

Definition extractMetadata (abcString : str) : Metadata :=
  {| comments := map (fun c => trim (substring 1 c)) (commentMatches abcString);
     barCount := List.length (filter (fun c => (c =? ch "|")%N) abcString) |}.

(** *** parse *)

Definition parse (abcString : str) : ParsedMusic :=
  let lines := split lineFeed (trim abcString) in
  let header := parseHeader lines in
  let body := parseBody (skipn (lineCount header) lines) in
  {| header := header; body := body; metadata := extractMetadata abcString |}.

(** *** validate *)

Definition msgEmpty : str := lit "La notación ABC no puede estar vacía".
Definition msgNoNotes : str :=
  lit "No se encontraron notas válidas (A-G, a-g)".
Definition msgNoKey : str := lit "Falta la clave (K:)".
Definition msgNoMeter : str := lit "Falta el compás (M:)".
Definition msgInvalidChars : str := lit "Caracteres inválidos en las notas: ".

(** [[A-Ga-g\s,.'^_=\d|\[\](){}]] *)
Definition allowedChar (c : char) : bool :=
  isNoteLetter c || isSpace c
  || (c =? ch ",")%N || (c =? ch ".")%N || (c =? apostrophe)%N || (c =? ch "^")%N
  || (c =? ch "_")%N || (c =? ch "=")%N || isDigit c || (c =? ch "|")%N
  || (c =? ch "[")%N || (c =? ch "]")%N || (c =? ch "(")%N || (c =? ch ")")%N
  || (c =? ch "{")%N || (c =? ch "}")%N.

(** [[...new Set(xs)]]: first occurrences, in order. *)
Fixpoint unique (seen : list char) (xs : list char) : list char :=
  match xs with
  | [] => []
  | x :: r =>
      if existsb (N.eqb x) seen then unique seen r
      else x :: unique (x :: seen) r
  end.

Definition noteSectionOf (abcString : str) : str :=
  let lines := split lineFeed abcString in
  join [ch " "]
    (filter (fun line =>
       negb (startsWith line (lit "X:")) &&
       negb (startsWith line (lit "T:")) &&
       negb (startsWith line (lit "C:")) &&
       negb (startsWith line (lit "M:")) &&
       negb (startsWith line (lit "L:")) &&
       negb (startsWith line (lit "K:")) &&
       negb (startsWith line (lit "Q:")) &&
       negb (eqb (trim line) [])) lines).

(** The matches of the invalid-character pattern, in order. *)
Definition invalidCharsOf (noteSection : str) : list char :=
  filter (fun c => negb (allowedChar c)) noteSection.

Definition validate (abcString : str) : Validation :=
  let errors : list str := [] in
  if eqb abcString [] || (List.length (trim abcString) =? 0) then
    let errors := errors ++ [msgEmpty] in
    {| isValid := false; errors := errors |}
  else
    let hasNotes := existsb isNoteLetter abcString in
    let errors := if negb hasNotes then errors ++ [msgNoNotes] else errors in
    let errors :=
      if negb (includes abcString (lit "K:")) then errors ++ [msgNoKey]
      else errors in
    let errors :=
      if negb (includes abcString (lit "M:")) then errors ++ [msgNoMeter]
      else errors in
    let noteSection := noteSectionOf abcString in
    let errors :=
      match noteSection with
      | [] => errors
      | _ :: _ =>
          match invalidCharsOf noteSection with
          | [] => errors
          | invalidChars =>
              let uniqueInvalidChars := unique [] invalidChars in
              errors ++
              [msgInvalidChars ++
               join (lit ", ") (map (fun c => [c]) uniqueInvalidChars)]
          end
      end in
    {| isValid := List.length errors =? 0; errors := errors |}.

End ABCParser.

(* ------------------------------------------------------------------ *)
(** ** src/midiGenerator.js *)

Module MidiGenerator.

Import JS.
Import ABCParser.

(** Durations ABC to MIDI ticks.  A number used as a property key selects
    the entry of the same numeric value; an infinity is the key of its
    name, which is no entry. *)
Definition durationToTicks : list (Q * str) :=
  [ (0.25%Q, lit "T32"); (0.5%Q, lit "T16"); (1%Q, lit "T8");
    (2%Q, lit "T4"); (4%Q, lit "T2"); (8%Q, lit "T1") ].

Definition isKey (d : JS.number Q) (k : Q) : bool :=
  match d with
  | Finite q => Qeq_bool q k
  | Infinity _ => false
  end.

Fixpoint ticksEntry (d : JS.number Q) (table : list (Q * str)) : option str :=
  match table with
  | [] => None
  | (k, v) :: rest => if isKey d k then Some v else ticksEntry d rest
  end.

(** [this.durationToTicks[d] || 'T8'] *)
Definition ticksOrDefault (d : JS.number Q) : str :=
  match ticksEntry d durationToTicks with
  | Some t => t
  | None => lit "T8"
  end.

(** The names of section 4.2 of the specification for the six tokens. *)
Definition thirtySecond : str := lit "T32".
Definition sixteenth : str := lit "T16".
Definition eighth : str := lit "T8".
Definition quarter : str := lit "T4".
Definition half : str := lit "T2".
Definition whole : str := lit "T1".

Definition instruments : list (str * Z) :=
  [ (lit "piano", 0); (lit "violin", 40); (lit "flute", 73);
    (lit "guitar", 24); (lit "bass", 32) ]%Z.

(** What [noteNames[noteIndex] + octave] evaluates to: a string when the
    entry exists; with the entry undefined the sum is numeric and NaN. *)
Inductive Pitch :=
| PitchName (s : str)
| PitchNaN.

Definition noteNames : list str :=
  map lit ["C"; "C#"; "D"; "D#"; "E"; "F"; "F#"; "G"; "G#"; "A"; "A#"; "B"]%string.

(** [noteNames[i]] for an integer [i]: undefined outside the array. *)
Definition nameAt (i : Z) : option str :=
  if (i <? 0)%Z then None else nth_error noteNames (Z.to_nat i).

(** [%] truncates towards zero ([Z.rem]); [Math.floor] of the quotient is
    [Z.div]. *)
Definition midiNoteToPitch (midiNote : Z) : Pitch :=
  let octave := (midiNote / 12 - 1)%Z in
  let noteIndex := Z.rem midiNote 12 in
  match nameAt noteIndex with
  | Some name => PitchName (name ++ ofZ octave)
  | None => PitchNaN
  end.

(** The options handed to [new MidiWriter.NoteEvent]; [ticks] is the
    option the source calls [duration]. *)
Record NoteEvent := mkNoteEvent {
  pitch : Pitch;
  ticks : str;
  velocity : Z;
  channel : Z
}.

(** The [forEach] of convertNotesToEvents over the state
    [(events, currentTime)]; [currentTime] starts as the number 0 and [+=]
    with a string appends to its text. *)
Definition convertStep (st : list NoteEvent * str) (n : Note)
  : list NoteEvent * str :=
  let '(events, currentTime) := st in
  let noteEvent :=
    {| pitch := midiNoteToPitch (midiNote n);
       ticks := ticksOrDefault (duration n);
       velocity := 100;
       channel := 0 |} in
  (events ++ [noteEvent], currentTime ++ ticksOrDefault (duration n)).

Definition convertNotesToEvents (notes : list Note) (header : Header)
  : list NoteEvent :=
  fst (fold_left convertStep notes ([], lit "0")).

(** The events [generate] adds to its track, in order, before the external
    writer serialises it. *)
Inductive TrackEvent :=
| SetTempo (bpm : JS.number Z)
| ProgramChange (instrument : Z)
| NoteOn (e : NoteEvent).

Definition generateTrack (parsedMusic : ParsedMusic) : list TrackEvent :=
  let header := ABCParser.header parsedMusic in
  let body := ABCParser.body parsedMusic in
  SetTempo (if isZero (tempo header) then Finite 120%Z else tempo header)
  :: ProgramChange 0
  :: map NoteOn (convertNotesToEvents body header).

Section ValidateMidiNotes.

(** Number-to-string of a duration inside the message templates (a
    built-in of the host language). *)
Variable numberToString : JS.number Q -> str.

Definition msgOutOfRange (index : nat) (n : Note) : str :=
  lit "Nota " ++ ofZ (Z.of_nat index + 1) ++ lit ": MIDI note "
  ++ ofZ (midiNote n) ++ lit " fuera de rango (0-127)".

Definition msgBadDuration (index : nat) (n : Note) : str :=
  lit "Nota " ++ ofZ (Z.of_nat index + 1) ++ lit ": Duración inválida "
  ++ numberToString (duration n).

(** One call of the [forEach] callback. *)
Definition validateStep (errors : list str) (index : nat) (n : Note)
  : list str :=
  let errors :=
    if ((midiNote n <? 0) || (midiNote n >? 127))%Z
    then errors ++ [msgOutOfRange index n] else errors in
  let errors :=
    if leZero (duration n)
    then errors ++ [msgBadDuration index n] else errors in
  errors.

Fixpoint validateFrom (index : nat) (rest : list Note) (errors : list str)
  : list str :=
  match rest with
  | [] => errors
  | n :: rest' => validateFrom (S index) rest' (validateStep errors index n)
  end.

Definition validateMidiNotes (notes : list Note) : Validation :=
  let errors := validateFrom 0 notes [] in
  {| isValid := List.length errors =? 0; errors := errors |}.

End ValidateMidiNotes.

Definition optimizeMidi (A : Type) (midiBuffer : A) : A := midiBuffer.

End MidiGenerator.

(* ------------------------------------------------------------------ *)
(** ** The header block in the specification's words, and sample tunes *)

Module HeaderSpec.

Import JS ABCParser.

(** A recognized header line: one of the six tags, or blank, or a
    skippable [V:] / [I:] line (the line is looked at trimmed). *)
Definition isHeaderLine (l : str) : bool :=
  let line := trim l in
  startsWith line (lit "X:") || startsWith line (lit "T:")
  || startsWith line (lit "K:") || startsWith line (lit "M:")
  || startsWith line (lit "Q:") || startsWith line (lit "L:")
  || eqb line [] || startsWith line (lit "V:") || startsWith line (lit "I:").


(** The values the lines of [block] give to [tag], in order. *)
Definition tagged (tag : str) (block : list str) : list str :=
  map (fun l => substring 2 (trim l))
      (filter (fun l => startsWith (trim l) tag) block).

Fixpoint lastOf (A : Type) (xs : list A) : option A :=
  match xs with
  | [] => None
  | x :: r => match lastOf r with Some y => Some y | None => Some x end
  end.

(** The value of a field: what the last line with its tag says, or the
    default when the block has no such line. *)
Definition fieldOf (A : Type) (default : A) (read : str -> A) (tag : str)
  (block : list str) : A :=
  match lastOf (tagged tag block) with
  | Some v => read v
  | None => default
  end.

End HeaderSpec.

Module ValidateSpec.

Import JS ABCParser.

(** The distinct characters of the note section that are outside the
    allowed set, each listed once. *)
Definition listedChars (abcString : str) : list char :=
  unique [] (invalidCharsOf (noteSectionOf abcString)).

(** The one entry that names them. *)
Definition invalidEntry (abcString : str) : str :=
  msgInvalidChars ++
  join (lit ", ") (map (fun c => [c]) (listedChars abcString)).

(** The entries of a text that is not blank, check by check. *)
Definition adviceFor (abcString : str) : list str :=
  (if existsb isNoteLetter abcString then [] else [msgNoNotes]) ++
  (if includes abcString (lit "K:") then [] else [msgNoKey]) ++
  (if includes abcString (lit "M:") then [] else [msgNoMeter]) ++
  (match listedChars abcString with [] => [] | _ :: _ => [invalidEntry abcString] end).

End ValidateSpec.

Module Tunes.

Import JS.

Definition scale : str :=
  text ["X:1"; "T:Test Escala"; "M:4/4"; "K:C"; "CDEFGABc"]%string.

Definition headerOnly : str := text ["X:1"; "K:C"]%string.


End Tunes.

Module MidiSpec.

Import JS ABCParser MidiGenerator.

Section Offences.

Variable numberToString : JS.number Q -> str.

(** The entries one note earns at 0-based position [index]. *)
Definition offences (index : nat) (n : Note) : list str :=
  (if ((midiNote n <? 0) || (midiNote n >? 127))%Z
   then [msgOutOfRange index n] else []) ++
  (if leZero (duration n)
   then [msgBadDuration numberToString index n] else []).

(** The entries of the notes [rest] that sit at positions [index],
    [index + 1], ... *)
Fixpoint collect (index : nat) (rest : list Note) : list str :=
  match rest with
  | [] => []
  | n :: rest' => offences index n ++ collect (S index) rest'
  end.

End Offences.

(** The event built for one note. *)
Definition eventOf (n : Note) : NoteEvent :=
  {| pitch := midiNoteToPitch (midiNote n);
     ticks := ticksOrDefault (duration n);
     velocity := 100;
     channel := 0 |}.

End MidiSpec.

(* ------------------------------------------------------------------ *)
(** ** src/midiGenerator.js: the other tracks *)

Module MidiTracks.

Import JS ABCParser MidiGenerator.

(** The members every object inherits from [Object.prototype]: a lookup
    [table[name]] with one of these names finds the inherited member when
    the table has no entry of its own. *)
Definition objectPrototypeMembers : list str :=
  map lit [ "constructor"; "__defineGetter__"; "__defineSetter__";
            "hasOwnProperty"; "__lookupGetter__"; "__lookupSetter__";
            "isPrototypeOf"; "propertyIsEnumerable"; "toString"; "valueOf";
            "__proto__"; "toLocaleString" ]%string.

(** What [this.instruments[name] || 0] evaluates to: a program number, or
    an inherited member (an object or a function, which is truthy). *)
Inductive Program :=
| ProgramNumber (n : Z)
| ProgramInherited (member : str).

Fixpoint ownInstrument (name : str) (table : list (str * Z)) : option Z :=
  match table with
  | [] => None
  | (k, v) :: rest => if eqb name k then Some v else ownInstrument name rest
  end.

Definition instrumentOrDefault (name : str) : Program :=
  match ownInstrument name instruments with
  | Some n => ProgramNumber (if (n =? 0)%Z then 0%Z else n)
  | None =>
      if existsb (eqb name) objectPrototypeMembers
      then ProgramInherited name
      else ProgramNumber 0
  end.

(** The events the generator hands to the writer library. *)
Inductive Event :=
| TempoEvent (bpm : JS.number Z)
| ProgramChangeEvent (instrument : Program)
| NoteEventOf (e : NoteEvent)
| ControllerChangeEvent (controller value : Z)
| TextEvent (text : str).

Definition Track := list Event.

Definition eventOfTrackEvent (e : TrackEvent) : Event :=
  match e with
  | SetTempo bpm => TempoEvent bpm
  | ProgramChange i => ProgramChangeEvent (ProgramNumber i)
  | NoteOn n => NoteEventOf n
  end.

(** The track of [generate]. *)
Definition generateEvents (parsedMusic : ParsedMusic) : Track :=
  map eventOfTrackEvent (generateTrack parsedMusic).

(** [midiEvents.forEach(event => track.addEvent(event))] *)
Definition addEvents (track : Track) (midiEvents : list NoteEvent) : Track :=
  fold_left (fun t e => t ++ [NoteEventOf e]) midiEvents track.

(** One round of the [forEach] of generateMultiTrack. *)
Definition multiTrackStep (parsedMusic : ParsedMusic) (tracks : list Track)
  (instrument : str) : list Track :=
  let track : Track := [] in
  let track := track ++ [ProgramChangeEvent (instrumentOrDefault instrument)] in
  let midiEvents :=
    convertNotesToEvents (body parsedMusic) (header parsedMusic) in
  let track := addEvents track midiEvents in
  tracks ++ [track].

(** The tracks of [generateMultiTrack]. *)
Definition generateMultiTrackTracks (parsedMusic : ParsedMusic)
  (instruments : list str) : list Track :=
  fold_left (multiTrackStep parsedMusic) instruments [].

Record Effects := mkEffects {
  sustain : bool;
  vibrato : bool
}.

Definition addEffects (track : Track) (effects : Effects) : Track :=
  let track :=
    if sustain effects then track ++ [ControllerChangeEvent 64 127]
    else track in
  let track :=
    if vibrato effects then track ++ [ControllerChangeEvent 1 64]
    else track in
  track.

(** The [metadata] argument of generateWithMetadata; a field may be
    absent. *)
Record TextMetadata := mkTextMetadata {
  mdTitle : option str;
  mdComposer : option str
}.

(** A string is truthy when it is there and not empty. *)
Definition truthy (o : option str) : bool :=
  match o with
  | Some (_ :: _) => true
  | _ => false
  end.

Definition textOf (o : option str) : str :=
  match o with Some s => s | None => [] end.

(** The track of [generateWithMetadata]. *)
Definition generateWithMetadataEvents (parsedMusic : ParsedMusic)
  (metadata : TextMetadata) : Track :=
  let track : Track := [] in
  let track :=
    if truthy (mdTitle metadata)
    then track ++ [TextEvent (textOf (mdTitle metadata))] else track in
  let track :=
    if truthy (mdComposer metadata)
    then track ++ [TextEvent (textOf (mdComposer metadata))] else track in
  let track :=
    track ++
    [TempoEvent (if isZero (tempo (header parsedMusic)) then Finite 120%Z
                 else tempo (header parsedMusic))] in
  let track := track ++ [ProgramChangeEvent (ProgramNumber 0)] in
  let midiEvents :=
    convertNotesToEvents (body parsedMusic) (header parsedMusic) in
  addEvents track midiEvents.

Section Writer.

(** The writer library: [new MidiWriter.Writer(tracks).buildFile()] turned
    into a buffer, or the message of the error it throws. *)
Variable Buffer : Type.
Variable writer : list Track -> Buffer + str.

Definition generate (parsedMusic : ParsedMusic) : Buffer + str :=
  writer [generateEvents parsedMusic].

Definition generateMultiTrack (parsedMusic : ParsedMusic)
  (instruments : list str) : Buffer + str :=
  writer (generateMultiTrackTracks parsedMusic instruments).

Definition generateWithMetadata (parsedMusic : ParsedMusic)
  (metadata : TextMetadata) : Buffer + str :=
  writer [generateWithMetadataEvents parsedMusic metadata].

End Writer.

End MidiTracks.

(* ------------------------------------------------------------------ *)
(** ** src/converter.js *)

Module Converter.

Import JS ABCParser MidiGenerator MidiTracks.

Definition msgNotText : str :=
  lit "La entrada debe ser una cadena de texto válida".
Definition msgInputEmpty : str := lit "La entrada no puede estar vacía".
Definition msgNoNotesInMusic : str :=
  lit "No se encontraron notas en la música".
Definition msgInvalidInput : str := lit "Entrada inválida".
Definition msgInvalidStructure : str := lit "Estructura musical inválida".
Definition msgConversionError : str := lit "Error durante la conversión".

(** [validateInput] for an argument that is a string. *)
Definition validateInput (abcString : str) : Validation :=
  if eqb abcString [] then
    {| isValid := false; errors := [msgNotText] |}
  else if List.length (trim abcString) =? 0 then
    {| isValid := false; errors := [msgInputEmpty] |}
  else
    let abcValidation := validate abcString in
    abcValidation.

Record Options := mkOptions {
  optimize : bool
}.

Record ConversionMetadata := mkConversionMetadata {
  cmTitle : str;
  cmKey : str;
  cmTempo : JS.number Z;
  cmMeter : str;
  noteCount : nat;
  (** [Date.now() - startTime], in milliseconds *)
  cmDuration : Z
}.

Section WithEnvironment.

Variable numberToString : JS.number Q -> str.
Variable Buffer : Type.
Variable writer : list Track -> Buffer + str.

(** [validateMusicStructure] for the result of [parse], which always has
    its header and an array as body: the first two tests cannot fire. *)
Definition validateMusicStructure (parsedMusic : ParsedMusic) : Validation :=
  let errors : list str := [] in
  let errors :=
    match body parsedMusic with
    | [] => errors ++ [msgNoNotesInMusic]
    | _ :: _ => errors
    end in
  let errors :=
    match body parsedMusic with
    | [] => errors
    | _ :: _ =>
        let midiValidation :=
          validateMidiNotes numberToString (body parsedMusic) in
        if negb (isValid midiValidation)
        then errors ++ ABCParser.errors midiValidation
        else errors
    end in
  {| isValid := List.length errors =? 0; errors := errors |}.

(** The results of the three converting methods, without their time
    stamps. *)
Inductive ConversionResult :=
| Rejected (error : str) (details : list str)
| Crashed (error : str) (details : str)
| Converted (midiBuffer : Buffer) (metadata : ConversionMetadata).

Definition success (c : ConversionResult) : bool :=
  match c with
  | Converted _ _ => true
  | _ => false
  end.

(** [convert]: the result and the [conversionHistory] after the call.
    [elapsed] is what the clock gives for [Date.now() - startTime]. *)
Definition convert (conversionHistory : list ConversionResult)
  (abcString : str) (options : Options) (elapsed : Z)
  : ConversionResult * list ConversionResult :=
  let validation := validateInput abcString in
  if negb (isValid validation) then
    (Rejected msgInvalidInput (errors validation), conversionHistory)
  else
    let parsedMusic := parse abcString in
    let musicValidation := validateMusicStructure parsedMusic in
    if negb (isValid musicValidation) then
      (Rejected msgInvalidStructure (errors musicValidation),
       conversionHistory)
    else
      match generate writer parsedMusic with
      | inr message =>
          (Crashed msgConversionError message, conversionHistory)
      | inl midiBuffer =>
          let optimizedMidi :=
            if optimize options then optimizeMidi midiBuffer
            else midiBuffer in
          let conversionResult :=
            Converted optimizedMidi
              {| cmTitle := title (header parsedMusic);
                 cmKey := key (header parsedMusic);
                 cmTempo := tempo (header parsedMusic);
                 cmMeter := meter (header parsedMusic);
                 noteCount := List.length (body parsedMusic);
                 cmDuration := elapsed |} in
          (conversionResult, conversionHistory ++ [conversionResult])
      end.

(** [convertMultiTrack] and [convertWithEffects] have no [try]: an error
    of the writer leaves them as it is ([inr]). *)
Record MultiTrackResult := mkMultiTrackResult {
  mtBuffer : Buffer;
  mtInstruments : list str;
  trackCount : nat;
  mtHeader : Header
}.

Definition convertMultiTrack (abcString : str) (instruments : list str)
  : MultiTrackResult + str :=
  let parsedMusic := parse abcString in
  match generateMultiTrack writer parsedMusic instruments with
  | inr message => inr message
  | inl midiBuffer =>
      inl {| mtBuffer := midiBuffer;
             mtInstruments := instruments;
             trackCount := List.length instruments;
             mtHeader := header parsedMusic |}
  end.

Record EffectsResult := mkEffectsResult {
  fxBuffer : Buffer;
  fxEffects : Effects;
  fxHeader : Header
}.

Definition convertWithEffects (abcString : str) (effects : Effects)
  : EffectsResult + str :=
  let parsedMusic := parse abcString in
  let track : Track := [] in
  let track := addEffects track effects in
  match generate writer parsedMusic with
  | inr message => inr message
  | inl midiBuffer =>
      inl {| fxBuffer := midiBuffer;
             fxEffects := effects;
             fxHeader := header parsedMusic |}
  end.

Record Stats := mkStats {
  totalConversions : nat;
  successfulConversions : nat;
  failedConversions : Z;
  successRate : Q;
  averageDuration : Q;
  lastConversion : option ConversionResult
}.

(** [c.metadata?.duration || 0] *)
Definition durationOf (c : ConversionResult) : Z :=
  match c with
  | Converted _ md => cmDuration md
  | _ => 0%Z
  end.

Definition getConversionStats (conversionHistory : list ConversionResult)
  : Stats :=
  let total := List.length conversionHistory in
  let successful := List.length (filter success conversionHistory) in
  let failed := (Z.of_nat total - Z.of_nat successful)%Z in
  let avgDuration :=
    if 0 <? total
    then (inject_Z (fold_left (fun sum c => (sum + durationOf c)%Z)
                      conversionHistory 0%Z)
          / inject_Z (Z.of_nat total))%Q
    else 0%Q in
  {| totalConversions := total;
     successfulConversions := successful;
     failedConversions := failed;
     successRate :=
       if 0 <? total
       then (inject_Z (Z.of_nat successful) / inject_Z (Z.of_nat total)
             * 100)%Q
       else 0%Q;
     averageDuration := avgDuration;
     lastConversion := nth_error conversionHistory (total - 1) |}.

Definition clearHistory (conversionHistory : list ConversionResult)
  : list ConversionResult := [].

(** [getConversionDetails] for an integer index; [None] is null. *)
Definition getConversionDetails (conversionHistory : list ConversionResult)
  (conversionIndex : Z) : option ConversionResult :=
  if ((conversionIndex >=? 0)
      && (conversionIndex <? Z.of_nat (List.length conversionHistory)))%Z
  then nth_error conversionHistory (Z.to_nat conversionIndex)
  else None.

(** The calls that reach [conversionHistory]. *)
Inductive Call :=
| CallConvert (abcString : str) (options : Options) (elapsed : Z)
| CallConvertMultiTrack (abcString : str) (instruments : list str)
| CallConvertWithEffects (abcString : str) (effects : Effects)
| CallClearHistory.

Definition historyAfter (conversionHistory : list ConversionResult)
  (c : Call) : list ConversionResult :=
  match c with
  | CallConvert abcString options elapsed =>
      snd (convert conversionHistory abcString options elapsed)
  | CallConvertMultiTrack _ _ => conversionHistory
  | CallConvertWithEffects _ _ => conversionHistory
  | CallClearHistory => clearHistory conversionHistory
  end.

(** The history of a converter after a sequence of calls, starting from
    the constructor's empty one. *)
Definition historyOf (calls : list Call) : list ConversionResult :=
  fold_left historyAfter calls [].

End WithEnvironment.

End Converter.

(* ------------------------------------------------------------------ *)
(** ** public/script.js: the check of the page before it submits *)

Module ClientScript.

Import JS ABCParser.

Definition msgClientNoNotes : str := lit "No se encontraron notas válidas".

Definition validateABC (abcString : str) : Validation :=
  let errors : list str := [] in
  if List.length (trim abcString) =? 0 then
    {| isValid := false; errors := [msgEmpty] |}
  else
    let errors :=
      if negb (includes abcString (lit "K:")) then errors ++ [msgNoKey]
      else errors in
    let errors :=
      if negb (includes abcString (lit "M:")) then errors ++ [msgNoMeter]
      else errors in
    let hasNotes := existsb isNoteLetter abcString in
    let errors :=
      if negb hasNotes then errors ++ [msgClientNoNotes] else errors in
    {| isValid := List.length errors =? 0; errors := errors |}.

End ClientScript.

(* ------------------------------------------------------------------ *)
(** ** Counting, for the statements about the scanner *)

Module Counting.

Import JS ABCParser.

(** How often the unit [c] occurs in [s]. *)
Definition occurrences (c : char) (s : str) : nat :=
  List.length (filter (fun x => (x =? c)%N) s).

(** How many letters of A-G and a-g [s] holds. *)
Definition letters (s : str) : nat := List.length (filter isNoteLetter s).

(** How many octave marks (commas and apostrophes) [s] holds. *)
Definition marks (s : str) : nat := List.length (filter isOctaveMark s).

(** The characters of a printed integer: digits and the minus sign. *)
Definition plain (c : N) : Prop := (48 <= c <= 57)%N \/ c = 45%N.

End Counting.

Unset Implicit Arguments.

(* ------------------------------------------------------------------ *)
(** ** Facts about the rounding of numbers *)

Module NumberFacts.

Import JS.

Lemma size_bounds (n : N) :
  (n <> 0 -> 2 ^ (N.size n - 1) <= n < 2 ^ N.size n)%N.
Proof.
  intros Hn. rewrite (N.size_log2 n Hn).
  replace (N.succ (N.log2 n) - 1)%N with (N.log2 n) by lia.
  apply N.log2_spec. lia.
Qed.

Lemma binary64_exact (n : N) : (n <= 2 ^ 53)%N -> binary64 n = Finite n.
Proof.
  intros Hn. destruct (N.eq_dec n (2 ^ 53)) as [->|Hne]; [reflexivity|].
  unfold binary64.
  destruct (N.size n <=? 53)%N eqn:E; [reflexivity|].
  apply N.leb_gt in E. exfalso.
  assert (n <> 0%N) by (intros ->; cbn in E; lia).
  pose proof (size_bounds n H) as [Hlo _].
  assert (2 ^ 53 <= 2 ^ (N.size n - 1))%N by (apply N.pow_le_mono_r; lia).
  lia.
Qed.

(** The shape of a number of more than 53 bits: a 53 bit quotient and a
    remainder below the unit. *)
Lemma binary64_split (n : N) :
  (53 < N.size n)%N ->
  let e := (N.size n - 53)%N in
  (n = n / 2 ^ e * 2 ^ e + n mod 2 ^ e /\
   n mod 2 ^ e < 2 ^ e /\
   2 ^ 52 <= n / 2 ^ e < 2 ^ 53 /\
   2 ^ e = 2 * 2 ^ (e - 1) /\
   2 ^ (N.size n - 1) = 2 ^ 52 * 2 ^ e)%N.
Proof.
  intros Hs e.
  assert (Hn : n <> 0%N) by (intros ->; cbn in Hs; lia).
  pose proof (size_bounds n Hn) as [Hlo Hhi].
  assert (Hpos : (2 ^ e <> 0)%N) by (apply N.pow_nonzero; lia).
  assert (Hmul : (2 ^ (N.size n - 1) = 2 ^ 52 * 2 ^ e)%N).
  { rewrite <- N.pow_add_r. f_equal. unfold e. lia. }
  assert (Hmul' : (2 ^ N.size n = 2 ^ 53 * 2 ^ e)%N).
  { rewrite <- N.pow_add_r. f_equal. unfold e. lia. }
  assert (He : (2 ^ e = 2 * 2 ^ (e - 1))%N).
  { replace e with (N.succ (e - 1)) at 1 by (unfold e; lia).
    apply N.pow_succ_r'. }
  pose proof (N.div_mod n (2 ^ e) Hpos) as Hdm.
  pose proof (N.mod_lt n (2 ^ e) Hpos) as Hr.
  repeat split; try assumption.
  - lia.
  - apply N.div_le_lower_bound; [assumption|]. lia.
  - apply N.Div0.div_lt_upper_bound. lia.
Qed.

(** What [binary64] computes for a number of more than 53 bits. *)
Lemma binary64_large (n : N) :
  (53 < N.size n)%N ->
  exists e q r h v : N,
    (e = N.size n - 53 /\ n = q * 2 ^ e + r /\ r < 2 ^ e /\
     2 ^ 52 <= q < 2 ^ 53 /\ 2 ^ e = 2 * h /\
     2 ^ (N.size n - 1) = 2 ^ 52 * 2 ^ e /\
     (v = q * 2 ^ e /\ (r < h \/ r = h /\ N.odd q = false) \/
      v = (q + 1) * 2 ^ e /\ (h < r \/ r = h /\ N.odd q = true)))%N /\
    binary64 n = if (v <? 2 ^ 1024)%N then Finite v else Infinity false.
Proof.
  intros Hs. pose proof (binary64_split n Hs) as (Hdm & Hr & Hq & He & Hsz).
  set (e := (N.size n - 53)%N) in *.
  exists e, (n / 2 ^ e)%N, (n mod 2 ^ e)%N, (2 ^ (e - 1))%N.
  unfold binary64. fold e.
  destruct (N.size n <=? 53)%N eqn:E; [apply N.leb_le in E; lia|].
  set (q := (n / 2 ^ e)%N) in *. set (r := (n mod 2 ^ e)%N) in *.
  set (h := (2 ^ (e - 1))%N) in *.
  destruct ((h <? r) || (r =? h) && N.odd q)%N eqn:Up.
  - exists ((q + 1) * 2 ^ e)%N. split; [|reflexivity].
    repeat split; try assumption; try lia.
    right. split; [reflexivity|].
    apply orb_true_iff in Up. destruct Up as [Up|Up].
    + apply N.ltb_lt in Up. now left.
    + apply andb_true_iff in Up. destruct Up as [Up1 Up2].
      apply N.eqb_eq in Up1. now right.
  - exists (q * 2 ^ e)%N. split; [|reflexivity].
    repeat split; try assumption; try lia.
    left. split; [reflexivity|].
    apply orb_false_iff in Up. destruct Up as [Up1 Up2].
    apply N.ltb_ge in Up1.
    apply andb_false_iff in Up2. destruct Up2 as [Up2|Up2].
    + apply N.eqb_neq in Up2. left. lia.
    + destruct (N.eq_dec r h); [now right | left; lia].
Qed.

(** Rounding keeps the value within a relative error of 2^-53. *)
Lemma binary64_error (n v : N) :
  binary64 n = Finite v ->
  (2 ^ 53 * (v - n) <= n /\ 2 ^ 53 * (n - v) <= n)%N.
Proof.
  intros H. destruct (N.leb_spec (N.size n) 53) as [Hs|Hs].
  - unfold binary64 in H. apply N.leb_le in Hs. rewrite Hs in H.
    injection H as <-. rewrite N.sub_diag. lia.
  - destruct (binary64_large n Hs)
      as (e & q & r & h & w & (_ & Hn & Hr & Hq & He & _ & Hw) & Hb).
    rewrite Hb in H. destruct (w <? 2 ^ 1024)%N; [|discriminate H].
    injection H as <-.
    remember (2 ^ e)%N as P. remember (q * P)%N as X.
    assert (HX : (2 ^ 52 * P <= X)%N) by (subst X; nia).
    destruct Hw as [[-> Hc]|[-> Hc]].
    + lia.
    + replace ((q + 1) * P)%N with (X + P)%N by lia. lia.
Qed.

(** Rounding overflows from [2^1024 - 2^970] on, and only there. *)
Lemma binary64_infinite (n : N) (s : bool) :
  binary64 n = Infinity s <-> s = false /\ (2 ^ 1024 - 2 ^ 970 <= n)%N.
Proof.
  destruct (N.leb_spec (N.size n) 53) as [Hs|Hs].
  - assert (Hn : (n < 2 ^ 53)%N).
    { pose proof (N.size_gt n).
      assert (2 ^ N.size n <= 2 ^ 53)%N by (apply N.pow_le_mono_r; lia). lia. }
    rewrite binary64_exact by lia. split; [discriminate|].
    intros [_ H]. exfalso.
    assert (2 ^ 53 < 2 ^ 1024 - 2 ^ 970)%N by (vm_compute; reflexivity). lia.
  - destruct (binary64_large n Hs)
      as (e & q & r & h & w & (Ee & Hn & Hr & Hq & He & Hsz & Hw) & Hb).
    rewrite Hb. clear Hb.
    assert (Hnz : n <> 0%N) by (intros ->; cbn in Hs; lia).
    pose proof (size_bounds n Hnz) as [Hlo Hhi].
    remember (2 ^ e)%N as P.
    destruct (N.lt_trichotomy (N.size n) 1024) as [Hlt|[Heq|Hgt]].
    + (* fewer than 1024 bits *)
      assert (HP : (2 ^ N.size n <= 2 ^ 1023)%N)
        by (apply N.pow_le_mono_r; lia).
      assert (H2 : (2 ^ N.size n = 2 ^ 53 * P)%N).
      { subst P e. rewrite <- N.pow_add_r. f_equal. lia. }
      assert (Hw' : (w <= 2 ^ 53 * P)%N)
        by (destruct Hw as [[-> _]|[-> _]]; nia).
      assert (Hc1 : (2 ^ 1023 < 2 ^ 1024 - 2 ^ 970)%N)
        by (vm_compute; reflexivity).
      assert (Hc2 : (2 ^ 1023 < 2 ^ 1024)%N) by (vm_compute; reflexivity).
      destruct (N.ltb_spec w (2 ^ 1024)); [|lia].
      split; [discriminate|]. intros [_ H']. lia.
    + (* exactly 1024 bits *)
      assert (HPv : P = (2 ^ 971)%N) by (rewrite HeqP; f_equal; lia).
      assert (Hh : h = (2 ^ 970)%N).
      { assert (2 ^ 971 = 2 * 2 ^ 970)%N by (vm_compute; reflexivity). lia. }
      assert (Hc : (2 ^ 1024 = 2 ^ 53 * 2 ^ 971)%N)
        by (vm_compute; reflexivity).
      assert (Hc' : (2 ^ 971 = 2 * 2 ^ 970)%N) by (vm_compute; reflexivity).
      remember (2 ^ 970)%N as H970. remember (2 ^ 971)%N as H971.
      remember (2 ^ 1024)%N as H1024.
      destruct (N.eq_dec q (2 ^ 53 - 1)) as [Hqe|Hqn].
      * assert (Hodd : N.odd q = true) by (rewrite Hqe; reflexivity).
        destruct Hw as [[-> Hc0]|[-> Hc0]].
        -- destruct (N.ltb_spec (q * P) H1024) as [Hl|Hl]; [|nia].
           split; [discriminate|]. intros [_ H'].
           destruct Hc0 as [Hc0|[_ Hc0]]; [|congruence]. nia.
        -- destruct (N.ltb_spec ((q + 1) * P) H1024) as [Hl|Hl]; [nia|].
           split; [|intros [-> _]; reflexivity].
           intros [= <-]. split; [reflexivity|]. nia.
      * assert (Hq' : (q + 1 <= 2 ^ 53 - 1)%N) by lia.
        assert (Hw' : (w <= (q + 1) * P)%N)
          by (destruct Hw as [[-> _]|[-> _]]; nia).
        assert (Hb1 : ((q + 1) * P <= (2 ^ 53 - 1) * P)%N)
          by (apply N.mul_le_mono_r; exact Hq').
        destruct (N.ltb_spec w H1024) as [Hl|Hl]; [|nia].
        split; [discriminate|]. intros [_ H']. nia.
    + (* more than 1024 bits *)
      assert (HP : (2 ^ 1024 <= 2 ^ (N.size n - 1))%N)
        by (apply N.pow_le_mono_r; lia).
      assert (Hw' : (2 ^ 52 * P <= w)%N).
      { destruct Hw as [[-> _]|[-> _]]; apply N.mul_le_mono_r; lia. }
      destruct (N.ltb_spec w (2 ^ 1024)); [lia|].
      split; [|intros [-> _]; reflexivity].
      intros [= <-]. split; [reflexivity|]. lia.
Qed.

(** A finite result is a binary64 value, and no binary64 value is nearer
    to the number that was rounded. *)
Lemma binary64_nearest (n v : N) :
  binary64 n = Finite v ->
  representable v /\
  forall w, representable w -> (distance v n <= distance w n)%N.
Proof.
  intros H. destruct (N.leb_spec (N.size n) 53) as [Hs|Hs].
  - assert (Hn : (n < 2 ^ 53)%N).
    { pose proof (N.size_gt n).
      assert (2 ^ N.size n <= 2 ^ 53)%N by (apply N.pow_le_mono_r; lia). lia. }
    rewrite binary64_exact in H by lia. injection H as <-. split.
    + exists n, 0%N. repeat split; [cbn; lia | exact Hn |].
      assert (2 ^ 53 < 2 ^ 1024)%N by (vm_compute; reflexivity). lia.
    + intros w _. unfold distance. lia.
  - destruct (binary64_large n Hs)
      as (e & q & r & h & v' & (Ee & Hn & Hr & Hq & He & Hsz & Hv) & Hb).
    rewrite Hb in H.
    destruct (N.ltb_spec v' (2 ^ 1024)) as [Hfin|]; [|discriminate H].
    injection H as <-.
    remember (2 ^ e)%N as P.
    assert (Hd : (distance v' n <= r /\ distance v' n <= P - r)%N).
    { unfold distance. destruct Hv as [[-> Hc]|[-> Hc]]; nia. }
    split.
    + destruct (N.eq_dec v' (2 ^ 53 * P)) as [Hmax|Hmax].
      * exists (2 ^ 52)%N, (e + 1)%N. split; [|split; [|exact Hfin]].
        -- rewrite N.pow_add_r, <- HeqP. change (2 ^ 1)%N with 2%N.
           rewrite Hmax. change (2 ^ 53)%N with (2 ^ 52 * 2)%N. lia.
        -- vm_compute. reflexivity.
      * destruct Hv as [[-> Hc]|[-> Hc]].
        -- exists q, e. rewrite <- HeqP. repeat split; [lia | exact Hfin].
        -- exists (q + 1)%N, e. rewrite <- HeqP.
           repeat split; [|exact Hfin].
           destruct (N.eq_dec (q + 1) (2 ^ 53)) as [E|E]; [|lia].
           exfalso. apply Hmax. now rewrite E.
    + intros w (m & f & Hw & Hm & _).
      destruct (N.le_gt_cases e f) as [Hef|Hef].
      * (* a multiple of the unit *)
        assert (Hk : exists k, w = (k * P)%N).
        { exists (m * 2 ^ (f - e))%N. rewrite Hw, HeqP, <- N.mul_assoc.
          rewrite <- N.pow_add_r. do 2 f_equal. lia. }
        destruct Hk as [k ->].
        destruct (N.le_gt_cases k q) as [Hk|Hk].
        -- assert (k * P <= q * P)%N by (apply N.mul_le_mono_r; exact Hk).
           unfold distance in *. lia.
        -- assert ((q + 1) * P <= k * P)%N by (apply N.mul_le_mono_r; lia).
           unfold distance in *. lia.
      * (* below the smallest number of this size *)
        assert (Hf : (2 ^ f <= h)%N).
        { assert (Hh : h = (2 ^ (e - 1))%N).
          { assert (2 ^ e = 2 * 2 ^ (e - 1))%N.
            { replace e with (N.succ (e - 1)) at 1 by lia.
              apply N.pow_succ_r'. }
            lia. }
          rewrite Hh. apply N.pow_le_mono_r; lia. }
        assert (Hwlt : (w <= 2 ^ 53 * h)%N).
        { rewrite Hw. apply N.mul_le_mono; lia. }
        assert (HqP : (2 ^ 52 * P <= q * P)%N)
          by (apply N.mul_le_mono_r; lia).
        unfold distance in *. lia.
Qed.

(** Between two binary64 values at the same distance the result is the one
    with the even significand. *)
Lemma binary64_tie (n v w : N) :
  binary64 n = Finite v -> representable w -> w <> v ->
  distance w n = distance v n ->
  exists k, v = (2 * k * 2 ^ (N.size n - 53))%N.
Proof.
  intros H Hw Hne Hd. destruct (N.leb_spec (N.size n) 53) as [Hs|Hs].
  - assert (Hn : (n < 2 ^ 53)%N).
    { pose proof (N.size_gt n).
      assert (2 ^ N.size n <= 2 ^ 53)%N by (apply N.pow_le_mono_r; lia). lia. }
    rewrite binary64_exact in H by lia. injection H as <-.
    exfalso. unfold distance in Hd. lia.
  - destruct (binary64_large n Hs)
      as (e & q & r & h & v' & (Ee & Hn & Hr & Hq & He & Hsz & Hv) & Hb).
    rewrite Hb in H.
    destruct (N.ltb_spec v' (2 ^ 1024)) as [Hfin|]; [|discriminate H].
    injection H as <-. rewrite <- Ee.
    remember (2 ^ e)%N as P.
    destruct Hw as (m & f & Hw & Hm & _).
    assert (Heven : forall x, N.odd x = false -> exists k, x = (2 * k)%N).
    { intros x Hx. rewrite <- N.negb_even in Hx.
      apply negb_false_iff, N.even_spec in Hx. exact Hx. }
    assert (Hodd : forall x, N.odd x = true -> exists k, (x + 1 = 2 * k)%N).
    { intros x Hx. apply N.odd_spec in Hx. destruct Hx as [k ->].
      exists (k + 1)%N. lia. }
    destruct (N.le_gt_cases e f) as [Hef|Hef].
    + assert (Hk : exists k, w = (k * P)%N).
      { exists (m * 2 ^ (f - e))%N. rewrite Hw, HeqP, <- N.mul_assoc.
        rewrite <- N.pow_add_r. do 2 f_equal. lia. }
      destruct Hk as [k ->].
      assert (Hcases : (k * P <= q * P \/ (q + 1) * P <= k * P)%N).
      { destruct (N.le_gt_cases k q) as [Hk|Hk];
          [left | right]; apply N.mul_le_mono_r; lia. }
      assert (Hmono : forall a b, (a * P < b * P -> a < b)%N).
      { intros a b Hab. apply N.mul_lt_mono_pos_r in Hab; [exact Hab|lia]. }
      destruct Hv as [[-> Hc]|[-> Hc]].
      * assert (Hrh : r = h /\ N.odd q = false).
        { destruct Hc as [Hc|Hc]; [|exact Hc]. exfalso.
          unfold distance in Hd. destruct Hcases as [Hl|Hl]; [|lia].
          assert (k * P <> q * P)%N by exact Hne. lia. }
        destruct (Heven q (proj2 Hrh)) as [k' ->]. now exists k'.
      * assert (Hrh : r = h /\ N.odd q = true).
        { destruct Hc as [Hc|Hc]; [|exact Hc]. exfalso.
          unfold distance in Hd. destruct Hcases as [Hl|Hl]; [lia|].
          assert (k * P <> (q + 1) * P)%N by exact Hne. lia. }
        destruct (Hodd q (proj2 Hrh)) as [k' ->]. now exists k'.
    + exfalso.
      assert (Hf : (2 ^ f <= h)%N).
      { assert (Hh : h = (2 ^ (e - 1))%N).
        { assert (2 ^ e = 2 * 2 ^ (e - 1))%N.
          { replace e with (N.succ (e - 1)) at 1 by lia.
            apply N.pow_succ_r'. }
          lia. }
        rewrite Hh. apply N.pow_le_mono_r; lia. }
      assert (Hwlt : (w < 2 ^ 53 * h)%N).
      { rewrite Hw.
        assert (m * 2 ^ f <= m * h)%N by (apply N.mul_le_mono_l; exact Hf).
        assert (m * h < 2 ^ 53 * h)%N by (apply N.mul_lt_mono_pos_r; lia).
        lia. }
      assert (HqP : (2 ^ 52 * P <= q * P)%N)
        by (apply N.mul_le_mono_r; lia).
      unfold distance in Hd. destruct Hv as [[-> Hc]|[-> Hc]]; lia.
Qed.

(** Only zero rounds to zero. *)
Lemma binary64_zero (n : N) : binary64 n = Finite 0%N <-> n = 0%N.
Proof.
  split; [|intros ->; reflexivity].
  intros H. apply binary64_error in H. lia.
Qed.

(** The test [d <= 0] and its two outcomes. *)
Lemma leZero_iff (d : number Q) : leZero d = true <-> atMostZero d.
Proof.
  destruct d as [q|s]; cbn [leZero atMostZero]; [apply Qle_bool_iff | tauto].
Qed.

Lemma aboveZero_not_atMostZero (d : number Q) :
  aboveZero d -> atMostZero d -> False.
Proof.
  destruct d as [q|s]; cbn [aboveZero atMostZero].
  - intros H1 H2. exact (Qlt_not_le _ _ H1 H2).
  - congruence.
Qed.

Lemma aboveZero_or_atMostZero (d : number Q) :
  {aboveZero d} + {atMostZero d}.
Proof.
  destruct d as [q|s]; cbn [aboveZero atMostZero].
  - apply Qlt_le_dec.
  - destruct s; [right | left]; reflexivity.
Qed.

Lemma signed_exact (neg : bool) (m : N) :
  (m <= 2 ^ 53)%N ->
  signed neg m = Finite (if neg then (- Z.of_N m)%Z else Z.of_N m).
Proof. intros H. unfold signed. now rewrite (binary64_exact m H). Qed.

(** The Number of a natural number: the number itself up to 2^53,
    Infinity exactly from [2^1024 - 2^970] on, and otherwise a binary64
    value that no other is nearer to the number. *)
Lemma signed_rounded (m : N) :
  ((m <= 2 ^ 53)%N -> signed false m = Finite (Z.of_N m)) /\
  (signed false m = Infinity false <-> (2 ^ 1024 - 2 ^ 970 <= m)%N) /\
  (forall z, signed false m = Finite z ->
     exists v, z = Z.of_N v /\ representable v /\
       forall w, representable w -> (distance v m <= distance w m)%N).
Proof.
  split; [apply (signed_exact false)|]. unfold signed. split.
  - destruct (binary64 m) as [v|s] eqn:E.
    + split; [discriminate|]. intros H.
      assert (Hi : binary64 m = Infinity false)
        by (apply binary64_infinite; split; [reflexivity|exact H]).
      congruence.
    + apply binary64_infinite in E. destruct E as [_ E]. tauto.
  - intros z. destruct (binary64 m) as [v|s] eqn:E; [|discriminate].
    intros H. injection H as <-. exists v. split; [reflexivity|].
    now apply binary64_nearest.
Qed.

Lemma parseFloatDigits_exact (ds : str) :
  (digitsValue ds <= 2 ^ 53)%N ->
  parseFloatDigits ds = Finite (inject_Z (Z.of_N (digitsValue ds))).
Proof. intros H. unfold parseFloatDigits. now rewrite (binary64_exact _ H). Qed.

End NumberFacts.

(* ------------------------------------------------------------------ *)
(** ** Facts about the string operations *)

Module JSFacts.

Import JS.

Lemma takeWhile_dropWhile (p : char -> bool) (s : str) :
  takeWhile p s ++ dropWhile p s = s.
Proof.
  induction s as [|c r IH]; simpl; [reflexivity|].
  destruct (p c); simpl; [now rewrite IH | reflexivity].
Qed.

Lemma takeWhile_all (p : char -> bool) (s : str) :
  forallb p (takeWhile p s) = true.
Proof.
  induction s as [|c r IH]; simpl; [reflexivity|].
  destruct (p c) eqn:E; simpl; [now rewrite E | reflexivity].
Qed.

Lemma dropWhile_length (p : char -> bool) (s : str) :
  List.length (dropWhile p s) <= List.length s.
Proof.
  induction s as [|c r IH]; simpl; [lia|].
  destruct (p c); simpl; lia.
Qed.

Lemma eqb_true_iff (a b : str) : eqb a b = true <-> a = b.
Proof.
  unfold eqb. destruct (list_eq_dec N.eq_dec a b); split; congruence.
Qed.

Lemma eqb_nil (a : str) : eqb a [] = match a with [] => true | _ => false end.
Proof.
  unfold eqb. destruct (list_eq_dec N.eq_dec a []) as [->|H].
  - reflexivity.
  - destruct a; [contradiction | reflexivity].
Qed.



Lemma takeWhile_id (p : char -> bool) (s : str) :
  forallb p s = true -> takeWhile p s = s.
Proof.
  induction s as [|c r IH]; simpl; [reflexivity|].
  intros H. apply andb_true_iff in H as [Hc Hr].
  now rewrite Hc, IH.
Qed.

(** [parseInt] of a run of decimal digits is the Number of its decimal
    value. *)
Lemma parseInt_digits (ds : str) :
  forallb isDigit ds = true -> ds <> [] ->
  parseInt ds = Some (signed false (digitsValue ds)).
Proof.
  intros Hd Hne. destruct ds as [|d ds]; [congruence|].
  pose proof (takeWhile_id isDigit (d :: ds) Hd) as Htw.
  simpl in Hd. apply andb_true_iff in Hd as [Hd Hds].
  assert (Hd' := Hd). unfold isDigit in Hd'.
  apply andb_true_iff in Hd' as [H1 H2]. apply N.leb_le in H1, H2.
  assert (Hsp : isSpace d = false).
  { unfold isSpace.
    repeat match goal with
    | |- context [(?a <=? ?b)%N] =>
        destruct (N.leb_spec a b); try lia
    | |- context [(?a =? ?b)%N] =>
        destruct (N.eqb_spec a b); try lia
    end; reflexivity. }
  unfold parseInt, trimStart. cbn [dropWhile]. rewrite Hsp.
  destruct (N.eqb_spec d 45); [lia|]. destruct (N.eqb_spec d 43); [lia|].
  destruct ds as [|x ds'].
  - rewrite Htw. reflexivity.
  - assert (Hx : ((x =? 120) || (x =? 88))%N = false).
    { simpl in Hds. apply andb_true_iff in Hds as [Hx _].
      unfold isDigit in Hx. apply andb_true_iff in Hx as [Hx1 Hx2].
      apply N.leb_le in Hx1, Hx2.
      destruct (N.eqb_spec x 120); [lia|].
      destruct (N.eqb_spec x 88); [lia|]. reflexivity. }
    rewrite Hx, andb_false_r. rewrite Htw. reflexivity.
Qed.

End JSFacts.

(* ------------------------------------------------------------------ *)
(** ** The note scanner *)

Module Scanner.

Import JS ABCParser JSFacts.

Lemma exec_shorter (s : str) (m : Groups) (r : str) :
  exec s = Some (m, r) -> List.length r < List.length s.
Proof.
  induction s as [|c t IH]; simpl; [discriminate|].
  destruct (isNoteLetter c).
  - intros H. injection H as _ <-.
    pose proof (dropWhile_length notOctaveMark t).
    pose proof (dropWhile_length isOctaveMark (dropWhile notOctaveMark t)).
    pose proof (dropWhile_length isDigit
                  (dropWhile isOctaveMark (dropWhile notOctaveMark t))).
    lia.
  - intros H. apply IH in H. lia.
Qed.

Lemma parseBodyLoop_acc (fuel : nat) (s : str) (acc : list Note) :
  parseBodyLoop fuel s acc = acc ++ parseBodyLoop fuel s [].
Proof.
  revert s acc. induction fuel as [|f IH]; intros s acc; simpl.
  - now rewrite app_nil_r.
  - destruct (exec s) as [[m r]|]; [|now rewrite app_nil_r].
    rewrite (IH r (acc ++ [noteOfMatch m])), (IH r [noteOfMatch m]).
    now rewrite <- app_assoc.
Qed.

(** More fuel than the text is long is always enough. *)
Lemma parseBodyLoop_fuel (f1 f2 : nat) (s : str) :
  List.length s < f1 -> List.length s < f2 ->
  parseBodyLoop f1 s [] = parseBodyLoop f2 s [].
Proof.
  revert f2 s. induction f1 as [|f1 IH]; intros f2 s H1 H2; [lia|].
  destruct f2 as [|f2]; [lia|]. simpl.
  destruct (exec s) as [[m r]|] eqn:E; [|reflexivity].
  apply exec_shorter in E.
  rewrite (parseBodyLoop_acc f1), (parseBodyLoop_acc f2).
  f_equal. apply IH; lia.
Qed.

(** The loop, one round unfolded: the fuel of [scanNotes] never runs out. *)
Lemma scanNotes_step (s : str) :
  scanNotes s =
  match exec s with
  | None => []
  | Some (m, r) => noteOfMatch m :: scanNotes r
  end.
Proof.
  unfold scanNotes.
  change (parseBodyLoop (S (List.length s)) s [])
    with (match exec s with
          | None => []
          | Some (m, r) => parseBodyLoop (List.length s) r [noteOfMatch m]
          end).
  destruct (exec s) as [[m r]|] eqn:E; [|reflexivity].
  rewrite parseBodyLoop_acc. cbn [app]. f_equal.
  apply exec_shorter in E. apply parseBodyLoop_fuel; lia.
Qed.

Lemma exec_wellFormed (s : str) (m : Groups) (r : str) :
  exec s = Some (m, r) -> wellFormed m.
Proof.
  induction s as [|c t IH]; simpl; [discriminate|].
  destruct (isNoteLetter c) eqn:E; [|exact IH].
  intros H. injection H as <- _. unfold wellFormed; simpl.
  repeat split; auto using takeWhile_all.
Qed.

(** Every note of the scan comes from one well-formed match. *)
Lemma scanNotes_In (s : str) (n : Note) :
  In n (scanNotes s) -> exists m, wellFormed m /\ n = noteOfMatch m.
Proof.
  remember (List.length s) as k eqn:Hk. revert s Hk.
  induction k as [k IH] using lt_wf_ind. intros s Hk.
  rewrite scanNotes_step. destruct (exec s) as [[m r]|] eqn:E; [|intros []].
  intros [<-|Hin].
  - exists m. split; [eapply exec_wellFormed; eauto | reflexivity].
  - apply exec_shorter in E. eapply (IH (List.length r)); eauto. lia.
Qed.

Lemma parse_body_In (abcString : str) (n : Note) :
  In n (body (parse abcString)) ->
  exists m, wellFormed m /\ n = noteOfMatch m.
Proof. unfold parse, parseBody; simpl. apply scanNotes_In. Qed.

End Scanner.

(* ------------------------------------------------------------------ *)
(** ** The header scan *)

Module HeaderFacts.

Import JS ABCParser HeaderSpec JSFacts.

Lemma lastOf_cons_default (A : Type) (d v : A) (xs : list A) :
  match lastOf (v :: xs) with Some y => y | None => d end =
  match lastOf xs with Some y => y | None => v end.
Proof. simpl. destruct (lastOf xs); reflexivity. Qed.

Lemma fieldOf_hit (A : Type) (d : A) (read : str -> A) (tag l : str)
  (block : list str) :
  startsWith (trim l) tag = true ->
  fieldOf d read tag (l :: block) =
  fieldOf (read (substring 2 (trim l))) read tag block.
Proof.
  intros H. unfold fieldOf, tagged. simpl. rewrite H. simpl.
  destruct (lastOf _); reflexivity.
Qed.

Lemma fieldOf_miss (A : Type) (d : A) (read : str -> A) (tag l : str)
  (block : list str) :
  startsWith (trim l) tag = false ->
  fieldOf d read tag (l :: block) = fieldOf d read tag block.
Proof. intros H. unfold fieldOf, tagged. simpl. now rewrite H. Qed.




(** One round of the loop on a header line keeps scanning and leaves
    [lineCount] alone; on any other line it stops and records the index. *)
Lemma parseHeaderFrom_continue (l : str) (rest : list str) (i : nat)
  (h : Header) :
  isHeaderLine l = true ->
  exists h', parseHeaderFrom i (l :: rest) h = parseHeaderFrom (S i) rest h'
             /\ lineCount h' = lineCount h.
Proof.
  unfold isHeaderLine. cbn [parseHeaderFrom]. cbv zeta.
  destruct (startsWith (trim l) (lit "X:")); [intros _; eexists; split; reflexivity|].
  destruct (startsWith (trim l) (lit "T:")); [intros _; eexists; split; reflexivity|].
  destruct (startsWith (trim l) (lit "K:")); [intros _; eexists; split; reflexivity|].
  destruct (startsWith (trim l) (lit "M:")); [intros _; eexists; split; reflexivity|].
  destruct (startsWith (trim l) (lit "Q:")); [intros _; eexists; split; reflexivity|].
  destruct (startsWith (trim l) (lit "L:")); [intros _; eexists; split; reflexivity|].
  cbn [orb]. intros ->. eexists; split; reflexivity.
Qed.

Lemma parseHeaderFrom_break (l : str) (rest : list str) (i : nat)
  (h : Header) :
  isHeaderLine l = false ->
  parseHeaderFrom i (l :: rest) h = setLineCount i h.
Proof.
  unfold isHeaderLine. cbn [parseHeaderFrom]. cbv zeta.
  destruct (startsWith (trim l) (lit "X:")); [discriminate|].
  destruct (startsWith (trim l) (lit "T:")); [discriminate|].
  destruct (startsWith (trim l) (lit "K:")); [discriminate|].
  destruct (startsWith (trim l) (lit "M:")); [discriminate|].
  destruct (startsWith (trim l) (lit "Q:")); [discriminate|].
  destruct (startsWith (trim l) (lit "L:")); [discriminate|].
  cbn [orb]. intros ->. reflexivity.
Qed.

(** The boundary is the index of the first line that is not a header
    line ... *)
Lemma lineCount_first_body_line (pre : list str) (l : str) (post : list str)
  (i : nat) (h : Header) :
  forallb isHeaderLine pre = true -> isHeaderLine l = false ->
  lineCount (parseHeaderFrom i (pre ++ l :: post) h) = i + List.length pre.
Proof.
  revert i h. induction pre as [|p pre IH]; intros i h Hpre Hl.
  - cbn [app]. rewrite parseHeaderFrom_break by assumption. cbn. lia.
  - cbn [forallb] in Hpre. apply andb_true_iff in Hpre as [Hp Hpre].
    cbn [app].
    destruct (parseHeaderFrom_continue p (pre ++ l :: post) i h Hp)
      as [h' [-> _]].
    rewrite IH by assumption. cbn. lia.
Qed.

(** ... and stays at its initial value when every line is a header
    line. *)
Lemma lineCount_all_header_lines (lines : list str) (i : nat) (h : Header) :
  forallb isHeaderLine lines = true ->
  lineCount (parseHeaderFrom i lines h) = lineCount h.
Proof.
  revert i h. induction lines as [|p rest IH]; intros i h Hall.
  - reflexivity.
  - cbn [forallb] in Hall. apply andb_true_iff in Hall as [Hp Hall].
    destruct (parseHeaderFrom_continue p rest i h Hp) as [h' [-> E]].
    rewrite IH by assumption. exact E.
Qed.

(** *** parseTempo *)

Lemma tempoMatchAt_digits (s g3 : str) :
  tempoMatchAt s = Some g3 -> forallb isDigit g3 = true /\ g3 <> [].
Proof.
  unfold tempoMatchAt.
  destruct (takeWhile isDigit s); [discriminate|].
  destruct (dropWhile isDigit s) as [|c1 r1]; [discriminate|].
  destruct (c1 =? ch "/")%N; [|discriminate].
  destruct (takeWhile isDigit r1); [discriminate|].
  destruct (dropWhile isDigit r1) as [|c2 r2]; [discriminate|].
  destruct (c2 =? ch "=")%N; [|discriminate].
  destruct (takeWhile isDigit r2) as [|d ds] eqn:E; [discriminate|].
  intros H. injection H as <-. split; [|discriminate].
  rewrite <- E. apply takeWhile_all.
Qed.

Lemma tempoMatch_digits (s g3 : str) :
  tempoMatch s = Some g3 -> forallb isDigit g3 = true /\ g3 <> [].
Proof.
  induction s as [|c r IH]; cbn [tempoMatch].
  - destruct (tempoMatchAt []) eqn:E; [|discriminate].
    intros H. injection H as <-. now apply tempoMatchAt_digits in E.
  - destruct (tempoMatchAt (c :: r)) eqn:E; [|exact IH].
    intros H. injection H as <-. now apply tempoMatchAt_digits in E.
Qed.

(** With a match the tempo is the Number of the value of group 3. *)
Lemma parseTempo_match (s g3 : str) :
  tempoMatch s = Some g3 -> parseTempo s = signed false (digitsValue g3).
Proof.
  intros H. unfold parseTempo. rewrite H.
  destruct (tempoMatch_digits s g3 H) as [Hd Hne].
  now rewrite (parseInt_digits g3 Hd Hne).
Qed.

End HeaderFacts.

(* ------------------------------------------------------------------ *)
(** ** Properties of the parser *)

Import JS ABCParser HeaderSpec.

(** C1.  On the scale tune the header is read as stated (title
    "Test Escala", key "C", default tempo 120) and [validate] accepts the
    text, but the body holds one note, not eight: the negated class of
    group 2 swallows the seven letters after the first one. *)
Theorem parse_scale_one_note :
  body (parse Tunes.scale) =
    [ {| note := lit "C"; midiNote := 60; duration := Finite 1%Q;
         accidental := lit "DEFGABc"; octave := 4 |} ] /\
  List.length (body (parse Tunes.scale)) <> 8 /\
  title (header (parse Tunes.scale)) = lit "Test Escala" /\
  key (header (parse Tunes.scale)) = lit "C" /\
  tempo (header (parse Tunes.scale)) = Finite 120%Z /\
  validate Tunes.scale = {| isValid := true; errors := [] |}.
Proof. vm_compute. repeat split; try reflexivity. discriminate. Qed.

(** C2.  A letter directly followed by digits: group 2 takes the digits,
    group 4 stays empty and the duration is the default 1, not 2. *)
Theorem parse_letter_digits_default_duration :
  body (parse (lit "C2")) =
    [ {| note := lit "C"; midiNote := 60; duration := Finite 1%Q;
         accidental := lit "2"; octave := 4 |} ] /\
  map duration (body (parse (lit "C2"))) <> [Finite 2%Q] /\
  map duration (body (parse (lit "C,2"))) = [Finite 2%Q].
Proof. vm_compute. repeat split; try reflexivity. discriminate. Qed.

Lemma digits_behind_octave (t : str) :
  takeWhile isDigit (dropWhile isOctaveMark (dropWhile notOctaveMark t)) <> [] ->
  takeWhile isOctaveMark (dropWhile notOctaveMark t) <> [].
Proof.
  induction t as [|d t IHt]; simpl; [congruence|].
  destruct (notOctaveMark d) eqn:E; simpl.
  - exact IHt.
  - unfold notOctaveMark in E. apply negb_false_iff in E.
    rewrite E. discriminate.
Qed.

(** Digits reach group 4 only behind an octave mark. *)
Lemma exec_duration_needs_octave (s : str) (m : Groups) (r : str) :
  exec s = Some (m, r) -> gDuration m <> [] -> gOctave m <> [].
Proof.
  induction s as [|c t IH]; simpl; [discriminate|].
  destruct (isNoteLetter c); [|exact IH].
  intros H. injection H as <- _. simpl. apply digits_behind_octave.
Qed.

Lemma dropWhile_all (p : char -> bool) (s : str) :
  forallb p s = true -> dropWhile p s = [].
Proof.
  induction s as [|c r IH]; simpl; [reflexivity|].
  intros H. apply andb_true_iff in H as [Hc Hr]. now rewrite Hc, IH.
Qed.

Lemma includes_unit (s : str) (x : char) :
  includes s [x] = existsb (fun c => (c =? x)%N) s.
Proof.
  induction s as [|c r IH]; [reflexivity|].
  cbn [includes existsb startsWith]. rewrite IH.
  replace (startsWith r []) with true by now destruct r.
  now rewrite andb_true_r.
Qed.

Lemma scanNotes_nil : scanNotes [] = [].
Proof. reflexivity. Qed.

(** A stretch of text without comma and apostrophe holds at most one
    match: the first letter's group 2 runs to the end of it. *)
Lemma scanNotes_without_octave_marks (s : str) :
  forallb notOctaveMark s = true -> List.length (scanNotes s) <= 1.
Proof.
  intros Hs. rewrite Scanner.scanNotes_step.
  induction s as [|c r IH]; cbn [exec]; [cbn; lia|].
  cbn [forallb] in Hs. apply andb_true_iff in Hs as [_ Hr].
  destruct (isNoteLetter c); [|now apply IH].
  rewrite (dropWhile_all _ r Hr). cbn [dropWhile]. cbn. lia.
Qed.

(** A letter followed by digits and nothing else: one note, the digits in
    its accidental text, the duration 1. *)
Lemma parseBody_letter_digits (c : char) (ds : str) :
  isNoteLetter c = true -> forallb isDigit ds = true ->
  parseBody [c :: ds] =
  [ {| note := toUpperCase c; midiNote := baseNoteOf c; duration := Finite 1%Q;
       accidental := ds; octave := 4 |} ].
Proof.
  intros Hc Hd.
  assert (Hno : forallb notOctaveMark ds = true).
  { apply forallb_forall. intros d Hin.
    rewrite forallb_forall in Hd. specialize (Hd d Hin).
    unfold isDigit in Hd. apply andb_true_iff in Hd as [H1 H2].
    apply N.leb_le in H1, H2.
    unfold notOctaveMark, isOctaveMark, apostrophe.
    change (ch ",") with 44%N.
    destruct (N.eqb_spec d 44); [lia|]. destruct (N.eqb_spec d 39); [lia|].
    reflexivity. }
  assert (Hnot : forall x : char,
                   (x < 48 \/ 57 < x)%N -> includes ds [x] = false).
  { intros x Hx. rewrite includes_unit.
    destruct (existsb (fun c0 => (c0 =? x)%N) ds) eqn:E; [|reflexivity].
    apply existsb_exists in E. destruct E as [d [Hin E]].
    apply N.eqb_eq in E. subst d.
    rewrite forallb_forall in Hd. specialize (Hd x Hin).
    unfold isDigit in Hd. apply andb_true_iff in Hd as [H1 H2].
    apply N.leb_le in H1, H2. lia. }
  unfold parseBody. cbn [join]. rewrite Scanner.scanNotes_step.
  cbn [exec]. rewrite Hc.
  rewrite (JSFacts.takeWhile_id _ ds Hno), (dropWhile_all _ ds Hno).
  cbn [takeWhile dropWhile]. rewrite scanNotes_nil.
  unfold noteOfMatch. cbn [gNote gAccidental gOctave gDuration].
  unfold semitoneOffsetOf.
  rewrite (Hnot (ch "^")), (Hnot (ch "_")), (Hnot (ch "="))
    by (vm_compute; right; reflexivity).
  change (octaveOffsetOf []) with 0%Z.
  replace (baseNoteOf c + 0 + 0 * 12)%Z with (baseNoteOf c) by lia.
  reflexivity.
Qed.

(** "^C" as a counterexample to C3: the sharp written before the letter
    is not part of the match, the note is the plain base note. *)
Lemma sharp_before_letter_not_applied :
  map midiNote (body (parse (lit "^C"))) <> [(baseNoteOf (ch "C") + 1)%Z].
Proof. vm_compute. discriminate. Qed.

Lemma semitoneOffsetOf_natural (accidental : str) :
  includes accidental [ch "="] = true -> semitoneOffsetOf accidental = 0%Z.
Proof. unfold semitoneOffsetOf. intros ->. reflexivity. Qed.

(** C3, amended.  The markers a note captures are those written after its
    letter: "C^" is base+1, "C_" is base-1, and with '=' among the captured
    markers the offset is 0 whatever else is there and in whatever order.
    Markers written before the letter are not captured: "^C", "_C" and
    "=^C" are all the base note. *)
Theorem accidentals_after_letter :
  map midiNote (body (parse (lit "C^"))) = [(baseNoteOf (ch "C") + 1)%Z] /\
  map midiNote (body (parse (lit "C_"))) = [(baseNoteOf (ch "C") - 1)%Z] /\
  map midiNote (body (parse (lit "C=^"))) = [baseNoteOf (ch "C")] /\
  map midiNote (body (parse (lit "C^="))) = [baseNoteOf (ch "C")] /\
  map midiNote (body (parse (lit "^C"))) = [baseNoteOf (ch "C")] /\
  map midiNote (body (parse (lit "_C"))) = [baseNoteOf (ch "C")] /\
  map midiNote (body (parse (lit "=^C"))) = [baseNoteOf (ch "C")] /\
  (forall (abcString : str) (n : Note),
     In n (body (parse abcString)) ->
     includes (accidental n) [ch "="] = true ->
     exists m, wellFormed m /\ n = noteOfMatch m /\
       midiNote n =
         (baseNoteOf (gNote m) + 0 + octaveOffsetOf (gOctave m) * 12)%Z).
Proof.
  repeat (split; [vm_compute; reflexivity|]).
  intros abcString n Hin Heq.
  destruct (Scanner.parse_body_In abcString n Hin) as [m [Hwf ->]].
  exists m. split; [exact Hwf|]. split; [reflexivity|].
  unfold noteOfMatch in *. cbn [midiNote accidental] in *.
  now rewrite (semitoneOffsetOf_natural _ Heq).
Qed.

Lemma accidentals_after_letter_witness :
  exists m, wellFormed m /\
    {| note := lit "C"; midiNote := 60; duration := Finite 1%Q;
       accidental := lit "=^"; octave := 4 |} = noteOfMatch m /\
    60%Z = (baseNoteOf (gNote m) + 0 + octaveOffsetOf (gOctave m) * 12)%Z.
Proof.
  destruct accidentals_after_letter as (_ & _ & _ & _ & _ & _ & _ & H).
  apply (H (lit "C=^")
           {| note := lit "C"; midiNote := 60; duration := Finite 1%Q;
              accidental := lit "=^"; octave := 4 |}).
  - vm_compute. left. reflexivity.
  - vm_compute. reflexivity.
Defined.

(** *** Durations *)

Lemma digitsValue_acc_zero (ds : str) (acc : N) :
  forallb isDigit ds = true ->
  (fold_left (fun a d => (a * 10 + (d - 48))%N) ds acc = 0%N <->
   acc = 0%N /\ forallb (fun c => (c =? ch "0")%N) ds = true).
Proof.
  revert acc. induction ds as [|d ds IH]; intros acc Hd; simpl.
  - tauto.
  - simpl in Hd. apply andb_true_iff in Hd as [Hd Hds].
    rewrite (IH _ Hds). unfold isDigit in Hd.
    apply andb_true_iff in Hd as [H1 H2].
    apply N.leb_le in H1, H2.
    change (ch "0") with 48%N.
    rewrite andb_true_iff, N.eqb_eq. split.
    + intros [H0 Hz]. repeat split; auto; lia.
    + intros [H0 [Hz Hall]]. split; auto. lia.
Qed.

Lemma digitsValue_zero (ds : str) :
  forallb isDigit ds = true ->
  (digitsValue ds = 0%N <-> forallb (fun c => (c =? ch "0")%N) ds = true).
Proof.
  intros H. unfold digitsValue. rewrite (digitsValue_acc_zero ds 0 H). tauto.
Qed.

Lemma parseFloatDigits_nonneg (ds : str) : atLeastZero (parseFloatDigits ds).
Proof.
  unfold parseFloatDigits. destruct (binary64 (digitsValue ds)) as [v|s] eqn:E.
  - unfold atLeastZero, Qle. simpl. lia.
  - apply NumberFacts.binary64_infinite in E. exact (proj1 E).
Qed.

Lemma parseFloatDigits_zero (ds : str) :
  parseFloatDigits ds = Finite 0%Q <-> digitsValue ds = 0%N.
Proof.
  unfold parseFloatDigits. split.
  - destruct (binary64 (digitsValue ds)) as [v|s] eqn:E; [|discriminate].
    intros H. injection H as H.
    replace v with 0%N in E by lia.
    now apply NumberFacts.binary64_zero.
  - intros ->. reflexivity.
Qed.

Lemma parseFloatDigits_positive (ds : str) :
  parseFloatDigits ds <> Finite 0%Q -> aboveZero (parseFloatDigits ds).
Proof.
  unfold parseFloatDigits.
  destruct (binary64 (digitsValue ds)) as [v|s] eqn:E.
  - intros H. unfold aboveZero, Qlt. simpl.
    destruct (N.eq_dec v 0) as [->|Hv]; [now contradiction H | lia].
  - intros _. apply NumberFacts.binary64_infinite in E. exact (proj1 E).
Qed.

(** A duration read from digits is the binary64 nearest to their value:
    never Infinity below [2^1024 - 2^970], always from there on, and a
    finite one is a binary64 value that no other is nearer to the value. *)
Lemma parseFloatDigits_rounded (ds : str) :
  (parseFloatDigits ds = Infinity false <->
   (2 ^ 1024 - 2 ^ 970 <= digitsValue ds)%N) /\
  (forall q, parseFloatDigits ds = Finite q ->
     exists v, q = inject_Z (Z.of_N v) /\ representable v /\
       forall w, representable w ->
         (distance v (digitsValue ds) <= distance w (digitsValue ds))%N).
Proof.
  unfold parseFloatDigits. split.
  - destruct (binary64 (digitsValue ds)) as [v|s] eqn:E.
    + split; [discriminate|]. intros H.
      assert (Hi : binary64 (digitsValue ds) = Infinity false)
        by (apply NumberFacts.binary64_infinite; now split).
      congruence.
    + apply NumberFacts.binary64_infinite in E. destruct E as [-> E]. tauto.
  - intros q. destruct (binary64 (digitsValue ds)) as [v|s] eqn:E;
      [|discriminate].
    intros H. injection H as <-. exists v. split; [reflexivity|].
    now apply NumberFacts.binary64_nearest.
Qed.

(** Rounding at work: beyond 2^53 the number read is not always the one
    the digits spell, and a run of 309 nines is Infinity. *)
Example rounding_samples :
  map duration (body (parse (lit "C,9007199254740993")))
    = [Finite (inject_Z 9007199254740992)] /\
  parseTempo (lit "1/4=9007199254740993") = Finite 9007199254740992%Z /\
  map duration (parseBody [lit "C," ++ repeat (ch "9") 309])
    = [Infinity false] /\
  parseTempo (repeat (ch "9") 309) = Infinity false /\
  parseInt (lit "-0x20000000000001") = Some (Finite (-9007199254740992)%Z).
Proof. vm_compute. repeat split; reflexivity. Qed.

(** "C,0" as a counterexample to C4: its one note has duration 0. *)
Lemma zero_duration_reachable :
  ~ (forall n : Note,
       In n (body (parse (lit "C,0"))) -> aboveZero (duration n)).
Proof.
  intros H.
  specialize (H {| note := lit "C"; midiNote := 48; duration := Finite 0%Q;
                   accidental := []; octave := 3 |}).
  assert (Hin : In {| note := lit "C"; midiNote := 48; duration := Finite 0%Q;
                      accidental := []; octave := 3 |}
                   (body (parse (lit "C,0")))).
  { vm_compute. left. reflexivity. }
  apply H in Hin. vm_compute in Hin. discriminate Hin.
Qed.

(** C4, amended.  Every note of a parse has a duration that is not
    negative: 1 when the digit group is empty, otherwise the binary64
    nearest to the integer the digits spell: that integer itself up to
    2^53, Infinity from 2^1024 - 2^970 on, and in between a binary64 value
    that no other is nearer to the integer.  The duration is 0 exactly
    when the digit group is not empty and holds only zeros (as in "C,0"),
    and positive in every other case. *)
Theorem duration_nonnegative (abcString : str) (n : Note) :
  In n (body (parse abcString)) ->
  atLeastZero (duration n) /\
  exists m, wellFormed m /\ n = noteOfMatch m /\
    (gDuration m = [] -> duration n = Finite 1%Q) /\
    (gDuration m <> [] ->
       ((digitsValue (gDuration m) <= 2 ^ 53)%N ->
        duration n = Finite (inject_Z (Z.of_N (digitsValue (gDuration m))))) /\
       (duration n = Infinity false <->
        (2 ^ 1024 - 2 ^ 970 <= digitsValue (gDuration m))%N) /\
       (forall q, duration n = Finite q ->
          exists v, q = inject_Z (Z.of_N v) /\ representable v /\
            forall w, representable w ->
              (distance v (digitsValue (gDuration m))
               <= distance w (digitsValue (gDuration m)))%N)) /\
    (duration n = Finite 0%Q <->
       gDuration m <> [] /\
       forallb (fun c => (c =? ch "0")%N) (gDuration m) = true) /\
    (duration n <> Finite 0%Q -> aboveZero (duration n)).
Proof.
  intros Hin.
  destruct (Scanner.parse_body_In abcString n Hin) as [m [Hwf ->]].
  assert (Hnn : atLeastZero (duration (noteOfMatch m))).
  { unfold noteOfMatch. cbn [duration]. destruct (gDuration m).
    - unfold atLeastZero, Qle; simpl; lia.
    - apply parseFloatDigits_nonneg. }
  split; [exact Hnn|].
  exists m. split; [exact Hwf|]. split; [reflexivity|].
  destruct Hwf as (_ & _ & _ & Hd).
  unfold noteOfMatch. cbn [duration].
  destruct (gDuration m) as [|d ds] eqn:E.
  - split; [reflexivity|]. split; [congruence|]. split; [split|].
    + intros H. discriminate H.
    + intros [H _]. congruence.
    + intros _. reflexivity.
  - split; [discriminate|]. split; [|split; [split|]].
    + intros _. split; [apply NumberFacts.parseFloatDigits_exact|].
      exact (parseFloatDigits_rounded (d :: ds)).
    + intros H. split; [discriminate|].
      apply digitsValue_zero; auto. now apply parseFloatDigits_zero.
    + intros [_ H]. apply parseFloatDigits_zero. now apply digitsValue_zero.
    + apply parseFloatDigits_positive.
Qed.

Lemma duration_nonnegative_witness :
  atLeastZero (Finite 0%Q) /\
  exists m, wellFormed m /\
    {| note := lit "C"; midiNote := 48; duration := Finite 0%Q;
       accidental := []; octave := 3 |} = noteOfMatch m /\
    (gDuration m = [] -> Finite 0%Q = Finite 1%Q) /\
    (gDuration m <> [] ->
       ((digitsValue (gDuration m) <= 2 ^ 53)%N ->
        Finite 0%Q = Finite (inject_Z (Z.of_N (digitsValue (gDuration m))))) /\
       (@Finite Q 0%Q = Infinity false <->
        (2 ^ 1024 - 2 ^ 970 <= digitsValue (gDuration m))%N) /\
       (forall q, Finite 0%Q = Finite q ->
          exists v, q = inject_Z (Z.of_N v) /\ representable v /\
            forall w, representable w ->
              (distance v (digitsValue (gDuration m))
               <= distance w (digitsValue (gDuration m)))%N)) /\
    (@Finite Q 0%Q = Finite 0%Q <->
       gDuration m <> [] /\
       forallb (fun c => (c =? ch "0")%N) (gDuration m) = true) /\
    (@Finite Q 0%Q <> Finite 0%Q -> aboveZero (Finite 0%Q)).
Proof.
  apply (duration_nonnegative (lit "C,0")
           {| note := lit "C"; midiNote := 48; duration := Finite 0%Q;
              accidental := []; octave := 3 |}).
  vm_compute. left. reflexivity.
Defined.

(** *** The header/body boundary *)

(** X1.  With a line that is not a header line, the boundary is the index of the
    first such line and the body is scanned from that line on. *)
Lemma parse_body_from_boundary (abcString : str) (pre : list str) (l : str)
  (post : list str) :
  split lineFeed (trim abcString) = pre ++ l :: post ->
  forallb isHeaderLine pre = true -> isHeaderLine l = false ->
  lineCount (header (parse abcString)) = List.length pre /\
  body (parse abcString) = parseBody (l :: post).
Proof.
  intros Hs Hpre Hl. unfold parse. cbn [header body]. rewrite Hs.
  unfold parseHeader.
  rewrite (HeaderFacts.lineCount_first_body_line pre l post 0 initialHeader
             Hpre Hl).
  cbn [Nat.add]. split; [reflexivity|].
  now rewrite skipn_app, skipn_all, Nat.sub_diag.
Qed.

(** Without one, [lineCount] keeps its initial 0 and the body is scanned
    from the first line on, header lines included. *)
Lemma parse_body_all_header_lines (abcString : str) :
  forallb isHeaderLine (split lineFeed (trim abcString)) = true ->
  lineCount (header (parse abcString)) = 0 /\
  body (parse abcString) = parseBody (split lineFeed (trim abcString)).
Proof.
  intros Hall. unfold parse. cbn [header body]. unfold parseHeader.
  rewrite (HeaderFacts.lineCount_all_header_lines _ 0 initialHeader Hall).
  split; reflexivity.
Qed.

(** C5.  A text of header lines only ("X:1", "K:C"): no boundary is
    recorded, [lineCount] is the initial 0, and the body is scanned from the
    header lines themselves: the C of "K:C" comes out as a note. *)
Theorem header_only_tune_scanned_as_body :
  forallb isHeaderLine (split lineFeed (trim Tunes.headerOnly)) = true /\
  lineCount (header (parse Tunes.headerOnly)) = 0 /\
  key (header (parse Tunes.headerOnly)) = lit "C" /\
  body (parse Tunes.headerOnly) =
    [ {| note := lit "C"; midiNote := 60; duration := Finite 1%Q;
         accidental := []; octave := 4 |} ].
Proof. vm_compute. repeat split; reflexivity. Qed.

(** *** Header fields *)

Lemma fieldOf_absent (A : Type) (d : A) (read : str -> A) (tag : str)
  (block : list str) :
  (forall l, In l block -> startsWith (trim l) tag = false) ->
  fieldOf d read tag block = d.
Proof.
  induction block as [|l block IH]; intros H; [reflexivity|].
  rewrite HeaderFacts.fieldOf_miss by (apply H; now left).
  apply IH. intros l' Hl'. apply H. now right.
Qed.

Lemma fieldOf_last (A : Type) (d : A) (read : str -> A) (tag : str)
  (pre : list str) (l : str) (post : list str) :
  startsWith (trim l) tag = true ->
  (forall l', In l' post -> startsWith (trim l') tag = false) ->
  fieldOf d read tag (pre ++ l :: post) = read (substring 2 (trim l)).
Proof.
  intros Hl Hpost. revert d. induction pre as [|p pre IH]; intros d.
  - cbn [app]. rewrite HeaderFacts.fieldOf_hit by assumption.
    now apply fieldOf_absent.
  - cbn [app]. destruct (startsWith (trim p) tag) eqn:E.
    + rewrite HeaderFacts.fieldOf_hit by assumption. apply IH.
    + rewrite HeaderFacts.fieldOf_miss by assumption. apply IH.
Qed.


Example parseTempo_samples :
  parseTempo (lit "1/4=120") = Finite 120%Z /\
  parseTempo (lit "90") = Finite 90%Z /\
  parseTempo (lit "abc") = Finite 120%Z.
Proof. vm_compute. repeat split; reflexivity. Qed.

Example octave_shift_samples :
  map midiNote (body (parse (lit "C'"))) = [72%Z] /\
  map midiNote (body (parse (lit "C,"))) = [48%Z] /\
  map midiNote (body (parse (lit "C''"))) = [84%Z] /\
  map (fun n => (midiNote n, duration n)) (body (parse (lit "C,,")))
    = [(36%Z, Finite 1%Q)].
Proof. vm_compute. repeat split; reflexivity. Qed.

Example header_without_key_and_meter :
  parseHeader [lit "T:Vals"; lit " Q:1/4=90 "; lit "CDE"; lit "K:G"] =
  {| title := lit "Vals"; key := lit "C"; meter := lit "4/4";
     tempo := Finite 90%Z;
     lineCount := 2; number := None; defaultLength := None |}.
Proof. reflexivity. Qed.

(* ------------------------------------------------------------------ *)
(** ** validate *)

Module ValidateFacts.

Import JSFacts ValidateSpec.

Lemma blank_iff (s : str) :
  eqb s [] || (List.length (trim s) =? 0) = true <-> trim s = [].
Proof.
  rewrite orb_true_iff, eqb_true_iff, Nat.eqb_eq. split.
  - intros [->|H]; [reflexivity|]. now destruct (trim s).
  - intros ->. right. reflexivity.
Qed.

Lemma seen_In (x : char) (seen : list char) :
  existsb (N.eqb x) seen = true <-> In x seen.
Proof.
  rewrite existsb_exists. split.
  - intros [y [Hy E]]. apply N.eqb_eq in E. now subst.
  - intros H. exists x. split; [exact H | apply N.eqb_refl].
Qed.

Lemma unique_In (xs seen : list char) (c : char) :
  In c (unique seen xs) <-> In c xs /\ ~ In c seen.
Proof.
  revert seen. induction xs as [|x xs IH]; intros seen; simpl.
  - tauto.
  - destruct (existsb (N.eqb x) seen) eqn:E.
    + apply seen_In in E. rewrite IH. split.
      * intros [H1 H2]. tauto.
      * intros [[->|H1] H2]; [contradiction | tauto].
    + assert (Hx : ~ In x seen).
      { intros H. apply seen_In in H. congruence. }
      simpl. rewrite IH. simpl. split.
      * intros [->|[H1 H2]]; [tauto|]. split; [tauto|].
        intros H. apply H2. now right.
      * intros [[->|H1] H2]; [now left|].
        destruct (N.eq_dec x c) as [->|Hne]; [now left|].
        right. split; [exact H1|]. intros [H|H]; [congruence | contradiction].
Qed.


Lemma invalidCharsOf_In (sec : str) (c : char) :
  In c (invalidCharsOf sec) <-> In c sec /\ allowedChar c = false.
Proof.
  unfold invalidCharsOf. rewrite filter_In, negb_true_iff. tauto.
Qed.

(** For a text that is not blank, [validate] runs the four checks in
    order. *)
Lemma validate_nonblank (s : str) :
  trim s <> [] ->
  validate s = {| isValid := List.length (adviceFor s) =? 0;
                  errors := adviceFor s |}.
Proof.
  intros Hne. unfold validate. cbv zeta.
  destruct (eqb s [] || (List.length (trim s) =? 0)) eqn:Eb.
  { apply blank_iff in Eb. contradiction. }
  unfold adviceFor, invalidEntry, listedChars.
  destruct (noteSectionOf s) as [|c sec] eqn:Esec.
  - cbn [invalidCharsOf filter unique].
    destruct (existsb isNoteLetter s), (includes s (lit "K:")),
      (includes s (lit "M:")); reflexivity.
  - destruct (invalidCharsOf (c :: sec)) as [|x xs] eqn:Einv.
    + cbn [unique].
      destruct (existsb isNoteLetter s), (includes s (lit "K:")),
        (includes s (lit "M:")); reflexivity.
    + cbn [unique existsb].
      destruct (existsb isNoteLetter s), (includes s (lit "K:")),
        (includes s (lit "M:")); reflexivity.
Qed.

Lemma validate_blank (s : str) :
  trim s = [] -> validate s = {| isValid := false; errors := [msgEmpty] |}.
Proof.
  intros Hb. unfold validate. cbv zeta.
  apply blank_iff in Hb. rewrite Hb. reflexivity.
Qed.



Lemma piece_In (b : bool) (m e : str) :
  In e (if b then [] else [m]) <-> b = false /\ e = m.
Proof. destruct b; cbn [In]; intuition congruence. Qed.

(** Which entries a text that is not blank gets. *)
Lemma adviceFor_In (s e : str) :
  In e (adviceFor s) <->
  (existsb isNoteLetter s = false /\ e = msgNoNotes) \/
  (includes s (lit "K:") = false /\ e = msgNoKey) \/
  (includes s (lit "M:") = false /\ e = msgNoMeter) \/
  (listedChars s <> [] /\ e = invalidEntry s).
Proof.
  unfold adviceFor. rewrite !in_app_iff, !piece_In.
  destruct (listedChars s); cbn [In]; intuition congruence.
Qed.


End ValidateFacts.

Import ValidateSpec.




(* ------------------------------------------------------------------ *)
(** ** Properties of the generator *)

Import MidiGenerator MidiSpec.

Module GeneratorFacts.

Lemma validateStep_offences (numberToString : JS.number Q -> str)
  (errs : list str) (index : nat) (n : Note) :
  validateStep numberToString errs index n =
  errs ++ offences numberToString index n.
Proof.
  unfold validateStep, offences.
  destruct ((midiNote n <? 0) || (midiNote n >? 127))%Z,
    (leZero (duration n)); cbn [app];
    rewrite <- ?app_assoc, ?app_nil_r; reflexivity.
Qed.

Lemma validateFrom_collect (numberToString : JS.number Q -> str)
  (rest : list Note) (index : nat) (errs : list str) :
  validateFrom numberToString index rest errs =
  errs ++ collect numberToString index rest.
Proof.
  revert index errs. induction rest as [|n rest IH]; intros index errs.
  - cbn. now rewrite app_nil_r.
  - cbn [validateFrom collect].
    now rewrite IH, validateStep_offences, <- app_assoc.
Qed.

Lemma collect_In (numberToString : JS.number Q -> str) (rest : list Note)
  (index : nat) (e : str) :
  In e (collect numberToString index rest) <->
  exists j n, nth_error rest j = Some n /\
              In e (offences numberToString (index + j) n).
Proof.
  revert index. induction rest as [|n rest IH]; intros index.
  - cbn. split; [intros [] | intros [j [n [H _]]]].
    now destruct j.
  - cbn [collect]. rewrite in_app_iff, IH. split.
    + intros [H|[j [n' [Hj H]]]].
      * exists 0, n. rewrite Nat.add_0_r. split; [reflexivity | exact H].
      * exists (S j), n'. split; [exact Hj|].
        now rewrite Nat.add_succ_r.
    + intros [[|j] [n' [Hj H]]].
      * left. cbn in Hj. injection Hj as <-.
        now rewrite Nat.add_0_r in H.
      * right. exists j, n'. split; [exact Hj|].
        now rewrite Nat.add_succ_r in H.
Qed.

Lemma offences_In (numberToString : JS.number Q -> str) (index : nat)
  (n : Note) (e : str) :
  In e (offences numberToString index n) <->
  (e = msgOutOfRange index n /\ (midiNote n < 0 \/ midiNote n > 127)%Z) \/
  (e = msgBadDuration numberToString index n /\ atMostZero (duration n)).
Proof.
  unfold offences. rewrite in_app_iff.
  assert (HR : ((midiNote n <? 0) || (midiNote n >? 127))%Z = true <->
               (midiNote n < 0 \/ midiNote n > 127)%Z).
  { rewrite orb_true_iff, Z.ltb_lt, Z.gtb_gt. tauto. }
  pose proof (NumberFacts.leZero_iff (duration n)) as HD.
  destruct ((midiNote n <? 0) || (midiNote n >? 127))%Z,
    (leZero (duration n)); cbn [In]; split;
    try (intros [H|H]; [ try contradiction | try contradiction ]);
    intuition (try congruence; try discriminate).
Qed.

Lemma convert_fold (notes : list Note) (events : list NoteEvent)
  (currentTime : str) :
  fst (fold_left convertStep notes (events, currentTime)) =
  events ++ map eventOf notes.
Proof.
  revert events currentTime.
  induction notes as [|n notes IH]; intros events currentTime.
  - cbn. now rewrite app_nil_r.
  - cbn [fold_left map]. unfold convertStep at 2. rewrite IH.
    now rewrite <- app_assoc.
Qed.

(** One event per note, in the notes' order. *)
Lemma convertNotesToEvents_map (notes : list Note) (h : Header) :
  convertNotesToEvents notes h = map eventOf notes.
Proof. unfold convertNotesToEvents. now rewrite convert_fold. Qed.

Lemma nameAt_in_table (i : Z) :
  (0 <= i < 12)%Z ->
  exists name, nameAt i = Some name /\
               nth_error noteNames (Z.to_nat i) = Some name.
Proof.
  intros Hi. unfold nameAt.
  destruct (i <? 0)%Z eqn:E; [apply Z.ltb_lt in E; lia|].
  destruct (nth_error noteNames (Z.to_nat i)) as [name|] eqn:En.
  - exists name. split; reflexivity.
  - apply nth_error_None in En. cbn in En. lia.
Qed.

End GeneratorFacts.

(** C7.  For every list of notes validateMidiNotes returns a report (the
    function is total and only reads the notes): the note at 0-based
    position [i] gets an entry citing [i + 1] when its MIDI number is
    outside 0..127, and one citing [i + 1] when its duration is not
    positive; nothing else is reported, and [isValid] is true exactly when
    [errors] is empty, that is when no note is at fault. *)
Theorem validateMidiNotes_report (numberToString : JS.number Q -> str)
  (notes : list Note) :
  let r := validateMidiNotes numberToString notes in
  (isValid r = true <-> errors r = []) /\
  (forall i n, nth_error notes i = Some n ->
     (midiNote n < 0 \/ midiNote n > 127)%Z ->
     In (lit "Nota " ++ ofZ (Z.of_nat i + 1) ++ lit ": MIDI note "
         ++ ofZ (midiNote n) ++ lit " fuera de rango (0-127)") (errors r)) /\
  (forall i n, nth_error notes i = Some n ->
     atMostZero (duration n) ->
     In (lit "Nota " ++ ofZ (Z.of_nat i + 1) ++ lit ": Duración inválida "
         ++ numberToString (duration n)) (errors r)) /\
  (forall e, In e (errors r) ->
     exists i n, nth_error notes i = Some n /\
       ((e = msgOutOfRange i n /\ (midiNote n < 0 \/ midiNote n > 127)%Z) \/
        (e = msgBadDuration numberToString i n /\
         atMostZero (duration n)))) /\
  (isValid r = true <->
     forall i n, nth_error notes i = Some n ->
       (0 <= midiNote n <= 127)%Z /\ aboveZero (duration n)).
Proof.
  cbv zeta. unfold validateMidiNotes. cbn [isValid errors].
  rewrite GeneratorFacts.validateFrom_collect. cbn [app].
  assert (Hvalid :
    (List.length (collect numberToString 0 notes) =? 0) = true <->
    collect numberToString 0 notes = []).
  { rewrite Nat.eqb_eq. split; [|intros ->; reflexivity].
    now destruct (collect numberToString 0 notes). }
  split; [exact Hvalid|].
  split; [|split; [|split]].
  - intros i n Hi Hr. apply GeneratorFacts.collect_In.
    exists i, n. split; [exact Hi|].
    apply GeneratorFacts.offences_In. left. split; [reflexivity | exact Hr].
  - intros i n Hi Hd. apply GeneratorFacts.collect_In.
    exists i, n. split; [exact Hi|].
    apply GeneratorFacts.offences_In. right. split; [reflexivity | exact Hd].
  - intros e He. apply GeneratorFacts.collect_In in He.
    destruct He as [j [n [Hj He]]]. exists j, n. split; [exact Hj|].
    now apply GeneratorFacts.offences_In in He.
  - rewrite Hvalid. split.
    + intros Hnil i n Hi.
      assert (Hno : forall e, ~ In e (offences numberToString i n)).
      { intros e He.
        assert (Hc : In e (collect numberToString 0 notes)).
        { apply GeneratorFacts.collect_In. exists i, n. now split. }
        rewrite Hnil in Hc. exact Hc. }
      split.
      * destruct (Z_lt_dec (midiNote n) 0) as [H1|H1];
          [|destruct (Z_gt_dec (midiNote n) 127) as [H2|H2]]; [| |lia].
        -- exfalso. apply (Hno (msgOutOfRange i n)).
           apply GeneratorFacts.offences_In. left. split; [reflexivity|].
           now left.
        -- exfalso. apply (Hno (msgOutOfRange i n)).
           apply GeneratorFacts.offences_In. left. split; [reflexivity|].
           now right.
      * destruct (NumberFacts.aboveZero_or_atMostZero (duration n))
          as [H|H]; [exact H|].
        exfalso. apply (Hno (msgBadDuration numberToString i n)).
        apply GeneratorFacts.offences_In. right. now split.
    + intros Hok.
      destruct (collect numberToString 0 notes) as [|e es] eqn:Ec;
        [reflexivity|].
      assert (He : In e (collect numberToString 0 notes)).
      { rewrite Ec. now left. }
      apply GeneratorFacts.collect_In in He.
      destruct He as [j [n [Hj He]]].
      apply GeneratorFacts.offences_In in He.
      destruct (Hok j n Hj) as [Hr Hd].
      destruct He as [[_ [H|H]]|[_ H]]; [lia | lia |].
      exfalso. exact (NumberFacts.aboveZero_not_atMostZero _ Hd H).
Qed.

Lemma validateMidiNotes_report_witness :
  In (lit "Nota 1: MIDI note -12 fuera de rango (0-127)")
     (errors (validateMidiNotes (fun _ => lit "0")
                (body (parse (lit "C,,,,,, C,0"))))) /\
  In (lit "Nota 2: Duración inválida 0")
     (errors (validateMidiNotes (fun _ => lit "0")
                (body (parse (lit "C,,,,,, C,0"))))).
Proof.
  destruct (validateMidiNotes_report (fun _ => lit "0")
              (body (parse (lit "C,,,,,, C,0"))))
    as (_ & HR & HD & _).
  split.
  - apply (HR 0 {| note := lit "C"; midiNote := -12; duration := Finite 1%Q;
                   accidental := []; octave := -2 |}).
    + vm_compute. reflexivity.
    + left. reflexivity.
  - apply (HD 1 {| note := lit "C"; midiNote := 48; duration := Finite 0%Q;
                   accidental := []; octave := 3 |}).
    + vm_compute. reflexivity.
    + vm_compute. discriminate.
Defined.

(** C8.  The table sends 0.25, 0.5, 1, 2, 4 and 8 to the thirty-second,
    sixteenth, eighth, quarter, half and whole class; any other value, 3
    and the infinities among them, gets the eighth class that 1 has; every
    note gets an event whatever its duration. *)
Theorem duration_ticks_fallback :
  ticksOrDefault (Finite 0.25%Q) = thirtySecond /\
  ticksOrDefault (Finite 0.5%Q) = sixteenth /\
  ticksOrDefault (Finite 1%Q) = eighth /\
  ticksOrDefault (Finite 2%Q) = quarter /\
  ticksOrDefault (Finite 4%Q) = half /\
  ticksOrDefault (Finite 8%Q) = whole /\
  ticksOrDefault (Finite 3%Q) = ticksOrDefault (Finite 1%Q) /\
  (forall d : Q,
     ~ (d == 0.25)%Q -> ~ (d == 0.5)%Q -> ~ (d == 1)%Q ->
     ~ (d == 2)%Q -> ~ (d == 4)%Q -> ~ (d == 8)%Q ->
     ticksEntry (Finite d) durationToTicks = None /\
     ticksOrDefault (Finite d) = eighth /\
     ticksOrDefault (Finite d) = ticksOrDefault (Finite 1%Q)) /\
  (forall negative : bool,
     ticksEntry (Infinity negative) durationToTicks = None /\
     ticksOrDefault (Infinity negative) = ticksOrDefault (Finite 1%Q)) /\
  (forall (notes : list Note) (h : Header),
     map ticks (convertNotesToEvents notes h) =
     map (fun n => ticksOrDefault (duration n)) notes).
Proof.
  repeat (split; [vm_compute; reflexivity|]).
  split.
  - intros d H1 H2 H3 H4 H5 H6.
    assert (Hmiss : forall k, ~ (d == k)%Q -> Qeq_bool d k = false).
    { intros k Hk. destruct (Qeq_bool d k) eqn:E; [|reflexivity].
      apply Qeq_bool_iff in E. contradiction. }
    assert (Hnone : ticksEntry (Finite d) durationToTicks = None).
    { unfold durationToTicks. cbn [ticksEntry isKey].
      now rewrite !Hmiss by assumption. }
    unfold ticksOrDefault at 1 2. rewrite Hnone.
    repeat split; reflexivity.
  - split; [intros negative; split; reflexivity|].
    intros notes h. rewrite GeneratorFacts.convertNotesToEvents_map.
    rewrite map_map. reflexivity.
Qed.

Lemma duration_ticks_fallback_witness :
  ticksEntry (Finite 3%Q) durationToTicks = None /\
  ticksOrDefault (Finite 3%Q) = eighth /\
  ticksOrDefault (Finite 3%Q) = ticksOrDefault (Finite 1%Q).
Proof.
  destruct duration_ticks_fallback as (_ & _ & _ & _ & _ & _ & _ & H & _).
  apply (H 3%Q); intros E; vm_compute in E; discriminate E.
Defined.

(** "C,,,,,," as a counterexample to C10: parse gives MIDI number -12,
    for which the index is not negative and the lookup stays inside the
    table; the pitch is the well-formed "C-2". *)
Lemma negative_multiple_of_twelve_is_named :
  map midiNote (body (parse (lit "C,,,,,,"))) = [(-12)%Z] /\
  ~ (Z.rem (-12) 12 < 0)%Z /\
  nameAt (Z.rem (-12) 12) <> None /\
  midiNoteToPitch (-12) = PitchName (lit "C-2").
Proof.
  split; [vm_compute; reflexivity|].
  split; [vm_compute; discriminate|].
  split; [vm_compute; discriminate|].
  vm_compute. reflexivity.
Qed.

(** C10, amended.  Every note's pitch is midiNoteToPitch of its MIDI
    number, with no range check.  For a number that is not negative the
    pitch is a name of the twelve-entry table followed by the octave
    floor(n/12) - 1.  For a negative number that is not a multiple of 12
    (parse gives -10 for "D,,,,,,") the index n % 12 is negative, the lookup
    is outside the table and the result is not a pitch name, with no error
    raised.  For a negative multiple of 12 (parse gives -12 for "C,,,,,,")
    the index is zero and the pitch is "C" followed by the octave. *)
Theorem midiNoteToPitch_by_sign :
  (forall (notes : list Note) (h : Header),
     map pitch (convertNotesToEvents notes h) =
     map (fun n => midiNoteToPitch (midiNote n)) notes) /\
  (forall n : Z, (0 <= n)%Z ->
     exists name,
       nth_error noteNames (Z.to_nat (n mod 12)) = Some name /\
       midiNoteToPitch n = PitchName (name ++ ofZ (n / 12 - 1))) /\
  (forall n : Z, (n < 0)%Z -> Z.rem n 12 <> 0%Z ->
     (Z.rem n 12 < 0)%Z /\ nameAt (Z.rem n 12) = None /\
     midiNoteToPitch n = PitchNaN) /\
  (forall n : Z, (n < 0)%Z -> Z.rem n 12 = 0%Z ->
     midiNoteToPitch n = PitchName (lit "C" ++ ofZ (n / 12 - 1))) /\
  map midiNote (body (parse (lit "D,,,,,,"))) = [(-10)%Z] /\
  midiNoteToPitch (-10) = PitchNaN /\
  map midiNote (body (parse (lit "C,,,,,,"))) = [(-12)%Z] /\
  midiNoteToPitch (-12) = PitchName (lit "C-2").
Proof.
  split; [|split; [|split; [|split]]].
  - intros notes h. rewrite GeneratorFacts.convertNotesToEvents_map.
    rewrite map_map. reflexivity.
  - intros n Hn. unfold midiNoteToPitch. cbv zeta.
    rewrite (Z.rem_mod_nonneg n 12) by lia.
    destruct (GeneratorFacts.nameAt_in_table (n mod 12)) as [name [H1 H2]].
    { apply Z.mod_pos_bound. lia. }
    exists name. rewrite H1. split; [exact H2 | reflexivity].
  - intros n Hn Hr.
    assert (Hneg : (Z.rem n 12 < 0)%Z).
    { pose proof (Z.rem_nonpos n 12 ltac:(lia) ltac:(lia)). lia. }
    assert (Hnone : nameAt (Z.rem n 12) = None).
    { unfold nameAt. apply Z.ltb_lt in Hneg. now rewrite Hneg. }
    repeat split; auto.
    unfold midiNoteToPitch. cbv zeta. now rewrite Hnone.
  - intros n Hn Hr. unfold midiNoteToPitch. cbv zeta. rewrite Hr.
    reflexivity.
  - repeat split; vm_compute; reflexivity.
Qed.

Lemma midiNoteToPitch_by_sign_witness :
  (exists name,
     nth_error noteNames (Z.to_nat (69 mod 12)) = Some name /\
     midiNoteToPitch 69 = PitchName (name ++ ofZ (69 / 12 - 1))) /\
  ((Z.rem (-10) 12 < 0)%Z /\ nameAt (Z.rem (-10) 12) = None /\
   midiNoteToPitch (-10) = PitchNaN) /\
  midiNoteToPitch (-24) = PitchName (lit "C" ++ ofZ (-24 / 12 - 1)).
Proof.
  destruct midiNoteToPitch_by_sign as (_ & Hpos & Hneg & Hmul & _).
  split; [|split].
  - apply (Hpos 69%Z). lia.
  - apply (Hneg (-10)%Z); [lia | vm_compute; discriminate].
  - apply (Hmul (-24)%Z); [lia | reflexivity].
Defined.

Example pitch_round_trip :
  midiNoteToPitch 60 = PitchName (lit "C4") /\
  midiNoteToPitch 69 = PitchName (lit "A4") /\
  midiNoteToPitch 0 = PitchName (lit "C-1").
Proof. vm_compute. repeat split; reflexivity. Qed.

(* ------------------------------------------------------------------ *)
(** ** Further properties of the parser *)

Import MidiTracks Converter ClientScript Counting.

Module ParserMore.

Import JSFacts.

Lemma parse_body_from_boundary_witness :
  lineCount (header (parse Tunes.scale)) = 4 /\
  body (parse Tunes.scale) = parseBody [lit "CDEFGABc"].
Proof.
  apply (parse_body_from_boundary Tunes.scale
           [lit "X:1"; lit "T:Test Escala"; lit "M:4/4"; lit "K:C"]
           (lit "CDEFGABc") []);
    vm_compute; reflexivity.
Defined.

(** X2.  A blank text (empty, or white space only) parses to the default header
    and no notes, and validate rejects it. *)
Theorem parse_blank_text (abcString : str) :
  trim abcString = [] ->
  header (parse abcString) = initialHeader /\
  body (parse abcString) = [] /\
  isValid (validate abcString) = false.
Proof.
  intros Hb. split; [|split].
  - unfold parse. cbn [header]. rewrite Hb. vm_compute. reflexivity.
  - unfold parse. cbn [body]. rewrite Hb. vm_compute. reflexivity.
  - now rewrite (ValidateFacts.validate_blank abcString Hb).
Qed.

Lemma parse_blank_text_witness :
  header (parse (lit "  ")) = initialHeader /\
  body (parse (lit "  ")) = [] /\
  isValid (validate (lit "  ")) = false.
Proof. apply (parse_blank_text (lit "  ")). vm_compute. reflexivity. Defined.

(** *** How many notes a text gives *)

Lemma letters_dropWhile (p : char -> bool) (s : str) :
  letters (dropWhile p s) <= letters s.
Proof.
  unfold letters. induction s as [|c r IH]; cbn [dropWhile]; [lia|].
  destruct (p c); [|lia]. cbn [filter].
  destruct (isNoteLetter c); cbn [List.length]; lia.
Qed.

Lemma exec_uses_a_letter (s : str) (m : Groups) (r : str) :
  exec s = Some (m, r) -> letters r < letters s.
Proof.
  unfold letters. induction s as [|c t IH]; cbn [exec]; [discriminate|].
  cbn [filter]. destruct (isNoteLetter c).
  - intros H. injection H as _ <-. cbn [List.length].
    pose proof (letters_dropWhile notOctaveMark t).
    pose proof (letters_dropWhile isOctaveMark (dropWhile notOctaveMark t)).
    pose proof (letters_dropWhile isDigit
                  (dropWhile isOctaveMark (dropWhile notOctaveMark t))).
    unfold letters in *. lia.
  - exact IH.
Qed.

Lemma exec_None_iff (s : str) :
  exec s = None <-> existsb isNoteLetter s = false.
Proof.
  induction s as [|c t IH]; cbn [exec existsb]; [tauto|].
  destruct (isNoteLetter c); cbn [orb]; [split; discriminate | exact IH].
Qed.

Lemma scanNotes_count (s : str) : List.length (scanNotes s) <= letters s.
Proof.
  remember (List.length s) as k eqn:Hk. revert s Hk.
  induction k as [k IH] using lt_wf_ind. intros s Hk.
  rewrite Scanner.scanNotes_step.
  destruct (exec s) as [[m r]|] eqn:E; [|cbn; lia].
  pose proof (exec_uses_a_letter s m r E) as Hl.
  pose proof (Scanner.exec_shorter s m r E) as Hs.
  cbn [List.length].
  specialize (IH (List.length r) ltac:(lia) r eq_refl). lia.
Qed.

Lemma existsb_join (p : char -> bool) (sep : str) (lines : list str) :
  existsb p sep = false ->
  existsb p (join sep lines) = existsb (existsb p) lines.
Proof.
  intros Hsep. induction lines as [|l rest IH]; [reflexivity|].
  destruct rest as [|l' rest'].
  - cbn. now rewrite orb_false_r.
  - change (join sep (l :: l' :: rest'))
      with (l ++ sep ++ join sep (l' :: rest')).
    rewrite !existsb_app, Hsep, IH. reflexivity.
Qed.

Lemma letters_zero (s : str) :
  letters s = 0 <-> existsb isNoteLetter s = false.
Proof.
  unfold letters. induction s as [|c r IH]; cbn [filter existsb]; [tauto|].
  destruct (isNoteLetter c); cbn [List.length orb]; [split; [lia|discriminate]|].
  exact IH.
Qed.

Lemma parseBody_nil_iff (lines : list str) :
  parseBody lines = [] <->
  forall l, In l lines -> existsb isNoteLetter l = false.
Proof.
  unfold parseBody. cbv zeta. rewrite Scanner.scanNotes_step.
  assert (Hj : existsb isNoteLetter (join [ch " "] lines)
               = existsb (existsb isNoteLetter) lines).
  { apply existsb_join. reflexivity. }
  split.
  - intros H l Hl.
    destruct (exec (join [ch " "] lines)) as [[m r]|] eqn:E; [discriminate|].
    apply exec_None_iff in E. rewrite Hj in E.
    destruct (existsb isNoteLetter l) eqn:El; [|reflexivity].
    assert (Hex : existsb (existsb isNoteLetter) lines = true).
    { apply existsb_exists. exists l. now split. }
    congruence.
  - intros H.
    assert (E : exec (join [ch " "] lines) = None).
    { apply exec_None_iff. rewrite Hj.
      destruct (existsb (existsb isNoteLetter) lines) eqn:Ex; [|reflexivity].
      apply existsb_exists in Ex. destruct Ex as [l [Hl El]].
      rewrite (H l Hl) in El. discriminate. }
    now rewrite E.
Qed.

(** X3.  parseBody gives no note exactly when no line holds a letter of A-G or
    a-g, and never more notes than the lines hold such letters. *)
Theorem parseBody_notes_and_letters (lines : list str) :
  (parseBody lines = [] <->
   forall l, In l lines -> existsb isNoteLetter l = false) /\
  List.length (parseBody lines) <= letters (join [ch " "] lines).
Proof.
  split; [apply parseBody_nil_iff|].
  unfold parseBody. cbv zeta. apply scanNotes_count.
Qed.

Lemma parseBody_notes_and_letters_witness :
  parseBody [lit "| 12 |"; lit "z z"] = [].
Proof.
  destruct (parseBody_notes_and_letters [lit "| 12 |"; lit "z z"])
    as [[_ H] _].
  apply H. intros l [<-|[<-|[]]]; vm_compute; reflexivity.
Defined.

End ParserMore.

Module NoteFacts.

Import JSFacts.

Lemma splitOn_length (p : char -> bool) (s : str) :
  List.length (splitOn p s) = S (List.length (filter p s)).
Proof.
  induction s as [|c r IH]; [reflexivity|].
  cbn [splitOn filter]. destruct (p c).
  - cbn [List.length]. now rewrite IH.
  - destruct (splitOn p r) as [|l ls]; cbn [List.length] in *; lia.
Qed.

Lemma split_length (c : char) (s : str) :
  List.length (split c s) = S (occurrences c s).
Proof. unfold split, occurrences. apply splitOn_length. Qed.

Lemma includes_unit_occurrences (s : str) (c : char) :
  includes s [c] = true <-> 0 < occurrences c s.
Proof.
  rewrite includes_unit. unfold occurrences.
  induction s as [|x r IH]; cbn [existsb filter].
  - cbn. split; [discriminate | lia].
  - destruct (x =? c)%N; cbn [orb List.length]; [split; [lia | reflexivity]|].
    exact IH.
Qed.

Lemma includes_unit_none (s : str) (c : char) :
  includes s [c] = false -> occurrences c s = 0.
Proof.
  intros H. destruct (occurrences c s) eqn:E; [reflexivity|].
  assert (includes s [c] = true) by (apply includes_unit_occurrences; lia).
  congruence.
Qed.

(** The octave shift of a run of octave marks is the number of apostrophes
    minus the number of commas, whatever their order. *)
Lemma octaveOffsetOf_counts (octave : str) :
  octaveOffsetOf octave =
  (Z.of_nat (occurrences apostrophe octave)
   - Z.of_nat (occurrences (ch ",") octave))%Z.
Proof.
  unfold octaveOffsetOf. rewrite !split_length.
  destruct (includes octave [apostrophe]) eqn:E1;
    destruct (includes octave [ch ","]) eqn:E2;
    try apply includes_unit_none in E1;
    try apply includes_unit_none in E2; lia.
Qed.

Lemma semitoneOffsetOf_range (accidental : str) :
  (-1 <= semitoneOffsetOf accidental <= 1)%Z.
Proof.
  unfold semitoneOffsetOf.
  destruct (includes accidental [ch "^"]), (includes accidental [ch "_"]),
    (includes accidental [ch "="]); lia.
Qed.

Lemma baseNoteOf_letter (c : char) :
  isNoteLetter c = true -> (60 <= baseNoteOf c <= 83)%Z.
Proof.
  unfold isNoteLetter. change (ch "A") with 65%N. change (ch "G") with 71%N.
  change (ch "a") with 97%N. change (ch "g") with 103%N.
  intros H. apply orb_true_iff in H.
  assert (Hc : (c = 65 \/ c = 66 \/ c = 67 \/ c = 68 \/ c = 69 \/ c = 70 \/
                c = 71 \/ c = 97 \/ c = 98 \/ c = 99 \/ c = 100 \/ c = 101 \/
                c = 102 \/ c = 103)%N).
  { destruct H as [H|H]; apply andb_true_iff in H as [H1 H2];
      apply N.leb_le in H1, H2; lia. }
  repeat (destruct Hc as [->|Hc]; [vm_compute; split; discriminate|]).
  subst c. vm_compute. split; discriminate.
Qed.

Lemma toUpperCase_letter (c : char) :
  isNoteLetter c = true ->
  exists u, toUpperCase c = [u] /\ (ch "A" <= u <= ch "G")%N.
Proof.
  unfold isNoteLetter, toUpperCase.
  change (ch "A") with 65%N. change (ch "G") with 71%N.
  change (ch "a") with 97%N. change (ch "g") with 103%N.
  change (ch "z") with 122%N.
  intros H. apply orb_true_iff in H.
  destruct H as [H|H]; apply andb_true_iff in H as [H1 H2];
    apply N.leb_le in H1, H2.
  - exists c. split; [|lia].
    destruct (N.leb_spec 97 c); [lia|]. reflexivity.
  - exists (c - 32)%N. split; [|lia].
    destruct (N.leb_spec 97 c); [|lia].
    destruct (N.leb_spec c 122); [|lia]. reflexivity.
Qed.

End NoteFacts.

(** X8.  Every note of a parse: its octave is 4 plus the apostrophes minus the
    commas of its octave marks, and its MIDI number is the base of its
    letter plus the semitone offset plus twelve per octave. *)
Theorem note_octave_counts (abcString : str) (n : Note) :
  In n (body (parse abcString)) ->
  exists m, wellFormed m /\ n = noteOfMatch m /\
    octave n =
      (4 + Z.of_nat (occurrences apostrophe (gOctave m))
         - Z.of_nat (occurrences (ch ",") (gOctave m)))%Z /\
    midiNote n =
      (baseNoteOf (gNote m) + semitoneOffsetOf (gAccidental m)
       + 12 * (octave n - 4))%Z.
Proof.
  intros Hin. destruct (Scanner.parse_body_In abcString n Hin) as [m [Hwf ->]].
  exists m. split; [exact Hwf|]. split; [reflexivity|].
  unfold noteOfMatch. cbn [octave midiNote]. unfold currentOctave.
  rewrite NoteFacts.octaveOffsetOf_counts. split; lia.
Qed.

Lemma note_octave_counts_witness :
  exists m, wellFormed m /\
    {| note := lit "C"; midiNote := 36; duration := Finite 1%Q;
       accidental := []; octave := 2 |} = noteOfMatch m /\
    2%Z = (4 + Z.of_nat (occurrences apostrophe (gOctave m))
             - Z.of_nat (occurrences (ch ",") (gOctave m)))%Z /\
    36%Z = (baseNoteOf (gNote m) + semitoneOffsetOf (gAccidental m)
            + 12 * (2 - 4))%Z.
Proof.
  apply (note_octave_counts (lit "C,',,")
           {| note := lit "C"; midiNote := 36; duration := Finite 1%Q;
              accidental := []; octave := 2 |}).
  vm_compute. left. reflexivity.
Defined.

(** X9.  Every note of a parse is named by one capital letter A to G, its MIDI
    number is within one octave band fixed by its octave field, and with an
    octave field from 0 to 7 it is inside 0..127. *)
Theorem note_letter_and_band (abcString : str) (n : Note) :
  In n (body (parse abcString)) ->
  (exists u, note n = [u] /\ (ch "A" <= u <= ch "G")%N) /\
  (59 <= midiNote n - 12 * (octave n - 4) <= 84)%Z /\
  ((0 <= octave n <= 7)%Z -> (0 <= midiNote n <= 127)%Z).
Proof.
  intros Hin. destruct (Scanner.parse_body_In abcString n Hin) as [m [Hwf ->]].
  destruct Hwf as (Hl & _).
  pose proof (NoteFacts.baseNoteOf_letter (gNote m) Hl) as Hb.
  pose proof (NoteFacts.semitoneOffsetOf_range (gAccidental m)) as Hs.
  unfold noteOfMatch. cbn [note octave midiNote]. unfold currentOctave.
  split; [now apply NoteFacts.toUpperCase_letter|].
  split; [lia|]. intros Ho. lia.
Qed.

Lemma note_letter_and_band_witness :
  (exists u, lit "G" = [u] /\ (ch "A" <= u <= ch "G")%N) /\
  (59 <= 92 - 12 * (5 - 4) <= 84)%Z /\
  ((0 <= 5 <= 7)%Z -> (0 <= 92 <= 127)%Z).
Proof.
  apply (note_letter_and_band (text ["K:C"; "g^'"]%string)
           {| note := lit "G"; midiNote := 92; duration := Finite 1%Q;
              accidental := lit "^"; octave := 5 |}).
  vm_compute. left. reflexivity.
Defined.

(** X10.  The semitone offset looks only at which of the three markers occur:
    two marker texts with the same characters give the same offset, so
    order and repetition do not count, and the offset stays within one
    semitone. *)
Theorem semitone_offset_by_presence (a b : str) :
  (forall c, In c a <-> In c b) ->
  semitoneOffsetOf a = semitoneOffsetOf b /\
  (-1 <= semitoneOffsetOf a <= 1)%Z.
Proof.
  intros Hab. split; [|apply NoteFacts.semitoneOffsetOf_range].
  assert (Hinc : forall x : char, includes a [x] = includes b [x]).
  { intros x. rewrite !includes_unit.
    destruct (existsb (fun c => (c =? x)%N) a) eqn:Ea;
      destruct (existsb (fun c => (c =? x)%N) b) eqn:Eb; try reflexivity.
    - apply existsb_exists in Ea. destruct Ea as [y [Hy E]].
      apply Hab in Hy.
      assert (existsb (fun c => (c =? x)%N) b = true)
        by (apply existsb_exists; eauto). congruence.
    - apply existsb_exists in Eb. destruct Eb as [y [Hy E]].
      apply Hab in Hy.
      assert (existsb (fun c => (c =? x)%N) a = true)
        by (apply existsb_exists; eauto). congruence. }
  unfold semitoneOffsetOf. now rewrite !Hinc.
Qed.

Lemma semitone_offset_by_presence_witness :
  semitoneOffsetOf (lit "^^_") = semitoneOffsetOf (lit "_^") /\
  (-1 <= semitoneOffsetOf (lit "^^_") <= 1)%Z.
Proof.
  apply (semitone_offset_by_presence (lit "^^_") (lit "_^")).
  intros c. vm_compute. tauto.
Defined.

(* ------------------------------------------------------------------ *)
(** ** parseTempo and extractMetadata *)

Module TempoFacts.

Import JSFacts.

Lemma takeWhile_app_stop (p : char -> bool) (a b : str) :
  forallb p a = true ->
  match b with [] => True | c :: _ => p c = false end ->
  takeWhile p (a ++ b) = a /\ dropWhile p (a ++ b) = b.
Proof.
  intros Ha Hb. induction a as [|x a IH]; cbn [app].
  - destruct b as [|c r]; [split; reflexivity|].
    cbn. rewrite Hb. split; reflexivity.
  - cbn [forallb] in Ha. apply andb_true_iff in Ha as [Hx Ha].
    cbn. rewrite Hx. destruct (IH Ha) as [-> ->]. split; reflexivity.
Qed.

Lemma tempoMatchAt_no_digit (s : str) :
  match s with [] => True | c :: _ => isDigit c = false end ->
  tempoMatchAt s = None.
Proof.
  intros H. unfold tempoMatchAt. destruct s as [|c r]; [reflexivity|].
  cbn [takeWhile]. now rewrite H.
Qed.

Lemma tempoMatch_skips (pre s : str) :
  existsb isDigit pre = false -> tempoMatch (pre ++ s) = tempoMatch s.
Proof.
  induction pre as [|c pre IH]; [reflexivity|].
  cbn [existsb]. intros H. apply orb_false_iff in H as [Hc Hpre].
  cbn [app tempoMatch]. rewrite tempoMatchAt_no_digit by exact Hc.
  now apply IH.
Qed.

Lemma tempoMatch_digits_only (ds : str) :
  forallb isDigit ds = true -> tempoMatch ds = None.
Proof.
  induction ds as [|d ds IH]; intros H; [reflexivity|].
  cbn [tempoMatch].
  assert (Hat : tempoMatchAt (d :: ds) = None).
  { unfold tempoMatchAt. rewrite (takeWhile_id _ _ H).
    assert (Hd : dropWhile isDigit (d :: ds) = []).
    { clear IH. induction (d :: ds) as [|x l IHl]; [reflexivity|].
      cbn [forallb] in H. apply andb_true_iff in H as [Hx Hl].
      cbn. rewrite Hx. now apply IHl. }
    now rewrite Hd. }
  rewrite Hat. apply IH. cbn [forallb] in H.
  now apply andb_true_iff in H as [_ H].
Qed.

Lemma tempoMatch_no_digit (s : str) :
  existsb isDigit s = false -> tempoMatch s = None.
Proof.
  intros H. rewrite <- (app_nil_r s). now rewrite tempoMatch_skips.
Qed.

Lemma dropWhile_no_digit (p : char -> bool) (s : str) :
  existsb isDigit s = false -> existsb isDigit (dropWhile p s) = false.
Proof.
  induction s as [|c r IH]; [reflexivity|]. cbn [existsb dropWhile].
  intros H. destruct (p c); [|exact H].
  apply orb_false_iff in H as [_ H]. now apply IH.
Qed.

Lemma parseInt_no_digit (s : str) :
  existsb isDigit s = false -> parseInt s = None.
Proof.
  intros H. unfold parseInt, trimStart.
  pose proof (dropWhile_no_digit isSpace s H) as H1.
  destruct (dropWhile isSpace s) as [|c r]; [reflexivity|].
  cbn [existsb] in H1. apply orb_false_iff in H1 as [Hc Hr].
  assert (Hhead : forall t, existsb isDigit t = false ->
            match t with
            | z :: x :: r0 =>
                if ((z =? 48) && ((x =? 120) || (x =? 88)))%N
                then match hexRun r0 with
                     | [] => None
                     | d :: l =>
                         Some (fold_left (fun acc d0 => (acc * 16 + d0)%N)
                                 (d :: l) 0%N)
                     end
                else match takeWhile isDigit t with
                     | [] => None
                     | d :: l => Some (digitsValue (d :: l))
                     end
            | _ => match takeWhile isDigit t with
                   | [] => None
                   | d :: l => Some (digitsValue (d :: l))
                   end
            end = None).
  { intros t Ht. destruct t as [|z [|x r0]]; [reflexivity| |].
    - cbn [existsb] in Ht. apply orb_false_iff in Ht as [Hz _].
      cbn [takeWhile]. now rewrite Hz.
    - cbn [existsb] in Ht. apply orb_false_iff in Ht as [Hz _].
      assert (Hz48 : (z =? 48)%N = false).
      { destruct (N.eqb_spec z 48) as [->|]; [discriminate Hz | reflexivity]. }
      rewrite Hz48. cbn [andb takeWhile]. now rewrite Hz. }
  destruct (c =? 45)%N; [now rewrite (Hhead r Hr)|].
  destruct (c =? 43)%N; [now rewrite (Hhead r Hr)|].
  assert (Hcr : existsb isDigit (c :: r) = false)
    by (cbn [existsb]; now rewrite Hc, Hr).
  now rewrite (Hhead (c :: r) Hcr).
Qed.

End TempoFacts.

(** X11.  A tempo of the form digits "/" digits "=" digits, after any text
    without digits and before anything that is not a digit, is the number
    after the "=" as parseInt reads it: the binary64 nearest to the integer
    the digits spell, which is that integer itself up to 2^53, Infinity
    from 2^1024 - 2^970 on, and in between a binary64 value that no other
    is nearer to the integer. *)
Theorem parseTempo_fraction (pre d1 d2 d3 rest : str) :
  existsb isDigit pre = false ->
  forallb isDigit d1 = true -> d1 <> [] ->
  forallb isDigit d2 = true -> d2 <> [] ->
  forallb isDigit d3 = true -> d3 <> [] ->
  match rest with [] => True | c :: _ => isDigit c = false end ->
  let t :=
    parseTempo (pre ++ d1 ++ [ch "/"] ++ d2 ++ [ch "="] ++ d3 ++ rest) in
  let value := digitsValue d3 in
  ((value <= 2 ^ 53)%N -> t = Finite (Z.of_N value)) /\
  (t = Infinity false <-> (2 ^ 1024 - 2 ^ 970 <= value)%N) /\
  (forall z, t = Finite z ->
     exists v, z = Z.of_N v /\ representable v /\
       forall w, representable w -> (distance v value <= distance w value)%N).
Proof.
  intros Hpre H1 N1 H2 N2 H3 N3 Hrest. cbv zeta.
  assert (Hm : parseTempo
                 (pre ++ d1 ++ [ch "/"] ++ d2 ++ [ch "="] ++ d3 ++ rest)
               = signed false (digitsValue d3)).
  { apply HeaderFacts.parseTempo_match.
    rewrite TempoFacts.tempoMatch_skips by exact Hpre.
    assert (Hat : tempoMatchAt (d1 ++ [ch "/"] ++ d2 ++ [ch "="] ++ d3 ++ rest)
                  = Some d3).
    { unfold tempoMatchAt.
      destruct (TempoFacts.takeWhile_app_stop isDigit d1
                  ([ch "/"] ++ d2 ++ [ch "="] ++ d3 ++ rest) H1 eq_refl)
        as [-> ->].
      destruct d1 as [|x1 d1']; [congruence|].
      cbn [app]. rewrite N.eqb_refl.
      destruct (TempoFacts.takeWhile_app_stop isDigit d2
                  (ch "=" :: d3 ++ rest) H2 eq_refl) as [-> ->].
      destruct d2 as [|x2 d2']; [congruence|].
      cbn [app]. rewrite N.eqb_refl.
      destruct (TempoFacts.takeWhile_app_stop isDigit d3 rest H3 Hrest)
        as [-> _].
      destruct d3; [congruence | reflexivity]. }
    destruct (d1 ++ [ch "/"] ++ d2 ++ [ch "="] ++ d3 ++ rest) eqn:E;
      cbn [tempoMatch]; now rewrite Hat. }
  rewrite Hm. apply NumberFacts.signed_rounded.
Qed.

Lemma parseTempo_fraction_witness :
  parseTempo (lit " " ++ lit "1" ++ [ch "/"] ++ lit "4" ++ [ch "="]
              ++ lit "120" ++ lit " bpm")
  = Finite 120%Z.
Proof.
  refine (proj1 (parseTempo_fraction (lit " ") (lit "1") (lit "4")
                   (lit "120") (lit " bpm") _ _ _ _ _ _ _ _) _);
    vm_compute; try reflexivity; discriminate.
Defined.

(** X12.  A tempo that is a run of digits is that number as parseInt reads
    it (the integer itself up to 2^53, Infinity from 2^1024 - 2^970 on, in
    between a binary64 value that no other is nearer to the integer); a
    tempo without any digit is the default 120. *)
Theorem parseTempo_number_or_default (tempoString : str) :
  (forallb isDigit tempoString = true -> tempoString <> [] ->
   let t := parseTempo tempoString in
   let value := digitsValue tempoString in
   ((value <= 2 ^ 53)%N -> t = Finite (Z.of_N value)) /\
   (t = Infinity false <-> (2 ^ 1024 - 2 ^ 970 <= value)%N) /\
   (forall z, t = Finite z ->
      exists v, z = Z.of_N v /\ representable v /\
        forall w, representable w ->
          (distance v value <= distance w value)%N)) /\
  (existsb isDigit tempoString = false ->
   parseTempo tempoString = Finite 120%Z).
Proof.
  split.
  - intros Hd Hne. cbv zeta. unfold parseTempo.
    rewrite (TempoFacts.tempoMatch_digits_only _ Hd).
    rewrite (JSFacts.parseInt_digits _ Hd Hne).
    apply NumberFacts.signed_rounded.
  - intros Hno. unfold parseTempo.
    rewrite (TempoFacts.tempoMatch_no_digit _ Hno).
    now rewrite (TempoFacts.parseInt_no_digit _ Hno).
Qed.

Lemma parseTempo_number_or_default_witness :
  parseTempo (lit "90") = Finite 90%Z /\
  parseTempo (lit "allegro") = Finite 120%Z.
Proof.
  split.
  - refine (proj1 (proj1 (parseTempo_number_or_default (lit "90")) _ _) _);
      vm_compute; try reflexivity; discriminate.
  - apply (proj2 (parseTempo_number_or_default (lit "allegro"))).
    vm_compute. reflexivity.
Defined.

Module TrimFacts.

Import JSFacts.

Lemma dropWhile_head (p : char -> bool) (s : str) :
  match dropWhile p s with [] => True | x :: _ => p x = false end.
Proof.
  induction s as [|c r IH]; cbn [dropWhile]; [exact I|].
  destruct (p c) eqn:E; [exact IH | exact E].
Qed.

Lemma dropWhile_fixed (p : char -> bool) (s : str) :
  match s with [] => True | x :: _ => p x = false end -> dropWhile p s = s.
Proof.
  destruct s as [|x r]; [reflexivity|]. cbn [dropWhile]. now intros ->.
Qed.

Lemma dropWhile_twice (p : char -> bool) (s : str) :
  dropWhile p (dropWhile p s) = dropWhile p s.
Proof. apply dropWhile_fixed, dropWhile_head. Qed.

Lemma trimEnd_prefix (t : str) :
  t = trimEnd t ++ rev (takeWhile isSpace (rev t)).
Proof.
  unfold trimEnd. rewrite <- rev_app_distr, takeWhile_dropWhile.
  now rewrite rev_involutive.
Qed.

Lemma dropWhile_In (p : char -> bool) (s : str) (x : char) :
  In x (dropWhile p s) -> In x s.
Proof.
  induction s as [|c r IH]; cbn [dropWhile]; [tauto|].
  destruct (p c); [|tauto]. intros H. right. now apply IH.
Qed.

Lemma skipn_In (n : nat) (s : str) (x : char) : In x (skipn n s) -> In x s.
Proof.
  intros H. rewrite <- (firstn_skipn n s). apply in_or_app. now right.
Qed.

Lemma trim_In (s : str) (x : char) : In x (trim s) -> In x s.
Proof.
  unfold trim, trimEnd, trimStart. intros H. apply in_rev in H.
  apply dropWhile_In in H. apply in_rev in H. now apply dropWhile_In in H.
Qed.

(** Trimming leaves a text that trimming does not change. *)
Lemma trim_idempotent (s : str) : trim (trim s) = trim s.
Proof.
  unfold trim at 1.
  assert (Hstart : trimStart (trim s) = trim s).
  { unfold trimStart. apply dropWhile_fixed.
    unfold trim. pose proof (trimEnd_prefix (trimStart s)) as Hp.
    pose proof (dropWhile_head isSpace s) as Hh. fold (trimStart s) in Hh.
    destruct (trimEnd (trimStart s)) as [|x u]; [exact I|].
    rewrite Hp in Hh. exact Hh. }
  rewrite Hstart. unfold trim, trimEnd.
  now rewrite rev_involutive, dropWhile_twice.
Qed.

Lemma splitOn_pieces (p : char -> bool) (s seg : str) :
  In seg (splitOn p s) -> existsb p seg = false.
Proof.
  revert seg. induction s as [|c r IH]; intros seg; cbn [splitOn].
  - intros [<-|[]]. reflexivity.
  - destruct (p c) eqn:E.
    + intros [<-|H]; [reflexivity | now apply IH].
    + destruct (splitOn p r) as [|l ls] eqn:El.
      * intros [<-|[]]. cbn. now rewrite E.
      * intros [<-|H].
        -- cbn [existsb]. rewrite E. apply IH. now left.
        -- apply IH. now right.
Qed.

Lemma existsb_false_In (p : char -> bool) (s : str) :
  existsb p s = false -> forall x, In x s -> p x = false.
Proof.
  intros H x Hx. destruct (p x) eqn:E; [|reflexivity].
  assert (existsb p s = true) by (apply existsb_exists; eauto). congruence.
Qed.

Lemma In_existsb_false (p : char -> bool) (s : str) :
  (forall x, In x s -> p x = false) -> existsb p s = false.
Proof.
  intros H. destruct (existsb p s) eqn:E; [|reflexivity].
  apply existsb_exists in E. destruct E as [x [Hx E]].
  rewrite (H x Hx) in E. discriminate.
Qed.

Lemma percent_found (seg : str) :
  negb (eqb (dropWhile (fun c => negb (c =? ch "%")%N) seg) [])
  = existsb (fun c => (c =? ch "%")%N) seg.
Proof.
  induction seg as [|c r IH]; [reflexivity|].
  cbn [dropWhile existsb]. destruct (c =? ch "%")%N; cbn [negb orb].
  - rewrite eqb_nil. reflexivity.
  - exact IH.
Qed.

End TrimFacts.

(** X13.  The metadata of a text: one comment for every line that holds a
    percent sign; each comment is trimmed and free of line breaks; the bar
    count is the number of bar characters of the whole text. *)
Theorem extractMetadata_comments (abcString : str) :
  let md := extractMetadata abcString in
  List.length (comments md) =
    List.length (filter (existsb (fun c => (c =? ch "%")%N))
                   (splitOn isLineTerminator abcString)) /\
  (forall c, In c (comments md) ->
     trim c = c /\ existsb isLineTerminator c = false /\
     forall x, In x c -> In x abcString) /\
  barCount md = occurrences (ch "|") abcString /\
  barCount md <= List.length abcString.
Proof.
  cbv zeta. unfold extractMetadata. cbn [comments barCount].
  split; [|split; [|split]].
  - rewrite length_map. unfold commentMatches.
    induction (splitOn isLineTerminator abcString) as [|seg segs IH];
      [reflexivity|].
    cbn [map filter]. rewrite TrimFacts.percent_found.
    destruct (existsb (fun c => (c =? ch "%")%N) seg);
      cbn [List.length]; now rewrite IH.
  - intros c Hc. apply in_map_iff in Hc. destruct Hc as [m [<- Hm]].
    unfold commentMatches in Hm. apply filter_In in Hm as [Hm _].
    apply in_map_iff in Hm. destruct Hm as [seg [<- Hseg]].
    assert (Hsub : forall x,
              In x (trim (substring 1
                      (dropWhile (fun c => negb (c =? ch "%")%N) seg))) ->
              In x seg).
    { intros x Hx. apply TrimFacts.trim_In in Hx. unfold substring in Hx.
      apply TrimFacts.skipn_In in Hx. now apply TrimFacts.dropWhile_In in Hx. }
    split; [apply TrimFacts.trim_idempotent|]. split.
    + apply TrimFacts.In_existsb_false. intros x Hx.
      apply (TrimFacts.existsb_false_In isLineTerminator seg);
        [now apply (TrimFacts.splitOn_pieces _ abcString) | now apply Hsub].
    + intros x Hx. apply Hsub in Hx. clear Hsub.
      revert seg Hseg Hx.
      induction abcString as [|a r IH]; intros seg Hseg Hx.
      * cbn in Hseg. destruct Hseg as [<-|[]]. destruct Hx.
      * cbn [splitOn] in Hseg. destruct (isLineTerminator a).
        -- destruct Hseg as [<-|Hseg]; [destruct Hx|].
           right. now apply (IH seg).
        -- destruct (splitOn isLineTerminator r) as [|l ls] eqn:El.
           ++ destruct Hseg as [<-|[]]. destruct Hx as [<-|[]]. now left.
           ++ destruct Hseg as [<-|Hseg].
              ** destruct Hx as [<-|Hx]; [now left|].
                 right. apply (IH l); [now left | exact Hx].
              ** right. apply (IH seg); [now right | exact Hx].
  - reflexivity.
  - apply filter_length_le.
Qed.

Example extractMetadata_sample :
  extractMetadata (text ["C D | E % una nota "; "%x"; "F|"]%string) =
  {| comments := [lit "una nota"; lit "x"]; barCount := 2 |}.
Proof. reflexivity. Qed.

Lemma extractMetadata_comments_witness :
  trim (lit "x") = lit "x" /\ existsb isLineTerminator (lit "x") = false /\
  forall y, In y (lit "x") -> In y (text ["C|"; "%x"]%string).
Proof.
  destruct (extractMetadata_comments (text ["C|"; "%x"]%string))
    as (_ & H & _).
  apply (H (lit "x")). vm_compute. left. reflexivity.
Defined.

(* ------------------------------------------------------------------ *)
(** ** Further properties of the generator *)

Module PitchFacts.

Import JSFacts.

Lemma decode_ascii (bs : list N) :
  Forall (fun b => (b < 128)%N) bs -> decode bs = bs.
Proof.
  induction 1 as [|b bs Hb _ IH]; [reflexivity|].
  cbn [decode]. destruct (N.ltb_spec b 128); [|lia]. now rewrite IH.
Qed.

Lemma bytes_of_inj (s t : string) : bytes_of s = bytes_of t -> s = t.
Proof.
  unfold bytes_of. intros H.
  rewrite <- (string_of_list_ascii_of_string s),
          <- (string_of_list_ascii_of_string t).
  f_equal. revert H.
  generalize (list_ascii_of_string s), (list_ascii_of_string t).
  intros l1. induction l1 as [|a l1 IH]; intros [|b l2]; cbn [map];
    try discriminate; [reflexivity|].
  intros H. injection H as Hab Hl. f_equal; [|now apply IH].
  rewrite <- (ascii_N_embedding a), <- (ascii_N_embedding b). now f_equal.
Qed.

Lemma string_of_uint_plain (d : Decimal.uint) :
  Forall plain (bytes_of (NilEmpty.string_of_uint d)).
Proof.
  unfold bytes_of.
  induction d; cbn; constructor; try assumption;
    unfold plain; cbn; lia.
Qed.

Lemma string_of_int_plain (d : Decimal.int) :
  Forall plain (bytes_of (NilEmpty.string_of_int d)).
Proof.
  destruct d as [u|u]; cbn [NilEmpty.string_of_int].
  - apply string_of_uint_plain.
  - unfold bytes_of. cbn. constructor; [right; reflexivity|].
    apply string_of_uint_plain.
Qed.

Lemma ofZ_plain (z : Z) : Forall plain (ofZ z).
Proof.
  unfold ofZ, lit. pose proof (string_of_int_plain (Z.to_int z)) as H.
  rewrite decode_ascii; [exact H|].
  eapply Forall_impl; [|exact H]. unfold plain. intros c Hc. lia.
Qed.

Lemma ofZ_inj (a b : Z) : ofZ a = ofZ b -> a = b.
Proof.
  unfold ofZ, lit. intros H.
  rewrite !decode_ascii in H.
  - apply bytes_of_inj in H. apply DecimalZ.to_int_inj.
    assert (Hs : Some (Z.to_int a) = Some (Z.to_int b)).
    { rewrite <- !NilEmpty.isi. now rewrite H. }
    now injection Hs.
  - eapply Forall_impl; [|apply string_of_int_plain].
    unfold plain. intros c Hc. lia.
  - eapply Forall_impl; [|apply string_of_int_plain].
    unfold plain. intros c Hc. lia.
Qed.

Lemma noteNames_NoDup : NoDup noteNames.
Proof.
  vm_compute.
  repeat (constructor;
          [cbn [In]; intros H;
           repeat (destruct H as [H|H]; [discriminate H|]); exact H|]).
  constructor.
Qed.

(** A name of the table followed by a printed integer can be read back in
    one way only. *)
Lemma name_app_inj (n1 n2 o1 o2 : str) :
  In n1 noteNames -> In n2 noteNames -> Forall plain o1 -> Forall plain o2 ->
  n1 ++ o1 = n2 ++ o2 -> n1 = n2 /\ o1 = o2.
Proof.
  intros H1 H2 P1 P2 H.
  vm_compute in H1, H2.
  repeat (destruct H1 as [<-|H1]); try contradiction;
    repeat (destruct H2 as [<-|H2]); try contradiction;
    cbn [app] in H; try discriminate H;
    inversion H; subst; try (split; reflexivity);
    exfalso;
    match goal with
    | P : Forall plain (35%N :: _) |- _ =>
        inversion P as [|? ? Hc _]; unfold plain in Hc; lia
    end.
Qed.

Lemma nameAt_Some (i : Z) (name : str) :
  nameAt i = Some name ->
  (0 <= i < 12)%Z /\ nth_error noteNames (Z.to_nat i) = Some name.
Proof.
  unfold nameAt. destruct (Z.ltb_spec i 0) as [Hlt|Hge]; [discriminate|].
  intros H. split; [|exact H]. split; [lia|].
  assert (Hl : Z.to_nat i < List.length noteNames).
  { apply nth_error_Some. congruence. }
  cbn in Hl. lia.
Qed.

Lemma rem_is_mod (n : Z) : (0 <= Z.rem n 12)%Z -> Z.rem n 12 = (n mod 12)%Z.
Proof.
  intros H. destruct (Z_lt_le_dec n 0) as [Hn|Hn].
  - pose proof (Z.rem_nonpos n 12 ltac:(lia) ltac:(lia)) as Hr.
    assert (H0 : Z.rem n 12 = 0%Z) by lia.
    rewrite H0. symmetry. apply Z.mod_divide; [lia|].
    apply Z.rem_divide; [lia | exact H0].
  - apply Z.rem_mod_nonneg; lia.
Qed.

End PitchFacts.

(** X16.  Two MIDI numbers with the same pitch name are the same number: the
    name can be read back.  (Numbers whose pitch is not a name are left
    out.) *)
Theorem midiNoteToPitch_injective (n1 n2 : Z) :
  midiNoteToPitch n1 <> PitchNaN ->
  midiNoteToPitch n1 = midiNoteToPitch n2 -> n1 = n2.
Proof.
  unfold midiNoteToPitch. cbv zeta.
  destruct (nameAt (Z.rem n1 12)) as [name1|] eqn:E1; [|congruence].
  destruct (nameAt (Z.rem n2 12)) as [name2|] eqn:E2; [|discriminate].
  intros _ H. injection H as H.
  apply PitchFacts.nameAt_Some in E1 as [R1 N1].
  apply PitchFacts.nameAt_Some in E2 as [R2 N2].
  destruct (PitchFacts.name_app_inj name1 name2 _ _
              (nth_error_In _ _ N1) (nth_error_In _ _ N2)
              (PitchFacts.ofZ_plain _) (PitchFacts.ofZ_plain _) H)
    as [Hname Ho].
  apply PitchFacts.ofZ_inj in Ho.
  assert (Hi : Z.to_nat (Z.rem n1 12) = Z.to_nat (Z.rem n2 12)).
  { apply (proj1 (NoDup_nth_error noteNames) PitchFacts.noteNames_NoDup).
    - apply nth_error_Some. congruence.
    - congruence. }
  assert (Hr : Z.rem n1 12 = Z.rem n2 12) by lia.
  rewrite (PitchFacts.rem_is_mod n1), (PitchFacts.rem_is_mod n2) in Hr by lia.
  rewrite (Z.div_mod n1 12), (Z.div_mod n2 12) by lia.
  lia.
Qed.

Lemma midiNoteToPitch_injective_witness : (12 * 5)%Z = 60%Z.
Proof.
  apply (midiNoteToPitch_injective (12 * 5) 60).
  - vm_compute. discriminate.
  - vm_compute. reflexivity.
Defined.

Module EventFacts.

Lemma ticks_in_table (d : JS.number Q) :
  In (ticksOrDefault d)
     [thirtySecond; sixteenth; eighth; quarter; half; whole].
Proof.
  unfold ticksOrDefault, durationToTicks. cbn [ticksEntry].
  unfold thirtySecond, sixteenth, eighth, quarter, half, whole.
  repeat match goal with
         | |- context [isKey ?a ?b] => destruct (isKey a b)
         end; cbn [In]; tauto.
Qed.

Lemma addEvents_app (track : MidiTracks.Track) (midiEvents : list NoteEvent) :
  MidiTracks.addEvents track midiEvents
  = track ++ map MidiTracks.NoteEventOf midiEvents.
Proof.
  unfold MidiTracks.addEvents. revert track.
  induction midiEvents as [|e es IH]; intros track; cbn [fold_left map].
  - now rewrite app_nil_r.
  - now rewrite IH, <- app_assoc.
Qed.

End EventFacts.

(** X17.  The events made from a list of notes: one per note and in the notes'
    order, each at velocity 100 on channel 0 with one of the six tick
    tokens; when every MIDI number is inside 0..127 every pitch is a name of
    the table followed by an octave from -1 to 9. *)
Theorem convertNotesToEvents_shape (notes : list Note) (h : Header) :
  let events := convertNotesToEvents notes h in
  List.length events = List.length notes /\
  (forall i n, nth_error notes i = Some n ->
     nth_error events i = Some (eventOf n)) /\
  (forall e, In e events ->
     velocity e = 100%Z /\ channel e = 0%Z /\
     In (ticks e) [thirtySecond; sixteenth; eighth; quarter; half; whole]) /\
  ((forall n, In n notes -> (0 <= midiNote n <= 127)%Z) ->
   forall e, In e events ->
     exists name o, In name noteNames /\ (-1 <= o <= 9)%Z /\
                    pitch e = PitchName (name ++ ofZ o)).
Proof.
  cbv zeta. rewrite GeneratorFacts.convertNotesToEvents_map.
  split; [apply length_map|]. split; [|split].
  - intros i n Hi. now apply map_nth_error.
  - intros e He. apply in_map_iff in He. destruct He as [n [<- _]].
    cbn [eventOf velocity channel ticks].
    split; [reflexivity|]. split; [reflexivity|].
    apply EventFacts.ticks_in_table.
  - intros Hrange e He. apply in_map_iff in He. destruct He as [n [<- Hn]].
    specialize (Hrange n Hn). cbn [eventOf pitch].
    unfold midiNoteToPitch. cbv zeta.
    rewrite (Z.rem_mod_nonneg (midiNote n) 12) by lia.
    destruct (GeneratorFacts.nameAt_in_table (midiNote n mod 12))
      as [name [H1 H2]].
    { apply Z.mod_pos_bound. lia. }
    exists name, (midiNote n / 12 - 1)%Z. rewrite H1.
    split; [now apply nth_error_In in H2|]. split; [|reflexivity].
    assert (0 <= midiNote n / 12)%Z by (apply Z.div_pos; lia).
    assert (midiNote n / 12 < 11)%Z by (apply Z.div_lt_upper_bound; lia).
    lia.
Qed.

Lemma convertNotesToEvents_shape_witness :
  exists name o, In name noteNames /\ (-1 <= o <= 9)%Z /\
    pitch (eventOf {| note := lit "C"; midiNote := 61; duration := Finite 1%Q;
                      accidental := lit "^"; octave := 4 |})
    = PitchName (name ++ ofZ o).
Proof.
  destruct (convertNotesToEvents_shape (body (parse (lit "C^")))
              (header (parse (lit "C^")))) as (_ & _ & _ & H).
  apply H.
  - intros n Hn. vm_compute in Hn. destruct Hn as [<-|[]].
    cbn. lia.
  - vm_compute. left. reflexivity.
Defined.

(** *** The tracks *)

Module TrackFacts.

Lemma generateEvents_unfold (pm : ParsedMusic) :
  generateEvents pm =
  TempoEvent (if isZero (tempo (header pm)) then Finite 120%Z
              else tempo (header pm))
  :: ProgramChangeEvent (ProgramNumber 0)
  :: map NoteEventOf (map eventOf (body pm)).
Proof.
  unfold generateEvents, generateTrack. cbn [map eventOfTrackEvent].
  rewrite GeneratorFacts.convertNotesToEvents_map, map_map. reflexivity.
Qed.

Lemma multiTrack_fold (pm : ParsedMusic) (instruments : list str)
  (tracks : list Track) :
  fold_left (multiTrackStep pm) instruments tracks =
  tracks ++
  map (fun i => ProgramChangeEvent (instrumentOrDefault i)
                :: map NoteEventOf (map eventOf (body pm))) instruments.
Proof.
  revert tracks. induction instruments as [|i rest IH]; intros tracks.
  - cbn. now rewrite app_nil_r.
  - cbn [fold_left map]. rewrite IH. unfold multiTrackStep.
    rewrite EventFacts.addEvents_app,
      GeneratorFacts.convertNotesToEvents_map.
    cbn [app]. now rewrite <- app_assoc.
Qed.

End TrackFacts.

(** X18.  generateWithMetadata builds the track of generate behind the text
    events: one for a title that is there and not empty, then one for such
    a composer.  Without either it is the track of generate. *)
Theorem generateWithMetadata_extends_generate (pm : ParsedMusic)
  (md : TextMetadata) :
  generateWithMetadataEvents pm md =
    (if truthy (mdTitle md) then [TextEvent (textOf (mdTitle md))] else [])
    ++ (if truthy (mdComposer md)
        then [TextEvent (textOf (mdComposer md))] else [])
    ++ generateEvents pm /\
  (truthy (mdTitle md) = false -> truthy (mdComposer md) = false ->
   generateWithMetadataEvents pm md = generateEvents pm).
Proof.
  assert (H : generateWithMetadataEvents pm md =
    (if truthy (mdTitle md) then [TextEvent (textOf (mdTitle md))] else [])
    ++ (if truthy (mdComposer md)
        then [TextEvent (textOf (mdComposer md))] else [])
    ++ generateEvents pm).
  { unfold generateWithMetadataEvents. cbv zeta.
    rewrite EventFacts.addEvents_app, TrackFacts.generateEvents_unfold,
      GeneratorFacts.convertNotesToEvents_map.
    destruct (truthy (mdTitle md)), (truthy (mdComposer md));
      cbn [app]; reflexivity. }
  split; [exact H|]. intros H1 H2. rewrite H, H1, H2. reflexivity.
Qed.

Lemma generateWithMetadata_extends_generate_witness :
  generateWithMetadataEvents (parse Tunes.scale)
    {| mdTitle := Some []; mdComposer := None |}
  = generateEvents (parse Tunes.scale).
Proof.
  apply (proj2 (generateWithMetadata_extends_generate (parse Tunes.scale)
                  {| mdTitle := Some []; mdComposer := None |}));
    reflexivity.
Defined.

(** X19.  generateMultiTrack builds one track per instrument name: a program
    change and then the note events of generate, the same in every track.
    No track holds a tempo event, so the header's tempo is not in a
    multi-track file; for the one name "piano" the track is that of
    generate without its tempo event. *)
Theorem generateMultiTrack_tracks (pm : ParsedMusic) (instruments : list str) :
  let tracks := generateMultiTrackTracks pm instruments in
  List.length tracks = List.length instruments /\
  (forall i name, nth_error instruments i = Some name ->
     nth_error tracks i =
       Some (ProgramChangeEvent (instrumentOrDefault name)
             :: map NoteEventOf (convertNotesToEvents (body pm) (header pm)))) /\
  (forall track e, In track tracks -> In e track ->
     forall bpm, e <> TempoEvent bpm) /\
  [generateEvents pm] =
    map (cons (TempoEvent (if isZero (tempo (header pm)) then Finite 120%Z
                           else tempo (header pm))))
        (generateMultiTrackTracks pm [lit "piano"]).
Proof.
  cbv zeta. unfold generateMultiTrackTracks.
  rewrite !TrackFacts.multiTrack_fold. cbn [app].
  rewrite GeneratorFacts.convertNotesToEvents_map.
  split; [apply length_map|]. split; [|split].
  - intros i name Hi.
    apply (map_nth_error
             (fun i0 => ProgramChangeEvent (instrumentOrDefault i0)
                        :: map NoteEventOf (map eventOf (body pm)))) in Hi.
    exact Hi.
  - intros track e Ht He bpm. apply in_map_iff in Ht.
    destruct Ht as [name [<- _]]. destruct He as [<-|He]; [discriminate|].
    apply in_map_iff in He. destruct He as [x [<- _]]. discriminate.
  - rewrite TrackFacts.generateEvents_unfold. reflexivity.
Qed.

Lemma generateMultiTrack_tracks_witness :
  nth_error (generateMultiTrackTracks (parse Tunes.scale)
               [lit "flute"; lit "oboe"]) 1
  = Some (ProgramChangeEvent (instrumentOrDefault (lit "oboe"))
          :: map NoteEventOf
               (convertNotesToEvents (body (parse Tunes.scale))
                  (header (parse Tunes.scale)))).
Proof.
  destruct (generateMultiTrack_tracks (parse Tunes.scale)
              [lit "flute"; lit "oboe"]) as (_ & H & _).
  apply (H 1 (lit "oboe")). reflexivity.
Defined.

(** X20.  The program of an instrument name: the table's number for the five
    names it has, 0 for any other name that no object inherits. *)
Theorem instrumentOrDefault_table (name : str) :
  (forall n, In (name, n) instruments ->
     instrumentOrDefault name = ProgramNumber n) /\
  ((forall n, ~ In (name, n) instruments) ->
   ~ In name objectPrototypeMembers ->
   instrumentOrDefault name = ProgramNumber 0).
Proof.
  split.
  - intros n Hn. vm_compute in Hn.
    repeat (destruct Hn as [Hn|Hn];
            [injection Hn as <- <-; vm_compute; reflexivity|]).
    destruct Hn.
  - intros Hno Hinh. unfold instrumentOrDefault.
    assert (Hown : ownInstrument name instruments = None).
    { unfold instruments in *. cbn [ownInstrument].
      repeat match goal with
      | |- context [eqb name ?k] =>
          destruct (eqb name k) eqn:E;
          [apply JSFacts.eqb_true_iff in E; subst name;
           exfalso; eapply Hno; cbn [In]; eauto 10 | clear E]
      end. reflexivity. }
    rewrite Hown.
    destruct (existsb (eqb name) objectPrototypeMembers) eqn:E;
      [|reflexivity].
    exfalso. apply Hinh. apply existsb_exists in E.
    destruct E as [k [Hk E]]. apply JSFacts.eqb_true_iff in E. now subst.
Qed.

Lemma instrumentOrDefault_table_witness :
  instrumentOrDefault (lit "violin") = ProgramNumber 40 /\
  instrumentOrDefault (lit "oboe") = ProgramNumber 0.
Proof.
  split.
  - apply (proj1 (instrumentOrDefault_table (lit "violin")) 40%Z).
    vm_compute. right. left. reflexivity.
  - apply (proj2 (instrumentOrDefault_table (lit "oboe"))).
    + intros n H. vm_compute in H.
      repeat (destruct H as [H|H]; [discriminate H|]). exact H.
    + intros H. vm_compute in H.
      repeat (destruct H as [H|H]; [discriminate H|]). exact H.
Defined.

(* ------------------------------------------------------------------ *)
(** ** Properties of the converter *)

Module ConverterFacts.

Lemma msgEmpty_fixed :
  msgEmpty <> msgNoNotes /\ msgEmpty <> msgNoKey /\ msgEmpty <> msgNoMeter.
Proof. repeat split; intros H; vm_compute in H; discriminate H. Qed.

Lemma msgEmpty_entry (x : str) : msgEmpty <> msgInvalidChars ++ x.
Proof. intros H. vm_compute in H. discriminate H. Qed.

Lemma msgEmpty_invalidEntry (s : str) : msgEmpty <> invalidEntry s.
Proof. unfold invalidEntry. apply msgEmpty_entry. Qed.

Lemma msgEmpty_not_advice (s : str) : ~ In msgEmpty (adviceFor s).
Proof.
  intros H. apply ValidateFacts.adviceFor_In in H.
  destruct msgEmpty_fixed as (F1 & F2 & F3).
  destruct H as [[_ H]|[[_ H]|[[_ H]|[_ H]]]].
  - exact (F1 H).
  - exact (F2 H).
  - exact (F3 H).
  - exact (msgEmpty_invalidEntry s H).
Qed.

Lemma length_zero_iff (A : Type) (l : list A) :
  (List.length l =? 0) = true <-> l = [].
Proof.
  rewrite Nat.eqb_eq. split; [|intros ->; reflexivity]. now destruct l.
Qed.

(** No entry is collected exactly when every note is inside 0..127 with a
    positive duration. *)
Lemma collect_nil_iff (numberToString : JS.number Q -> str) (notes : list Note) :
  collect numberToString 0 notes = [] <->
  forall n, In n notes -> (0 <= midiNote n <= 127)%Z /\ aboveZero (duration n).
Proof.
  split.
  - intros Hnil n Hn. apply In_nth_error in Hn. destruct Hn as [i Hi].
    assert (Hno : forall e, ~ In e (offences numberToString i n)).
    { intros e He.
      assert (Hc : In e (collect numberToString 0 notes)).
      { apply GeneratorFacts.collect_In. exists i, n. now split. }
      rewrite Hnil in Hc. exact Hc. }
    split.
    + destruct (Z_lt_dec (midiNote n) 0) as [H1|H1];
        [|destruct (Z_gt_dec (midiNote n) 127) as [H2|H2]]; [| |lia].
      * exfalso. apply (Hno (msgOutOfRange i n)).
        apply GeneratorFacts.offences_In. left. split; [reflexivity|].
        now left.
      * exfalso. apply (Hno (msgOutOfRange i n)).
        apply GeneratorFacts.offences_In. left. split; [reflexivity|].
        now right.
    + destruct (NumberFacts.aboveZero_or_atMostZero (duration n)) as [H|H]; [exact H|].
      exfalso. apply (Hno (msgBadDuration numberToString i n)).
      apply GeneratorFacts.offences_In. right. now split.
  - intros Hok.
    destruct (collect numberToString 0 notes) as [|e es] eqn:Ec;
      [reflexivity|].
    assert (He : In e (collect numberToString 0 notes)).
    { rewrite Ec. now left. }
    apply GeneratorFacts.collect_In in He.
    destruct He as [j [n [Hj He]]].
    apply GeneratorFacts.offences_In in He.
    destruct (Hok n (nth_error_In _ _ Hj)) as [Hr Hd].
    destruct He as [[_ [H|H]]|[_ H]]; [lia | lia |].
    exfalso. exact (NumberFacts.aboveZero_not_atMostZero _ Hd H).
Qed.

Lemma validateMidiNotes_collect (numberToString : JS.number Q -> str)
  (notes : list Note) :
  validateMidiNotes numberToString notes =
  {| isValid := List.length (collect numberToString 0 notes) =? 0;
     errors := collect numberToString 0 notes |}.
Proof.
  unfold validateMidiNotes.
  now rewrite GeneratorFacts.validateFrom_collect.
Qed.

End ConverterFacts.

(** X21.  validateInput gives the verdict of the parser's validate on every
    text.  For a blank text it answers with its own entry (one for the
    empty text, another for white space only), never with the parser's
    entry for an empty notation; for any other text it is validate. *)
Theorem validateInput_verdict (abcString : str) :
  isValid (validateInput abcString) = isValid (validate abcString) /\
  ~ In msgEmpty (errors (validateInput abcString)) /\
  (abcString = [] -> errors (validateInput abcString) = [msgNotText]) /\
  (abcString <> [] -> trim abcString = [] ->
   errors (validateInput abcString) = [msgInputEmpty]) /\
  (trim abcString <> [] -> validateInput abcString = validate abcString).
Proof.
  unfold validateInput.
  destruct (list_eq_dec N.eq_dec (trim abcString) []) as [Hb|Hne].
  - rewrite (ValidateFacts.validate_blank _ Hb).
    destruct (eqb abcString []) eqn:E.
    + apply JSFacts.eqb_true_iff in E. subst abcString.
      cbn [isValid errors].
      split; [reflexivity|]. split; [|split; [|split]].
      * intros [H|[]]. vm_compute in H. discriminate H.
      * intros _. reflexivity.
      * intros H. now contradiction H.
      * intros H. contradiction.
    + rewrite Hb. cbn [List.length Nat.eqb isValid errors].
      split; [reflexivity|]. split; [|split; [|split]].
      * intros [H|[]]. vm_compute in H. discriminate H.
      * intros ->. discriminate E.
      * intros _ _. reflexivity.
      * intros H. contradiction.
  - assert (E : eqb abcString [] = false).
    { destruct (eqb abcString []) eqn:E; [|reflexivity].
      apply JSFacts.eqb_true_iff in E. subst. now contradiction Hne. }
    assert (El : (List.length (trim abcString) =? 0) = false).
    { destruct (trim abcString) eqn:Et; [|reflexivity].
      exfalso. now apply Hne. }
    rewrite E, El. cbv zeta.
    split; [reflexivity|]. split; [|split; [|split]].
    + rewrite (ValidateFacts.validate_nonblank _ Hne). cbn [errors].
      apply ConverterFacts.msgEmpty_not_advice.
    + intros ->. now contradiction Hne.
    + intros _ Hb. contradiction.
    + reflexivity.
Qed.

Lemma validateInput_verdict_witness :
  errors (validateInput (lit " ")) = [msgInputEmpty] /\
  validateInput Tunes.scale = validate Tunes.scale.
Proof.
  destruct (validateInput_verdict (lit " ")) as (_ & _ & _ & H & _).
  destruct (validateInput_verdict Tunes.scale) as (_ & _ & _ & _ & H').
  split.
  - apply H; [vm_compute; discriminate | vm_compute; reflexivity].
  - apply H'. vm_compute. discriminate.
Defined.

(** X22.  validateMusicStructure on a parse result: with no note the report is
    the single entry for missing notes; with notes it is the report of
    validateMidiNotes.  It is valid exactly when there is a note and every
    note is inside 0..127 with a positive duration. *)
Theorem validateMusicStructure_report (numberToString : JS.number Q -> str)
  (pm : ParsedMusic) :
  let r := validateMusicStructure numberToString pm in
  (body pm = [] ->
   r = {| isValid := false; errors := [msgNoNotesInMusic] |}) /\
  (body pm <> [] -> r = validateMidiNotes numberToString (body pm)) /\
  (isValid r = true <->
   body pm <> [] /\
   forall n, In n (body pm) ->
     (0 <= midiNote n <= 127)%Z /\ aboveZero (duration n)).
Proof.
  cbv zeta. unfold validateMusicStructure. cbv zeta.
  destruct (body pm) as [|n0 ns] eqn:Eb.
  - split; [reflexivity|]. split; [congruence|].
    cbn. split; [discriminate | intros [H _]; congruence].
  - rewrite ConverterFacts.validateMidiNotes_collect.
    cbn [isValid errors].
    pose proof (ConverterFacts.collect_nil_iff numberToString (n0 :: ns))
      as Hc.
    pose proof (ConverterFacts.length_zero_iff _
                  (collect numberToString 0 (n0 :: ns))) as Hz.
    destruct (List.length (collect numberToString 0 (n0 :: ns)) =? 0)
      eqn:El; cbn [negb app].
    + assert (Hnil : collect numberToString 0 (n0 :: ns) = [])
        by now apply Hz.
      rewrite Hnil. split; [congruence|]. split; [reflexivity|].
      cbn. split; [|reflexivity]. intros _. split; [discriminate|].
      now apply Hc.
    + split; [congruence|]. split; [now rewrite El|].
      rewrite El. split; [discriminate|]. intros [_ Hall].
      apply Hc in Hall. apply Hz in Hall. congruence.
Qed.

Lemma validateMusicStructure_report_witness :
  validateMusicStructure (fun _ => lit "0") (parse (lit "K:C")) =
  validateMidiNotes (fun _ => lit "0") (body (parse (lit "K:C"))) /\
  validateMusicStructure (fun _ => lit "0") (parse (lit "|")) =
  {| isValid := false; errors := [msgNoNotesInMusic] |}.
Proof.
  destruct (validateMusicStructure_report (fun _ => lit "0")
              (parse (lit "K:C"))) as (_ & H & _).
  destruct (validateMusicStructure_report (fun _ => lit "0")
              (parse (lit "|"))) as (H' & _).
  split.
  - apply H. vm_compute. discriminate.
  - apply H'. vm_compute. reflexivity.
Defined.

Module ConvertFacts.

Section WithEnvironment.

Variable numberToString : JS.number Q -> str.
Variable Buffer : Type.
Variable writer : list Track -> Buffer + str.

Lemma validateInput_same_verdict (s : str) :
  isValid (validateInput s) = isValid (validate s).
Proof.
  unfold validateInput.
  destruct (list_eq_dec N.eq_dec (trim s) []) as [Hb|Hne].
  - rewrite (ValidateFacts.validate_blank _ Hb).
    destruct (eqb s []); cbn [isValid]; [reflexivity|].
    rewrite Hb. cbn [List.length Nat.eqb isValid]. reflexivity.
  - destruct (eqb s []) eqn:E.
    + apply JSFacts.eqb_true_iff in E. subst. now contradiction Hne.
    + destruct (trim s) eqn:Et; [now contradiction Hne | reflexivity].
Qed.

Lemma structure_valid_iff (pm : ParsedMusic) :
  isValid (validateMusicStructure numberToString pm) = true <->
  body pm <> [] /\
  forall n, In n (body pm) ->
    (0 <= midiNote n <= 127)%Z /\ aboveZero (duration n).
Proof.
  unfold validateMusicStructure. cbv zeta.
  destruct (body pm) as [|n0 ns] eqn:Eb.
  - cbn. split; [discriminate | intros [H _]; congruence].
  - rewrite ConverterFacts.validateMidiNotes_collect.
    cbn [isValid errors].
    pose proof (ConverterFacts.collect_nil_iff numberToString (n0 :: ns))
      as Hc.
    pose proof (ConverterFacts.length_zero_iff _
                  (collect numberToString 0 (n0 :: ns))) as Hz.
    destruct (List.length (collect numberToString 0 (n0 :: ns)) =? 0)
      eqn:El; cbn [negb app].
    + cbn. split; [|reflexivity]. intros _. split; [discriminate|].
      apply Hc. now apply Hz.
    + rewrite El. split; [discriminate|]. intros [_ Hall].
      apply Hc in Hall. apply Hz in Hall. congruence.
Qed.

(** The four ways [convert] can end. *)
Lemma convert_cases (history : list (ConversionResult Buffer)) (s : str)
  (options : Options) (elapsed : Z) :
  convert numberToString writer history s options elapsed =
  if negb (isValid (validate s)) then
    (Rejected Buffer msgInvalidInput (errors (validateInput s)), history)
  else if negb (isValid (validateMusicStructure numberToString (parse s)))
  then
    (Rejected Buffer msgInvalidStructure
       (errors (validateMusicStructure numberToString (parse s))), history)
  else
    match writer [generateEvents (parse s)] with
    | inr message => (Crashed Buffer msgConversionError message, history)
    | inl buf =>
        let r := Converted buf
                   {| cmTitle := title (header (parse s));
                      cmKey := key (header (parse s));
                      cmTempo := tempo (header (parse s));
                      cmMeter := meter (header (parse s));
                      noteCount := List.length (body (parse s));
                      cmDuration := elapsed |} in
        (r, history ++ [r])
    end.
Proof.
  unfold convert. cbv zeta. rewrite validateInput_same_verdict.
  destruct (isValid (validate s)); cbn [negb]; [|reflexivity].
  destruct (isValid (validateMusicStructure numberToString (parse s)));
    cbn [negb]; [|reflexivity].
  unfold generate.
  destruct (writer [generateEvents (parse s)]); [|reflexivity].
  unfold optimizeMidi. destruct (optimize options); reflexivity.
Qed.

Lemma convert_history (history : list (ConversionResult Buffer)) (s : str)
  (options : Options) (elapsed : Z) :
  snd (convert numberToString writer history s options elapsed) =
  if success (fst (convert numberToString writer history s options elapsed))
  then history
       ++ [fst (convert numberToString writer history s options elapsed)]
  else history.
Proof.
  rewrite convert_cases.
  destruct (isValid (validate s)); cbn [negb]; [|reflexivity].
  destruct (isValid (validateMusicStructure numberToString (parse s)));
    cbn [negb]; [|reflexivity].
  destruct (writer [generateEvents (parse s)]); reflexivity.
Qed.

Lemma historyAfter_successes (h : list (ConversionResult Buffer))
  (c : Call) :
  forallb (@success Buffer) h = true ->
  forallb (@success Buffer) (historyAfter numberToString writer h c) = true.
Proof.
  intros Hh. destruct c as [s o e| | |]; cbn [historyAfter];
    try exact Hh; [|reflexivity].
  rewrite convert_history.
  destruct (success (fst (convert numberToString writer h s o e))) eqn:E;
    [|exact Hh].
  rewrite forallb_app, Hh. cbn [forallb]. now rewrite E.
Qed.

Lemma historyOf_successes (calls : list Call)
  (h : list (ConversionResult Buffer)) :
  forallb (@success Buffer) h = true ->
  forallb (@success Buffer)
    (fold_left (historyAfter numberToString writer) calls h) = true.
Proof.
  revert h. induction calls as [|c calls IH]; intros h Hh; [exact Hh|].
  cbn [fold_left]. apply IH. now apply historyAfter_successes.
Qed.

Lemma filter_all (A : Type) (p : A -> bool) (l : list A) :
  forallb p l = true -> filter p l = l.
Proof.
  induction l as [|x l IH]; [reflexivity|]. cbn [forallb filter].
  intros H. apply andb_true_iff in H as [Hx Hl]. now rewrite Hx, IH.
Qed.

End WithEnvironment.

Lemma pitch_named (n : Note) :
  (0 <= midiNote n <= 127)%Z ->
  exists name o, In name noteNames /\ (-1 <= o <= 9)%Z /\
                 pitch (eventOf n) = PitchName (name ++ ofZ o).
Proof.
  intros Hrange. cbn [eventOf pitch]. unfold midiNoteToPitch. cbv zeta.
  rewrite (Z.rem_mod_nonneg (midiNote n) 12) by lia.
  destruct (GeneratorFacts.nameAt_in_table (midiNote n mod 12))
    as [name [H1 H2]].
  { apply Z.mod_pos_bound. lia. }
  exists name, (midiNote n / 12 - 1)%Z. rewrite H1.
  split; [now apply nth_error_In in H2|]. split; [|reflexivity].
  assert (0 <= midiNote n / 12)%Z by (apply Z.div_pos; lia).
  assert (midiNote n / 12 < 11)%Z by (apply Z.div_lt_upper_bound; lia).
  lia.
Qed.

End ConvertFacts.

(** X23.  When convert succeeds: validate accepted the text, the parse has at
    least one note and every note is inside 0..127 with a positive
    duration, the buffer is what the writer made of the track of generate,
    the metadata are the header's fields with the number of notes, the
    result is appended to the history, and every pitch handed to the writer
    is a name of the table with an octave from -1 to 9. *)
Theorem convert_success (numberToString : JS.number Q -> str) (Buffer : Type)
  (writer : list Track -> Buffer + str)
  (history history' : list (ConversionResult Buffer)) (abcString : str)
  (options : Options) (elapsed : Z) (buf : Buffer)
  (md : ConversionMetadata) :
  convert numberToString writer history abcString options elapsed
    = (Converted buf md, history') ->
  isValid (validate abcString) = true /\
  body (parse abcString) <> [] /\
  (forall n, In n (body (parse abcString)) ->
     (0 <= midiNote n <= 127)%Z /\ aboveZero (duration n)) /\
  writer [generateEvents (parse abcString)] = inl buf /\
  md = {| cmTitle := title (header (parse abcString));
          cmKey := key (header (parse abcString));
          cmTempo := tempo (header (parse abcString));
          cmMeter := meter (header (parse abcString));
          noteCount := List.length (body (parse abcString));
          cmDuration := elapsed |} /\
  history' = history ++ [Converted buf md] /\
  (forall e, In (NoteEventOf e) (generateEvents (parse abcString)) ->
     exists name o, In name noteNames /\ (-1 <= o <= 9)%Z /\
                    pitch e = PitchName (name ++ ofZ o)).
Proof.
  rewrite ConvertFacts.convert_cases.
  destruct (isValid (validate abcString)) eqn:Ev; cbn [negb];
    [|discriminate].
  destruct (isValid (validateMusicStructure numberToString
                       (parse abcString))) eqn:Es; cbn [negb];
    [|discriminate].
  apply ConvertFacts.structure_valid_iff in Es. destruct Es as [Hne Hall].
  destruct (writer [generateEvents (parse abcString)]) as [b|msg] eqn:Ew;
    [|discriminate].
  cbv zeta. intros H. injection H as <- <- <-.
  repeat (split; [first [reflexivity | assumption]|]).
  intros e He. rewrite TrackFacts.generateEvents_unfold in He.
  destruct He as [He|[He|He]]; [discriminate He | discriminate He|].
  apply in_map_iff in He. destruct He as [x [Hx Hin]].
  injection Hx as <-. apply in_map_iff in Hin. destruct Hin as [n [<- Hn]].
  apply ConvertFacts.pitch_named. now apply Hall.
Qed.

Lemma convert_success_witness :
  isValid (validate (text ["K:C"; "M:4/4"; "C"]%string)) = true /\
  body (parse (text ["K:C"; "M:4/4"; "C"]%string)) <> [].
Proof.
  destruct (convert_success (fun _ => lit "0") nat
              (fun tracks => inl (List.length tracks)) [] 
              [Converted 1 {| cmTitle := lit "Untitled"; cmKey := lit "C";
                              cmTempo := Finite 120%Z; cmMeter := lit "4/4";
                              noteCount := 1; cmDuration := 7 |}]
              (text ["K:C"; "M:4/4"; "C"]%string)
              {| optimize := true |} 7%Z 1
              {| cmTitle := lit "Untitled"; cmKey := lit "C";
                 cmTempo := Finite 120%Z; cmMeter := lit "4/4";
                 noteCount := 1; cmDuration := 7 |})
    as (H1 & H2 & _).
  - vm_compute. reflexivity.
  - split; assumption.
Defined.

(** X24.  How convert ends, for every text: it succeeds exactly when validate
    accepts the text, the parse has a note, every note is inside 0..127
    with a positive duration, and the writer returns a buffer.  In every
    other case the history is left as it was, and the result does not
    depend on the optimize option. *)
Theorem convert_outcomes (numberToString : JS.number Q -> str) (Buffer : Type)
  (writer : list Track -> Buffer + str)
  (history : list (ConversionResult Buffer)) (abcString : str)
  (options : Options) (elapsed : Z) :
  let out := convert numberToString writer history abcString options elapsed in
  (success (fst out) = true <->
   isValid (validate abcString) = true /\
   body (parse abcString) <> [] /\
   (forall n, In n (body (parse abcString)) ->
      (0 <= midiNote n <= 127)%Z /\ aboveZero (duration n)) /\
   exists buf, writer [generateEvents (parse abcString)] = inl buf) /\
  (success (fst out) = false -> snd out = history) /\
  (success (fst out) = true -> snd out = history ++ [fst out]) /\
  (forall options',
     convert numberToString writer history abcString options' elapsed = out).
Proof.
  cbv zeta. split; [|split; [|split]].
  - rewrite ConvertFacts.convert_cases.
    pose proof (ConvertFacts.structure_valid_iff numberToString
                  (parse abcString)) as Hs.
    destruct (isValid (validate abcString)) eqn:Ev; cbn [negb].
    2: { cbn. split; [discriminate | intros [H _]; discriminate H]. }
    destruct (isValid (validateMusicStructure numberToString
                         (parse abcString))) eqn:Es; cbn [negb].
    2: { cbn. split; [discriminate|]. intros (_ & Hne & Hall & _).
         assert (Hf : false = true) by (apply Hs; now split).
         discriminate Hf. }
    destruct (proj1 Hs eq_refl) as [Hne Hall].
    destruct (writer [generateEvents (parse abcString)]) as [b|msg] eqn:Ew.
    + cbn. split; [|reflexivity]. intros _.
      split; [reflexivity|]. split; [exact Hne|]. split; [exact Hall|].
      now exists b.
    + cbn. split; [discriminate|]. intros (_ & _ & _ & [b Hb]).
      discriminate Hb.
  - intros H. now rewrite ConvertFacts.convert_history, H.
  - intros H. now rewrite ConvertFacts.convert_history, H.
  - intros options'. now rewrite !ConvertFacts.convert_cases.
Qed.

Lemma convert_outcomes_witness :
  snd (convert (fun _ => lit "0") (fun tracks => inl (List.length tracks))
         [] (lit "C") {| optimize := false |} 3%Z) = [].
Proof.
  destruct (convert_outcomes (fun _ => lit "0") nat
              (fun tracks => inl (List.length tracks)) []
              (lit "C") {| optimize := false |} 3%Z) as (_ & H & _).
  apply H. vm_compute. reflexivity.
Defined.

(** X25.  The history of a converter, whatever calls were made: it holds
    successful conversions only.  So in its statistics the successful
    conversions are all of them, the failed ones are 0, the success rate is
    100 as soon as there is one conversion (0 before), and the last
    conversion is the last entry. *)
Theorem history_holds_successes (numberToString : JS.number Q -> str) (Buffer : Type)
  (writer : list Track -> Buffer + str) (calls : list Call) :
  let h := historyOf numberToString writer calls in
  let st := getConversionStats h in
  forallb (@success Buffer) h = true /\
  successfulConversions st = totalConversions st /\
  failedConversions st = 0%Z /\
  (h <> [] -> (successRate st == 100)%Q) /\
  (h = [] -> (successRate st == 0)%Q /\ lastConversion st = None) /\
  lastConversion st = nth_error h (List.length h - 1).
Proof.
  cbv zeta.
  assert (Hall : forallb (@success Buffer)
                   (historyOf numberToString writer calls) = true).
  { unfold historyOf. now apply ConvertFacts.historyOf_successes. }
  split; [exact Hall|].
  generalize dependent (historyOf numberToString writer calls).
  intros h Hall. unfold getConversionStats. cbv zeta.
  cbn [successfulConversions totalConversions failedConversions successRate
       lastConversion].
  rewrite (ConvertFacts.filter_all _ _ _ Hall).
  split; [reflexivity|]. split; [lia|]. split; [|split].
  - intros Hne. destruct h as [|c h']; [congruence|].
    change (0 <? List.length (c :: h')) with true. cbv iota.
    assert (Hnz : ~ (inject_Z (Z.of_nat (List.length (c :: h'))) == 0)%Q).
    { unfold Qeq. cbn. lia. }
    unfold Qdiv. rewrite (Qmult_inv_r _ Hnz). reflexivity.
  - intros ->. cbn. split; reflexivity.
  - reflexivity.
Qed.

Lemma history_holds_successes_witness :
  (successRate
     (getConversionStats
        (historyOf (fun _ => lit "0")
           (fun tracks => @inl nat str (List.length tracks))
           [CallConvert (lit "C") {| optimize := false |} 3;
            CallConvert (text ["K:C"; "M:4/4"; "C"]%string)
              {| optimize := false |} 5])) == 100)%Q.
Proof.
  destruct (history_holds_successes (fun _ => lit "0") nat
              (fun tracks => inl (List.length tracks))
              [CallConvert (lit "C") {| optimize := false |} 3;
               CallConvert (text ["K:C"; "M:4/4"; "C"]%string)
                 {| optimize := false |} 5]) as (_ & _ & _ & H & _).
  apply H. vm_compute. discriminate.
Defined.

(** X26.  getConversionDetails answers inside the history only: null for an
    index below 0 or from the length on.  After a successful convert the
    new result is found at the index that was the length before, and what
    was stored at the earlier indices is still there. *)
Theorem getConversionDetails_lookup (numberToString : JS.number Q -> str)
  (Buffer : Type) (writer : list Track -> Buffer + str)
  (history : list (ConversionResult Buffer)) (abcString : str)
  (options : Options) (elapsed : Z) :
  let out := convert numberToString writer history abcString options elapsed in
  (forall i : Z,
     getConversionDetails history i = None <->
     (i < 0 \/ Z.of_nat (List.length history) <= i)%Z) /\
  (success (fst out) = true ->
   getConversionDetails (snd out) (Z.of_nat (List.length history))
     = Some (fst out)) /\
  (forall i : Z, (0 <= i < Z.of_nat (List.length history))%Z ->
     getConversionDetails (snd out) i = getConversionDetails history i).
Proof.
  cbv zeta. split; [|split].
  - intros i. unfold getConversionDetails.
    destruct (Z.geb_spec i 0) as [H0|H0];
      destruct (Z.ltb_spec i (Z.of_nat (List.length history))) as [H1|H1];
      cbn [andb]; try (split; [reflexivity | intros; reflexivity]);
      try (split; [intros _; lia | reflexivity]).
    split; [|lia]. intros Hn. apply nth_error_None in Hn. lia.
  - intros Hs. rewrite ConvertFacts.convert_history, Hs.
    unfold getConversionDetails. rewrite length_app. cbn [List.length].
    destruct (Z.geb_spec (Z.of_nat (List.length history)) 0); [|lia].
    destruct (Z.ltb_spec (Z.of_nat (List.length history))
                (Z.of_nat (List.length history + 1))); [|lia].
    cbn [andb]. rewrite Nat2Z.id, nth_error_app2 by lia.
    now rewrite Nat.sub_diag.
  - intros i Hi. rewrite ConvertFacts.convert_history.
    destruct (success (fst (convert numberToString writer history abcString
                              options elapsed))); [|reflexivity].
    unfold getConversionDetails. rewrite length_app. cbn [List.length].
    destruct (Z.geb_spec i 0); [|lia].
    destruct (Z.ltb_spec i (Z.of_nat (List.length history + 1))); [|lia].
    destruct (Z.ltb_spec i (Z.of_nat (List.length history))); [|lia].
    cbn [andb]. apply nth_error_app1. lia.
Qed.

Lemma getConversionDetails_lookup_witness :
  getConversionDetails
    (snd (convert (fun _ => lit "0")
            (fun tracks => @inl nat str (List.length tracks)) []
            (text ["K:C"; "M:4/4"; "C"]%string) {| optimize := false |} 5))
    (Z.of_nat (@List.length (ConversionResult nat) []))
  = Some (fst (convert (fun _ => lit "0")
                 (fun tracks => @inl nat str (List.length tracks)) []
                 (text ["K:C"; "M:4/4"; "C"]%string)
                 {| optimize := false |} 5)).
Proof.
  destruct (getConversionDetails_lookup (fun _ => lit "0") nat
              (fun tracks => inl (List.length tracks)) []
              (text ["K:C"; "M:4/4"; "C"]%string) {| optimize := false |} 5)
    as (_ & H & _).
  apply H. vm_compute. reflexivity.
Defined.

(** X27.  With effects asked for, convertWithEffects still returns the buffer of
    a plain convert: whenever convert succeeds on a text, convertWithEffects
    gives the same buffer for every choice of effects, and the header of the
    parse as metadata. *)
Theorem convertWithEffects_same_buffer (numberToString : JS.number Q -> str)
  (Buffer : Type) (writer : list Track -> Buffer + str)
  (history history' : list (ConversionResult Buffer)) (abcString : str)
  (options : Options) (elapsed : Z) (buf : Buffer)
  (md : ConversionMetadata) (effects : Effects) :
  convert numberToString writer history abcString options elapsed
    = (Converted buf md, history') ->
  convertWithEffects writer abcString effects =
  inl {| fxBuffer := buf; fxEffects := effects;
         fxHeader := header (parse abcString) |}.
Proof.
  rewrite ConvertFacts.convert_cases.
  destruct (isValid (validate abcString)); cbn [negb]; [|discriminate].
  destruct (isValid (validateMusicStructure numberToString
                       (parse abcString))); cbn [negb]; [|discriminate].
  unfold convertWithEffects, generate. cbv zeta.
  destruct (writer [generateEvents (parse abcString)]) as [b|msg];
    [|discriminate].
  intros H. injection H as <- _ _. reflexivity.
Qed.

Lemma convertWithEffects_same_buffer_witness :
  convertWithEffects (fun tracks => @inl nat str (List.length tracks))
    (text ["K:C"; "M:4/4"; "C"]%string)
    {| sustain := true; vibrato := true |}
  = inl {| fxBuffer := 1; fxEffects := {| sustain := true; vibrato := true |};
           fxHeader := header (parse (text ["K:C"; "M:4/4"; "C"]%string)) |}.
Proof.
  apply (convertWithEffects_same_buffer (fun _ => lit "0") nat
           (fun tracks => inl (List.length tracks)) []
           [Converted 1 {| cmTitle := lit "Untitled"; cmKey := lit "C";
                           cmTempo := Finite 120%Z; cmMeter := lit "4/4";
                           noteCount := 1; cmDuration := 7 |}]
           (text ["K:C"; "M:4/4"; "C"]%string) {| optimize := true |} 7%Z 1
           {| cmTitle := lit "Untitled"; cmKey := lit "C";
              cmTempo := Finite 120%Z; cmMeter := lit "4/4";
              noteCount := 1; cmDuration := 7 |}).
  vm_compute. reflexivity.
Defined.

(* ------------------------------------------------------------------ *)
(** ** The page's check against the parser's *)

Module ClientFacts.

Lemma validateABC_valid_iff (s : str) :
  isValid (validateABC s) = true <->
  trim s <> [] /\ includes s (lit "K:") = true /\
  includes s (lit "M:") = true /\ existsb isNoteLetter s = true.
Proof.
  unfold validateABC. cbv zeta.
  destruct (trim s) as [|c r] eqn:Et.
  - cbn [List.length Nat.eqb isValid]. split; [discriminate|].
    intros [H _]. now contradiction H.
  - cbn [List.length Nat.eqb].
    destruct (includes s (lit "K:")), (includes s (lit "M:")),
      (existsb isNoteLetter s); cbn [negb app isValid List.length Nat.eqb];
      (split;
       [ intros H; try discriminate H; repeat split; try reflexivity;
         discriminate
       | intros (_ & ? & ? & ?); try discriminate; reflexivity ]).
Qed.

Lemma validate_valid_iff (s : str) :
  isValid (validate s) = true <->
  trim s <> [] /\ includes s (lit "K:") = true /\
  includes s (lit "M:") = true /\ existsb isNoteLetter s = true /\
  listedChars s = [].
Proof.
  destruct (list_eq_dec N.eq_dec (trim s) []) as [Hb|Hne].
  - rewrite (ValidateFacts.validate_blank _ Hb). cbn [isValid].
    split; [discriminate | intros [H _]; contradiction].
  - rewrite (ValidateFacts.validate_nonblank _ Hne). cbn [isValid].
    unfold adviceFor.
    destruct (includes s (lit "K:")), (includes s (lit "M:")),
      (existsb isNoteLetter s), (listedChars s);
      cbn [app List.length Nat.eqb];
      (split;
       [ intros H; try discriminate H; repeat split; try reflexivity;
         exact Hne
       | intros (_ & ? & ? & ? & ?); try discriminate; reflexivity ]).
Qed.

End ClientFacts.

(** X15.  The check of the page and the parser's validate agree up to the
    invalid characters, which only the parser looks for: validate accepts a
    text exactly when the page's check accepts it and the note section has
    no character outside the allowed set.  So the page never stops a text
    that validate would accept. *)
Theorem page_check_and_validate (abcString : str) :
  (isValid (validateABC abcString) = true <->
   trim abcString <> [] /\ includes abcString (lit "K:") = true /\
   includes abcString (lit "M:") = true /\
   existsb isNoteLetter abcString = true) /\
  (isValid (validate abcString) = true <->
   isValid (validateABC abcString) = true /\ listedChars abcString = []) /\
  (isValid (validate abcString) = true ->
   isValid (validateABC abcString) = true).
Proof.
  pose proof (ClientFacts.validateABC_valid_iff abcString) as Hc.
  pose proof (ClientFacts.validate_valid_iff abcString) as Hv.
  split; [exact Hc|]. split.
  - rewrite Hv, Hc. tauto.
  - rewrite Hv, Hc. tauto.
Qed.

Lemma page_check_and_validate_witness :
  isValid (validateABC Tunes.scale) = true.
Proof.
  destruct (page_check_and_validate Tunes.scale) as (_ & _ & H).
  apply H. vm_compute. reflexivity.
Defined.

(* ------------------------------------------------------------------ *)
(** ** More on the scanner *)

Module ScanMore.

Import JSFacts.

Lemma marks_dropWhile (p : char -> bool) (s : str) :
  marks (dropWhile p s) <= marks s.
Proof.
  unfold marks. induction s as [|c r IH]; cbn [dropWhile]; [lia|].
  destruct (p c); [|lia]. cbn [filter].
  destruct (isOctaveMark c); cbn [List.length]; lia.
Qed.

(** A match that does not end the text has used up an octave mark. *)
Lemma exec_uses_a_mark (s : str) (m : Groups) (r : str) :
  exec s = Some (m, r) -> r = [] \/ marks r < marks s.
Proof.
  induction s as [|c t IH]; cbn [exec]; [discriminate|].
  destruct (isNoteLetter c).
  - intros H. injection H as _ <-.
    pose proof (marks_dropWhile notOctaveMark t) as H1.
    pose proof (TrimFacts.dropWhile_head notOctaveMark t) as Hh.
    destruct (dropWhile notOctaveMark t) as [|x r2] eqn:E2.
    + left. reflexivity.
    + right. unfold notOctaveMark in Hh. apply negb_false_iff in Hh.
      cbn [dropWhile]. rewrite Hh.
      pose proof (marks_dropWhile isOctaveMark r2) as H3.
      pose proof (marks_dropWhile isDigit (dropWhile isOctaveMark r2)) as H4.
      assert (Hx : marks (x :: r2) = S (marks r2)).
      { unfold marks. cbn [filter]. now rewrite Hh. }
      assert (Hc : marks t <= marks (c :: t)).
      { unfold marks. cbn [filter]. destruct (isOctaveMark c);
          cbn [List.length]; lia. }
      lia.
  - intros H. destruct (IH H) as [->|Hlt]; [now left|].
    right. unfold marks in *. cbn [filter].
    destruct (isOctaveMark c); cbn [List.length]; lia.
Qed.

Lemma scanNotes_marks (s : str) : List.length (scanNotes s) <= S (marks s).
Proof.
  remember (List.length s) as k eqn:Hk. revert s Hk.
  induction k as [k IH] using lt_wf_ind. intros s Hk.
  rewrite Scanner.scanNotes_step.
  destruct (exec s) as [[m r]|] eqn:E; [|cbn; lia].
  pose proof (Scanner.exec_shorter s m r E) as Hs.
  cbn [List.length].
  destruct (exec_uses_a_mark s m r E) as [->|Hlt].
  - rewrite scanNotes_nil. cbn. lia.
  - specialize (IH (List.length r) ltac:(lia) r eq_refl). lia.
Qed.

Lemma splitOn_In (p : char -> bool) (s seg : str) (x : char) :
  In seg (splitOn p s) -> In x seg -> In x s.
Proof.
  revert seg. induction s as [|a r IH]; intros seg Hseg Hx.
  - cbn in Hseg. destruct Hseg as [<-|[]]. destruct Hx.
  - cbn [splitOn] in Hseg. destruct (p a).
    + destruct Hseg as [<-|Hseg]; [destruct Hx|].
      right. now apply (IH seg).
    + destruct (splitOn p r) as [|l ls] eqn:El.
      * destruct Hseg as [<-|[]]. destruct Hx as [<-|[]]. now left.
      * destruct Hseg as [<-|Hseg].
        -- destruct Hx as [<-|Hx]; [now left|].
           right. apply (IH l); [now left | exact Hx].
        -- right. apply (IH seg); [now right | exact Hx].
Qed.

End ScanMore.

(** X4.  The scanner never gives more notes than one plus the octave marks
    (commas and apostrophes) of the body text: a match runs on until an
    octave mark or the end of the text stops it. *)
Theorem notes_bounded_by_octave_marks (lines : list str) :
  List.length (parseBody lines) <= S (marks (join [ch " "] lines)).
Proof. unfold parseBody. cbv zeta. apply ScanMore.scanNotes_marks. Qed.

(** X6.  A text without any letter of A-G or a-g parses to no note, and when
    it is not blank validate reports that no notes were found. *)
Theorem no_letter_no_note (abcString : str) :
  existsb isNoteLetter abcString = false ->
  body (parse abcString) = [] /\
  (trim abcString <> [] -> In msgNoNotes (errors (validate abcString))).
Proof.
  intros Hno. split.
  - unfold parse. cbn [body].
    apply ParserMore.parseBody_nil_iff.
    intros l Hl. apply TrimFacts.In_existsb_false. intros x Hx.
    apply (TrimFacts.existsb_false_In _ _ Hno).
    apply TrimFacts.trim_In.
    apply (ScanMore.splitOn_In (fun c => (c =? lineFeed)%N)
             (trim abcString) l); [|exact Hx].
    fold (split lineFeed (trim abcString)).
    rewrite <- (firstn_skipn
                  (lineCount (parseHeader (split lineFeed (trim abcString))))
                  (split lineFeed (trim abcString))).
    apply in_or_app. right. exact Hl.
  - intros Hne. rewrite (ValidateFacts.validate_nonblank _ Hne).
    cbn [errors]. apply ValidateFacts.adviceFor_In. left. now split.
Qed.

Lemma no_letter_no_note_witness :
  body (parse (lit "| z2 |")) = [] /\
  (trim (lit "| z2 |") <> [] ->
   In msgNoNotes (errors (validate (lit "| z2 |")))).
Proof. apply (no_letter_no_note (lit "| z2 |")). vm_compute. reflexivity. Defined.

(** X7.  Where the duration is read: a letter, then octave marks, then digits.
    Such a line gives one note, shifted by an octave per mark, whose
    duration is 1 without digits and otherwise the number the digits spell
    as parseFloat reads it: the binary64 nearest to that integer, which is
    the integer itself up to 2^53, Infinity from 2^1024 - 2^970 on, and in
    between a binary64 value that no other is nearer to the integer. *)
Theorem duration_behind_octave_marks (c : char) (ms ds : str) :
  isNoteLetter c = true ->
  ms <> [] -> forallb isOctaveMark ms = true ->
  forallb isDigit ds = true ->
  let d := match ds with
           | [] => Finite 1%Q
           | _ :: _ => parseFloatDigits ds
           end in
  parseBody [c :: ms ++ ds] =
  [ {| note := toUpperCase c;
       midiNote := (baseNoteOf c + octaveOffsetOf ms * 12)%Z;
       duration := d;
       accidental := [];
       octave := (4 + octaveOffsetOf ms)%Z |} ] /\
  (ds <> [] ->
   ((digitsValue ds <= 2 ^ 53)%N ->
    d = Finite (inject_Z (Z.of_N (digitsValue ds)))) /\
   (d = Infinity false <-> (2 ^ 1024 - 2 ^ 970 <= digitsValue ds)%N) /\
   (forall q, d = Finite q ->
      exists v, q = inject_Z (Z.of_N v) /\ representable v /\
        forall w, representable w ->
          (distance v (digitsValue ds) <= distance w (digitsValue ds))%N)).
Proof.
  intros Hc Hne Hm Hd. cbv zeta. split.
  2:{ destruct ds as [|d0 ds0]; [congruence|]. intros _.
      split; [apply NumberFacts.parseFloatDigits_exact|].
      exact (parseFloatDigits_rounded (d0 :: ds0)). }
  unfold parseBody. cbn [join]. rewrite Scanner.scanNotes_step.
  cbn [exec]. rewrite Hc.
  destruct ms as [|x ms']; [congruence|].
  assert (Hx : isOctaveMark x = true).
  { cbn [forallb] in Hm. now apply andb_true_iff in Hm as [Hx _]. }
  assert (Hg2 : takeWhile notOctaveMark ((x :: ms') ++ ds) = []
                /\ dropWhile notOctaveMark ((x :: ms') ++ ds)
                   = (x :: ms') ++ ds).
  { cbn [app takeWhile dropWhile]. unfold notOctaveMark. rewrite Hx.
    cbn [negb]. split; reflexivity. }
  destruct Hg2 as [-> ->].
  assert (Hstop : match ds with [] => True
                  | d :: _ => isOctaveMark d = false end).
  { destruct ds as [|d ds']; [exact I|].
    cbn [forallb] in Hd. apply andb_true_iff in Hd as [Hd _].
    unfold isDigit in Hd. apply andb_true_iff in Hd as [H1 H2].
    apply N.leb_le in H1, H2. unfold isOctaveMark, apostrophe.
    change (ch ",") with 44%N.
    destruct (N.eqb_spec d 44); [lia|]. destruct (N.eqb_spec d 39); [lia|].
    reflexivity. }
  destruct (TempoFacts.takeWhile_app_stop isOctaveMark (x :: ms') ds Hm Hstop)
    as [-> ->].
  rewrite (JSFacts.takeWhile_id _ ds Hd), (dropWhile_all _ ds Hd).
  rewrite scanNotes_nil.
  unfold noteOfMatch. cbn [gNote gAccidental gOctave gDuration].
  change (semitoneOffsetOf []) with 0%Z. unfold currentOctave.
  replace (baseNoteOf c + 0 + octaveOffsetOf (x :: ms') * 12)%Z
    with (baseNoteOf c + octaveOffsetOf (x :: ms') * 12)%Z by lia.
  destruct ds; reflexivity.
Qed.

Lemma duration_behind_octave_marks_witness :
  parseBody [ch "c" :: lit "''" ++ lit "12"] =
  [ {| note := toUpperCase (ch "c");
       midiNote := (baseNoteOf (ch "c") + octaveOffsetOf (lit "''") * 12)%Z;
       duration := parseFloatDigits (lit "12");
       accidental := [];
       octave := (4 + octaveOffsetOf (lit "''"))%Z |} ] /\
  parseFloatDigits (lit "12") = Finite 12%Q.
Proof.
  split.
  - refine (proj1 (duration_behind_octave_marks (ch "c") (lit "''")
                     (lit "12") _ _ _ _));
      vm_compute; try reflexivity; discriminate.
  - refine (proj1 (proj2 (duration_behind_octave_marks (ch "c") (lit "''")
                            (lit "12") _ _ _ _) _) _);
      vm_compute; try reflexivity; discriminate.
Defined.

(** X5.  Text in front of the first letter of A-G or a-g (bar lines, rests,
    spaces, digits) does not change the notes that are read. *)
Theorem leading_text_ignored (pre s : str) :
  existsb isNoteLetter pre = false ->
  scanNotes (pre ++ s) = scanNotes s /\
  parseBody [pre ++ s] = parseBody [s].
Proof.
  intros Hpre.
  assert (He : exec (pre ++ s) = exec s).
  { induction pre as [|c pre IH]; [reflexivity|].
    cbn [existsb] in Hpre. apply orb_false_iff in Hpre as [Hc Hpre].
    cbn [app exec]. rewrite Hc. now apply IH. }
  assert (Hs : scanNotes (pre ++ s) = scanNotes s).
  { rewrite (Scanner.scanNotes_step (pre ++ s)), (Scanner.scanNotes_step s).
    now rewrite He. }
  split; [exact Hs|]. unfold parseBody. cbn [join]. exact Hs.
Qed.

Lemma leading_text_ignored_witness :
  scanNotes (lit "| z2 " ++ lit "C,D") = scanNotes (lit "C,D") /\
  parseBody [lit "| z2 " ++ lit "C,D"] = parseBody [lit "C,D"].
Proof.
  apply (leading_text_ignored (lit "| z2 ") (lit "C,D")).
  vm_compute. reflexivity.
Defined.

(* ------------------------------------------------------------------ *)
(** ** Voice and instruction lines *)

Module VoiceFacts.

Import JSFacts.

Lemma splitOn_line (p : char -> bool) (l rest : str) (c : char) :
  existsb p l = false -> p c = true ->
  splitOn p (l ++ c :: rest) = l :: splitOn p rest.
Proof.
  intros Hl Hc. induction l as [|x l IH]; cbn [app splitOn].
  - now rewrite Hc.
  - cbn [existsb] in Hl. apply orb_false_iff in Hl as [Hx Hl].
    rewrite Hx, (IH Hl). reflexivity.
Qed.

Lemma splitOn_last (p : char -> bool) (l : str) :
  existsb p l = false -> splitOn p l = [l].
Proof.
  intros Hl. induction l as [|x l IH]; [reflexivity|].
  cbn [existsb] in Hl. apply orb_false_iff in Hl as [Hx Hl].
  cbn [splitOn]. now rewrite Hx, (IH Hl).
Qed.

(** Lines joined by line feeds split back into the same lines. *)
Lemma split_join (lines : list str) :
  lines <> [] ->
  (forall k, In k lines -> existsb (fun c => (c =? lineFeed)%N) k = false) ->
  split lineFeed (join [lineFeed] lines) = lines.
Proof.
  unfold split. induction lines as [|l rest IH]; [congruence|].
  intros _ Hall. destruct rest as [|l' rest'].
  - cbn [join]. apply splitOn_last. apply Hall. now left.
  - change (join [lineFeed] (l :: l' :: rest'))
      with (l ++ lineFeed :: join [lineFeed] (l' :: rest')).
    rewrite splitOn_line; [| apply Hall; now left | apply N.eqb_refl].
    f_equal. apply IH; [discriminate|].
    intros k Hk. apply Hall. now right.
Qed.

Lemma join_In (sep : str) (parts : list str) (l : str) (x : char) :
  In l parts -> In x l -> In x (join sep parts).
Proof.
  induction parts as [|p rest IH]; [intros []|].
  intros Hl Hx. destruct rest as [|p' rest'].
  - destruct Hl as [<-|[]]. exact Hx.
  - change (join sep (p :: p' :: rest'))
      with (p ++ sep ++ join sep (p' :: rest')).
    destruct Hl as [<-|Hl].
    + apply in_or_app. now left.
    + apply in_or_app. right. apply in_or_app. right. now apply IH.
Qed.

Lemma trimEnd_tail_spaces (t : str) :
  forallb isSpace (rev (takeWhile isSpace (rev t))) = true.
Proof.
  apply forallb_forall. intros x Hx. apply in_rev in Hx.
  pose proof (takeWhile_all isSpace (rev t)) as H.
  rewrite forallb_forall in H. now apply H.
Qed.

(** Trimming keeps a two-unit head that has no white space in it. *)
Lemma trim_keeps_head (a b : char) (r : str) :
  isSpace a = false -> isSpace b = false ->
  exists r', trim (a :: b :: r) = a :: b :: r'.
Proof.
  intros Ha Hb. unfold trim, trimStart. cbn [dropWhile]. rewrite Ha.
  pose proof (TrimFacts.trimEnd_prefix (a :: b :: r)) as Hp.
  pose proof (trimEnd_tail_spaces (a :: b :: r)) as Hs.
  destruct (trimEnd (a :: b :: r)) as [|x [|y u]].
  - cbn [app] in Hp. rewrite <- Hp in Hs. cbn [forallb] in Hs.
    rewrite Ha in Hs. discriminate.
  - cbn [app] in Hp.
    destruct (rev (takeWhile isSpace (rev (a :: b :: r)))) as [|z w];
      [discriminate|].
    injection Hp as -> -> ->. cbn [forallb] in Hs. rewrite Hb in Hs.
    discriminate.
  - cbn [app] in Hp. injection Hp as -> -> _. now exists u.
Qed.

Lemma startsWith_two (s : str) (a b : char) :
  startsWith s [a; b] = true -> exists r, s = a :: b :: r.
Proof.
  destruct s as [|x [|y r]]; cbn; try discriminate.
  - rewrite andb_false_r. discriminate.
  - intros H. apply andb_true_iff in H as [H1 H2].
    apply andb_true_iff in H2 as [H2 _].
    apply N.eqb_eq in H1, H2. subst. now exists r.
Qed.

End VoiceFacts.

(** X14.  A line that starts with "V:" or "I:" is a header line for the header
    scan, which skips it, but validate counts it to the note section and
    reports its characters: a text with such a line is never valid. *)
Theorem voice_line_rejected (lines : list str) (l : str) :
  (forall k, In k lines -> existsb (fun c => (c =? lineFeed)%N) k = false) ->
  In l lines ->
  startsWith l (lit "V:") = true \/ startsWith l (lit "I:") = true ->
  isHeaderLine l = true /\
  isValid (validate (join [lineFeed] lines)) = false.
Proof.
  intros Hlines Hl Htag.
  assert (Hshape : exists a r, l = a :: ch ":" :: r /\
                     (a = ch "V" \/ a = ch "I")).
  { destruct Htag as [H|H]; apply VoiceFacts.startsWith_two in H;
      destruct H as [r ->]; eauto. }
  destruct Hshape as (a & r & -> & Ha).
  assert (Hsa : isSpace a = false) by (destruct Ha as [->| ->]; reflexivity).
  destruct (VoiceFacts.trim_keeps_head a (ch ":") r Hsa eq_refl)
    as [r' Htrim].
  split.
  - unfold isHeaderLine. cbv zeta. rewrite Htrim.
    destruct Ha as [->| ->]; destruct r'; vm_compute; reflexivity.
  - destruct (isValid (validate (join [lineFeed] lines))) eqn:Ev;
      [|reflexivity].
    exfalso. apply ClientFacts.validate_valid_iff in Ev.
    destruct Ev as (_ & _ & _ & _ & Hlisted).
    assert (Hin : In a (listedChars (join [lineFeed] lines))).
    { unfold listedChars. apply ValidateFacts.unique_In. split; [|intros []].
      apply ValidateFacts.invalidCharsOf_In. split.
      - unfold noteSectionOf. cbv zeta.
        rewrite VoiceFacts.split_join;
          [| intros E; rewrite E in Hl; destruct Hl | exact Hlines].
        apply (VoiceFacts.join_In _ _ (a :: ch ":" :: r)); [|now left].
        apply filter_In. split; [exact Hl|].
        rewrite Htrim.
        destruct Ha as [->| ->]; vm_compute; reflexivity.
      - destruct Ha as [->| ->]; reflexivity. }
    rewrite Hlisted in Hin. destruct Hin.
Qed.

Lemma voice_line_rejected_witness :
  isHeaderLine (lit "V:1") = true /\
  isValid (validate (join [lineFeed]
                       [lit "X:1"; lit "M:4/4"; lit "K:C"; lit "V:1";
                        lit "C,D"])) = false.
Proof.
  apply (voice_line_rejected
           [lit "X:1"; lit "M:4/4"; lit "K:C"; lit "V:1"; lit "C,D"]
           (lit "V:1")).
  - intros k Hk. vm_compute in Hk.
    repeat (destruct Hk as [<-|Hk]; [reflexivity|]). destruct Hk.
  - vm_compute. tauto.
  - left. reflexivity.
Defined.
